(** * State-history trace converter: encoding, decoding and in-place pruning

    A shallow embedding of
      libraries/state_history/include/eosio/state_history/compression.hpp
      libraries/state_history/trace_converter.cpp
    and the properties of the trace log format that follow from that code.

    Conventions.
    - [bytes] is [list byte]; positions and sizes ([size_t], [uint64_t] stream
      offsets) are [nat]; a [uint32_t] on the wire is an [N] reduced modulo
      2^32 where the code truncates, written little-endian (the memory image of
      the integer, which is what [length_writer] stores).
    - C++ code that mutates objects and may throw is written in the monad
      [M St A := St -> St * result A]: the state reached when an exception
      leaves the code is part of the outcome.
    - The binary serializer ([fc::raw]), the zlib codec and the declarations of
      the chain library are not part of these two files; they enter as type
      classes ([RawPack], [RawUnpack], [Zlib]) with their laws stated apart
      ([RawOk], [ZlibOk]). *)

From Stdlib Require Import NArith Strings.Byte String Lia.
From stdpp Require Import gmap list.

#[local] Unset Default Proof Using.
#[local] Set Warnings "-register-all".
#[local] Open Scope nat_scope.

(* ===================================================================== *)
(** * Bytes and little-endian 32-bit lengths *)
(* ===================================================================== *)

Abbreviation bytes := (list byte).

Definition byte_of_N (n : N) : byte :=
  match Byte.of_N (n mod 256) with
  | Some b => b
  | None => x00
  end.

(** The four bytes of [uint32_t(n)] in memory order. *)
Definition le32 (n : N) : bytes :=
  [ byte_of_N n; byte_of_N (n / 256); byte_of_N (n / 65536); byte_of_N (n / 16777216) ].

Definition u32_of_bytes (bs : bytes) : option N :=
  match bs with
  | [b0; b1; b2; b3] =>
      Some (Byte.to_N b0 + 256 * Byte.to_N b1 + 65536 * Byte.to_N b2
            + 16777216 * Byte.to_N b3)%N
  | _ => None
  end.

Definition uint32 (n : N) : N := (n mod 4294967296)%N.

(* ===================================================================== *)
(** * Exceptions and the exception-state monad *)
(* ===================================================================== *)

Inductive exception :=
  | out_of_range_exception            (* fc::out_of_range_exception *)
  | state_history_exception (what : string)
  | assert_exception                  (* fc::static_variant::set_which on a bad tag *)
  | raw_exception                     (* a failure inside fc::raw::unpack *)
  | zlib_error.                       (* boost::iostreams::zlib_error *)

Inductive result (A : Type) :=
  | Ok (a : A)
  | Err (e : exception).
Arguments Ok {A} a.
Arguments Err {A} e.

Definition M (St A : Type) : Type := St -> St * result A.

Definition ret {St A} (a : A) : M St A := fun s => (s, Ok a).

Definition bind {St A B} (m : M St A) (k : A -> M St B) : M St B :=
  fun s =>
    match m s with
    | (s', Ok a) => k a s'
    | (s', Err e) => (s', Err e)
    end.

Definition throw {St A} (e : exception) : M St A := fun s => (s, Err e).
Definition get {St} : M St St := fun s => (s, Ok s).
Definition gets {St A} (f : St -> A) : M St A := fun s => (s, Ok (f s)).
Definition modify {St} (f : St -> St) : M St unit := fun s => (f s, Ok tt).

Definition lift_result {St A} (r : result A) : M St A := fun s => (s, r).

(** [EOS_ASSERT(cond, exc, ...)]: throws [exc] when [cond] is false. *)
Definition EOS_ASSERT {St} (cond : bool) (e : exception) : M St unit :=
  if cond then ret tt else throw e.

(** A scope with a guard object: [release] (the destructor) runs on every way
    out of [body], and an exception of [body] goes on after it. *)
Definition scoped {St A} (body : M St A) (release : M St unit) : M St A :=
  fun s =>
    match body s with
    | (s1, Ok a) =>
        match release s1 with
        | (s2, Ok _) => (s2, Ok a)
        | (s2, Err e) => (s2, Err e)
        end
    | (s1, Err e) => (fst (release s1), Err e)
    end.

Declare Scope monad_scope.
Delimit Scope monad_scope with monad.
Notation "x <- m ;; k" := (bind m (fun x => k))
  (at level 100, m at next level, right associativity) : monad_scope.
Notation "m ;;; k" := (bind m (fun _ => k))
  (at level 100, right associativity) : monad_scope.
#[local] Open Scope monad_scope.

(* ===================================================================== *)
(** * Streams *)
(* ===================================================================== *)

(** What the templates ask of a [STREAM] they write to: [write], [tellp] and
    the [seek] overloads of compression.hpp. *)
Class OStream (S : Type) := {
  write : bytes -> M S unit;
  tellp : S -> nat;
  seek : nat -> S -> S
}.

(** What they ask of a stream they read from: [read(buf, n)]; the model
    returns the bytes stored into [buf]. *)
Class IStream (S : Type) := {
  read : nat -> M S bytes
}.

(** Overwrite [data] into [buf] from offset [pos] on. *)
Definition overwrite (pos : nat) (data buf : bytes) : bytes :=
  take pos buf ++ data ++ drop (pos + length data) buf.

(** ** fc::cfile: a file with a position; writing past the end extends it
    (a gap is filled with zero bytes, as the file system does). *)
Record cfile := { file_data : bytes; file_pos : nat }.

Definition cfile_write (data : bytes) : M cfile unit :=
  fun f =>
    ({| file_data := overwrite (file_pos f) data
                       (file_data f ++ replicate (file_pos f - length (file_data f)) x00);
        file_pos := file_pos f + length data |}, Ok tt).

#[export] Instance cfile_ostream : OStream cfile := {
  write := cfile_write;
  tellp := file_pos;
  seek p f := {| file_data := file_data f; file_pos := p |}
}.

(** ** fc::datastream over a fixed buffer: [_start .. _end) is [ds_buf],
    [_pos - _start] is [ds_pos]. *)
Record datastream := { ds_buf : bytes; ds_pos : nat }.

Definition ds_remaining (ds : datastream) : nat := length (ds_buf ds) - ds_pos ds.

(** [skip] moves the position without any check. *)
Definition ds_skip (n : nat) : M datastream unit :=
  modify (fun ds => {| ds_buf := ds_buf ds; ds_pos := ds_pos ds + n |}).

(** [datastream<char*>::write]: copies when the bytes fit before [_end],
    throws otherwise (nothing is copied then). *)
Definition ds_write (data : bytes) : M datastream unit :=
  fun ds =>
    if decide (ds_pos ds + length data <= length (ds_buf ds)) then
      ({| ds_buf := overwrite (ds_pos ds) data (ds_buf ds);
          ds_pos := ds_pos ds + length data |}, Ok tt)
    else (ds, Err out_of_range_exception).

(** [datastream<const char*>::read]: the next [n] bytes, or a range error. *)
Definition ds_read (n : nat) : M datastream bytes :=
  fun ds =>
    if decide (ds_pos ds + n <= length (ds_buf ds)) then
      ({| ds_buf := ds_buf ds; ds_pos := ds_pos ds + n |},
       Ok (take n (drop (ds_pos ds) (ds_buf ds))))
    else (ds, Err out_of_range_exception).

#[export] Instance datastream_ostream : OStream datastream := {
  write := ds_write;
  tellp := ds_pos;
  seek p ds := {| ds_buf := ds_buf ds; ds_pos := p |}
}.

#[export] Instance datastream_istream : IStream datastream := {
  read := ds_read
}.

(* ===================================================================== *)
(** * The external serializer and codec *)
(* ===================================================================== *)

(** [fc::raw::pack(strm, x)] writes [raw_pack x]. *)
Class RawPack (T : Type) := raw_pack : T -> bytes.

(** [fc::raw::unpack(ds, x)] on the bytes from the read position on: the value
    and the number of bytes it takes, or the exception it throws. *)
Class RawUnpack (T : Type) := raw_unpack : bytes -> result (T * nat).

(** Length symmetry of the serializer: what is written is what is read. *)
Class RawOk (T : Type) `{RawPack T} `{RawUnpack T} := {
  raw_unpack_pack : forall (x : T) (rest : bytes),
    raw_unpack (raw_pack x ++ rest) = Ok (x, length (raw_pack x))
}.

(** The zlib algorithm behind the boost filters and behind
    [zlib_compress_bytes] / [zlib_decompress], which compression.hpp only
    declares. *)
Class Zlib := {
  zlib_compress_bytes : bytes -> bytes;
  zlib_decompress : bytes -> result bytes
}.

Class ZlibOk `{Zlib} := {
  zlib_decompress_compress : forall b, zlib_decompress (zlib_compress_bytes b) = Ok b;
  zlib_compress_nonempty : forall b, zlib_compress_bytes b <> []
}.

(** [fc::raw::unpack] from a [datastream<const char*>]. *)
Definition ds_unpack {T} `{RawUnpack T} : M datastream T :=
  fun ds =>
    match raw_unpack (drop (ds_pos ds) (ds_buf ds)) with
    | Ok (x, n) =>
        if decide (ds_pos ds + n <= length (ds_buf ds)) then
          ({| ds_buf := ds_buf ds; ds_pos := ds_pos ds + n |}, Ok x)
        else (ds, Err out_of_range_exception)
    | Err e => (ds, Err e)
    end.

(** [fc::raw::unpack(strm, len)] for a [uint32_t]: four bytes. *)
Definition unpack_u32 {S} `{IStream S} : M S N :=
  bs <- read 4 ;;
  match u32_of_bytes bs with
  | Some n => ret n
  | None => throw out_of_range_exception
  end.

(* ===================================================================== *)
(** * compression.hpp *)
(* ===================================================================== *)

(** ** restriced_data_source *)
Record restriced_data_source (S : Type) := {
  strm : S;
  remaining : nat
}.
Arguments strm {S} _.
Arguments remaining {S} _.

Definition make_restricted_source {S} (st : S) (sz : nat) : restriced_data_source S :=
  {| strm := st; remaining := sz |}.

(** [read(buf, n)]: the assertion comes first, then the budget is charged,
    then the wrapped stream reads. *)
Definition restricted_read {S} `{IStream S} (n : nat) : M (restriced_data_source S) bytes :=
  fun r =>
    if decide (n <= remaining r) then
      let r1 := {| strm := strm r; remaining := remaining r - n |} in
      match read n (strm r1) with
      | (s', res) => ({| strm := s'; remaining := remaining r1 |}, res)
      end
    else (r, Err out_of_range_exception).

#[export] Instance restricted_istream {S} `{IStream S} : IStream (restriced_data_source S) := {
  read := restricted_read
}.

(** ** length_writer: constructor and destructor *)
Definition length_writer_open {S} `{OStream S} : M S nat :=
  write (le32 0) ;;;
  gets tellp.

Definition length_writer_close {S} `{OStream S} (start_pos : nat) : M S unit :=
  end_pos <- gets tellp ;;
  let len := uint32 (N.of_nat (end_pos - start_pos)) in
  modify (seek (start_pos - 4)) ;;;
  write (le32 len) ;;;
  modify (seek end_pos).

(** ** is_empty: [false] except on vectors *)
Class IsEmpty (T : Type) := is_empty : T -> bool.

(** [std::vector::empty()] *)
Definition empty {A} (v : list A) : bool :=
  match v with [] => true | _ => false end.

#[export] Instance is_empty_vector {A} : IsEmpty (list A) := empty.

(** ** zlib_pack *)
Definition zlib_pack {S T} `{OStream S} `{Zlib} `{RawPack T} `{IsEmpty T}
    (object : T) : M S unit :=
  if is_empty object then
    write (le32 0)
  else
    start_pos <- length_writer_open ;;
    scoped (write (zlib_compress_bytes (raw_pack object)))
           (length_writer_close start_pos).

(** ** zlib_unpack(STREAM&, T&): the section is read through a source
    restricted to [len] bytes and inflated; [obj] comes in and goes out. *)
Definition zlib_unpack {S T} `{IStream S} `{Zlib} `{RawUnpack T} (obj : T) : M S T :=
  len <- unpack_u32 ;;
  if (0 <? len)%N then
    fun s =>
      match read (N.to_nat len) (make_restricted_source s (N.to_nat len)) with
      | (r, Ok compressed) =>
          (strm r,
           match zlib_decompress compressed with
           | Ok decompressed =>
               match raw_unpack decompressed with
               | Ok (x, _) => Ok x
               | Err e => Err e
               end
           | Err e => Err e
           end)
      | (r, Err e) => (strm r, Err e)
      end
  else ret obj.

(** ** zlib_unpack(const char* buffer, datastream&, Object&) *)
Definition zlib_unpack_buffer {T} `{Zlib} `{RawUnpack T} (obj : T) : M datastream T :=
  len <- unpack_u32 ;;
  if (len =? 0)%N then ret obj
  else
    rem <- gets ds_remaining ;;
    EOS_ASSERT (bool_decide (len <= N.of_nat rem)%N) out_of_range_exception ;;;
    ds <- get ;;
    decompressed <- lift_result
        (zlib_decompress (take (N.to_nat len) (drop (ds_pos ds) (ds_buf ds)))) ;;
    ds_skip (N.to_nat len) ;;;
    xn <- lift_result (raw_unpack decompressed) ;;
    ret (fst xn).

(* ===================================================================== *)
(** * Declarations of the chain library used by trace_converter.cpp *)
(* ===================================================================== *)

Abbreviation transaction_id_type := N.

(** Fields the converter never looks into are kept as serialized blobs. *)
Record signature_type := { signature_data : bytes }.
Record transaction_receipt := { receipt_data : bytes }.

Module chain.

Record permission_level := { actor : N; permission : N }.
Record action := { account : N; name : N; authorization : list permission_level }.
Record action_trace := { act : action }.

(** Modelled from the spec: the record [prunable_data_type::none] is declared
    in the chain library, outside these sources. The code hands it to
    [fc::raw::pack] and [fc::raw::unpack] as a whole
    (trace_converter.cpp:98 and :105-108) and never looks into it, so its
    members are kept as one opaque value; the bytes it is serialized to are
    the serializer's ([RawPack none_type]), an empty sequence if the record
    has no member, as section 3 of the specification has it. *)
Record none_type := { none_members : bytes }.

(** Modelled from the spec: [packed_transaction::prunable_data_type] is
    declared in the chain library, outside these sources. Section 3 of the
    specification: a tagged variant with the cases None, FullLegacy, Partial
    and Full; FullLegacy and Full carry [signatures] and
    [context_free_segments]. Partial has the two members as well: the generic
    branches of [prune] and [pack] read [elem.signatures] and
    [elem.context_free_segments] of every case but None. The None case holds
    the record above. The constructors are listed in the order of the
    overloads of [restore_partial]. *)
Inductive prunable_data_type :=
  | full_legacy (signatures : list signature_type) (context_free_segments : list bytes)
  | none (data : none_type)
  | partial (signatures : list signature_type) (context_free_segments : list bytes)
  | full (signatures : list signature_type) (context_free_segments : list bytes).

(** Modelled from the spec: [prunable_data_type::prune_all] is defined in
    the chain library. Section 4.6: the fully stripped form, carrying neither
    signatures nor context-free data; the comment on
    [trace_pruner::operator()] names it: [prunable_data::none], also when
    both sequences are empty. Which None record it makes of a value is a
    parameter. *)
Class PruneAll := prune_all_none : prunable_data_type -> none_type.

Definition prune_all `{PruneAll} (obj : prunable_data_type) : prunable_data_type :=
  none (prune_all_none obj).

Record packed_transaction := {
  id : transaction_id_type;                (* id() *)
  transaction_data : bytes;                (* the unprunable part of the transaction *)
  get_prunable_data : prunable_data_type
}.

(** [chain::transaction_trace], reached through a [transaction_trace_ptr]. *)
Inductive transaction_trace := Build_transaction_trace {
  trace_id : transaction_id_type;
  receipt : option transaction_receipt;
  action_traces : list action_trace;
  failed_dtrx_trace : option transaction_trace   (* a null pointer is [None] *)
}.

(** The entries of [block->transactions]: [r.trx] holds an id or a packed
    transaction. *)
Inductive transaction_receipt_trx :=
  | trx_id (i : transaction_id_type)
  | trx_packed (pt : packed_transaction).

End chain.

Record augmented_transaction_trace := {
  trace : chain.transaction_trace;
  packed_trx : option chain.packed_transaction       (* packed_transaction_ptr *)
}.

(* ===================================================================== *)
(** * trace_converter.cpp: the accumulator *)
(* ===================================================================== *)

Record trace_converter := {
  cached_traces : gmap N augmented_transaction_trace;
  onblock_trace : option augmented_transaction_trace
}.

Section Accumulator.

(** [config::system_account_name], [N(onblock)], [config::active_name]. *)
Variables (system_account_name onblock active_name : N).

Definition is_onblock (p : chain.transaction_trace) : bool :=
  match chain.action_traces p with
  | [at0] =>
      let act := chain.act at0 in
      match chain.authorization act with
      | [auth] =>
          if negb (chain.account act =? system_account_name)%N
             || negb (chain.name act =? onblock)%N
          then false
          else (chain.actor auth =? system_account_name)%N
               && (chain.permission auth =? active_name)%N
      | _ => false
      end
  | _ => false
  end.

Definition add_transaction (trace : chain.transaction_trace)
    (transaction : option chain.packed_transaction) : M trace_converter unit :=
  match chain.receipt trace with
  | Some _ =>
      let augmented := {| trace := trace; packed_trx := transaction |} in
      if is_onblock trace then
        modify (fun c => {| cached_traces := cached_traces c;
                            onblock_trace := Some augmented |})
      else
        match chain.failed_dtrx_trace trace with
        | Some failed =>
            modify (fun c => {| cached_traces := <[chain.trace_id failed := augmented]> (cached_traces c);
                                onblock_trace := onblock_trace c |})
        | None =>
            modify (fun c => {| cached_traces := <[chain.trace_id trace := augmented]> (cached_traces c);
                                onblock_trace := onblock_trace c |})
        end
  | None => ret tt
  end.

End Accumulator.

Definition missing_trace : exception :=
  state_history_exception "missing trace for transaction ${id}".

(** The loop of [prepare_traces] over [block->transactions]; [traces] is the
    vector built so far. *)
Fixpoint collect_traces (transactions : list chain.transaction_receipt_trx)
    (traces : list augmented_transaction_trace)
    : M trace_converter (list augmented_transaction_trace) :=
  match transactions with
  | [] => ret traces
  | r :: rest =>
      let id := match r with
                | chain.trx_id i => i
                | chain.trx_packed pt => chain.id pt
                end in
      it <- gets (fun c => cached_traces c !! id) ;;
      match it with
      | Some found =>
          EOS_ASSERT (bool_decide (is_Some (chain.receipt (trace found)))) missing_trace ;;;
          collect_traces rest (traces ++ [found])
      | None => throw missing_trace
      end
  end.

Definition prepare_traces (transactions : list chain.transaction_receipt_trx)
    : M trace_converter (list augmented_transaction_trace) :=
  onblock <- gets onblock_trace ;;
  let traces := match onblock with Some t => [t] | None => [] end in
  traces <- collect_traces transactions traces ;;
  modify (fun c => {| cached_traces := ∅; onblock_trace := onblock_trace c |}) ;;;
  modify (fun c => {| cached_traces := cached_traces c; onblock_trace := None |}) ;;;
  ret traces.

(* ===================================================================== *)
(** * The traces as the log stores them *)
(* ===================================================================== *)

(** Modelled from the spec: [state_history::transaction_trace] and
    [partial_transaction_v0] are declared in the headers of the state history
    library, outside these sources. Section 3: a trace has an id, an optional
    receipt, an optional nested failed-sub-transaction trace and an optional
    partial record, the slots of the prunable data. The code
    reads [id], [failed_dtrx_trace] (a vector that holds at most one element,
    as the comment in [visit_deserialized_trace] says) and [partial], and
    writes [signatures] and [context_free_data] of the partial record. *)
Record partial_transaction_v0 := {
  transaction_data : bytes;
  signatures : list signature_type;
  context_free_data : list bytes
}.

Inductive transaction_trace := Build_transaction_trace {
  trace_id : transaction_id_type;
  receipt : option transaction_receipt;
  failed_dtrx_trace : option transaction_trace;
  partial : option partial_transaction_v0
}.

(** The position of each case in the variant ([which()]); the declaration
    that fixes it is not part of these sources. *)
Inductive alternative := alt_full_legacy | alt_none | alt_partial | alt_full.

Class VariantIndex := which_index : alternative -> byte.

Class VariantIndexOk `{VariantIndex} := {
  which_index_inj : forall a b, which_index a = which_index b -> a = b
}.

Definition which (obj : chain.prunable_data_type) : alternative :=
  match obj with
  | chain.full_legacy _ _ => alt_full_legacy
  | chain.none _ => alt_none
  | chain.partial _ _ => alt_partial
  | chain.full _ _ => alt_full
  end.

#[export] Instance byte_eq_decision : EqDecision byte :=
  fun a b =>
    match Byte.eqb a b as c return Byte.eqb a b = c -> {a = b} + {a <> b} with
    | true => fun E => left (Byte.byte_dec_bl a b E)
    | false => fun E => right (Byte.eqb_false E)
    end eq_refl.

(** [set_which(tag)]: the case at position [tag], or an assertion failure. *)
Definition set_which `{VariantIndex} {St} (tag : byte) : M St alternative :=
  match find (fun a => bool_decide (which_index a = tag))
             [alt_full_legacy; alt_none; alt_partial; alt_full] with
  | Some a => ret a
  | None => throw assert_exception
  end.

(* ===================================================================== *)
(** * trace_converter.cpp: prunable sections *)
(* ===================================================================== *)

Definition prune `{chain.PruneAll} (obj : chain.prunable_data_type)
    : chain.prunable_data_type :=
  match obj with
  | chain.none elem => chain.none elem
  | chain.full_legacy sigs segs
  | chain.partial sigs segs
  | chain.full sigs segs =>
      if empty sigs && empty segs then obj else chain.prune_all obj
  end.

(** The prunable data as version 0 stores it inline in a partial record. *)
Definition prunable_signatures (obj : chain.prunable_data_type) : list signature_type :=
  match obj with
  | chain.none _ => []
  | chain.full_legacy sigs _ | chain.partial sigs _ | chain.full sigs _ => sigs
  end.

Definition prunable_segments (obj : chain.prunable_data_type) : list bytes :=
  match obj with
  | chain.none _ => []
  | chain.full_legacy _ segs | chain.partial _ segs | chain.full _ segs => segs
  end.

(** Modelled from the spec: the serializer of a trace with its packed
    transaction (serialization.hpp) is not part of these sources. What it
    stores of an [augmented_transaction_trace], as a [transaction_trace]:
    section 3 and 4.5 of the specification: at version 0 every field with the
    prunable data inline; from version 1 on the same with the prunable-data
    fields left out (empty). The partial record is there for the traces that
    [for_each_packed_transaction] emits a section for: those that carry a
    packed transaction and have no failed sub-transaction; the nested trace
    comes with the same packed transaction. *)
Fixpoint to_transaction_trace (version : N) (packed_trx : option chain.packed_transaction)
    (trace : chain.transaction_trace) : transaction_trace :=
  match trace with
  | chain.Build_transaction_trace i rc ats failed =>
      {| trace_id := i;
         receipt := rc;
         failed_dtrx_trace :=
           match failed with
           | Some inner => Some (to_transaction_trace version packed_trx inner)
           | None => None
           end;
         partial :=
           match packed_trx, failed with
           | Some pt, None =>
               Some {| transaction_data := chain.transaction_data pt;
                       signatures :=
                         if (version =? 0)%N
                         then prunable_signatures (chain.get_prunable_data pt) else [];
                       context_free_data :=
                         if (version =? 0)%N
                         then prunable_segments (chain.get_prunable_data pt) else [] |}
           | _, _ => None
           end |}
  end.

(** [make_history_context_wrapper(db, trace_receipt_context{..., version}, traces)];
    the database and the debug flag only reach fields kept as they are. *)
Record history_context_wrapper := {
  context_version : N;
  wrapped_traces : list augmented_transaction_trace
}.

Definition store_view (w : history_context_wrapper) : list transaction_trace :=
  map (fun a => to_transaction_trace (context_version w) (packed_trx a) (trace a))
      (wrapped_traces w).

(** The wrapper is no vector: the general [is_empty] applies. *)
#[export] Instance is_empty_wrapper : IsEmpty history_context_wrapper := fun _ => false.

Fixpoint for_each {St A} (f : A -> M St unit) (l : list A) : M St unit :=
  match l with
  | [] => ret tt
  | x :: l' => f x ;;; for_each f l'
  end.

Fixpoint for_each_mut {St A} (f : A -> M St A) (l : list A) : M St (list A) :=
  match l with
  | [] => ret []
  | x :: l' => x' <- f x ;; l'' <- for_each_mut f l' ;; ret (x' :: l'')
  end.

Definition on_fst {A B X} (m : M A X) : M (A * B) X :=
  fun s => match m (fst s) with (a', r) => ((a', snd s), r) end.

Definition on_snd {A B X} (m : M B X) : M (A * B) X :=
  fun s => match m (snd s) with (b', r) => ((fst s, b'), r) end.

Definition not_implemented : exception := state_history_exception "Not implemented".

Definition version_0_unsupported : exception :=
  state_history_exception "state history log version 0 does not support trace pruning".

(** The [trace_pruner]: [buffer] is the entry payload, which [read_strm] and
    [write_strm] both run over; the two streams are kept as their positions. *)
Record trace_pruner := {
  buffer : bytes;
  last_read_pos : nat;
  ids : list transaction_id_type;
  read_strm : nat;
  write_strm : nat;
  change_position : nat
}.

Definition on_read_strm {A} (m : M datastream A) : M trace_pruner A :=
  fun p =>
    match m {| ds_buf := buffer p; ds_pos := read_strm p |} with
    | (ds, r) =>
        ({| buffer := buffer p; last_read_pos := last_read_pos p; ids := ids p;
            read_strm := ds_pos ds; write_strm := write_strm p;
            change_position := change_position p |}, r)
    end.

Definition on_write_strm {A} (m : M datastream A) : M trace_pruner A :=
  fun p =>
    match m {| ds_buf := buffer p; ds_pos := write_strm p |} with
    | (ds, r) =>
        ({| buffer := ds_buf ds; last_read_pos := last_read_pos p; ids := ids p;
            read_strm := read_strm p; write_strm := ds_pos ds;
            change_position := change_position p |}, r)
    end.

(** [std::find] and [ids.erase(itr)]: the first occurrence goes. *)
Definition contains (id_list : list transaction_id_type) (i : transaction_id_type) : bool :=
  existsb (N.eqb i) id_list.

Fixpoint erase_first (i : transaction_id_type) (id_list : list transaction_id_type)
    : list transaction_id_type :=
  match id_list with
  | [] => []
  | j :: rest => if (i =? j)%N then rest else j :: erase_first i rest
  end.

Definition changed_region (p : trace_pruner) : nat * nat :=
  if change_position p =? 0 then (0, 0) else (change_position p, write_strm p).

Section Converter.

Context `{Zlib} `{VariantIndex} `{chain.PruneAll}.
Context `{RawPack chain.none_type} `{RawUnpack chain.none_type}.
Context `{RawPack (list signature_type)} `{RawUnpack (list signature_type)}.
Context `{RawPack (list bytes)} `{RawUnpack (list bytes)}.
Context `{RawPack (list transaction_trace)} `{RawUnpack (list transaction_trace)}.

#[export] Instance raw_pack_wrapper : RawPack history_context_wrapper :=
  fun w => raw_pack (store_view w).

(** [pack(strm, prunable_data_type)] *)
Definition pack {S} `{OStream S} (obj : chain.prunable_data_type) : M S unit :=
  write [which_index (which obj)] ;;;
  match obj with
  | chain.none data => write (raw_pack data)
  | chain.full_legacy sigs segs
  | chain.partial sigs segs
  | chain.full sigs segs =>
      write (raw_pack sigs) ;;;
      zlib_pack segs
  end.

Definition unpack_uint8 : M datastream byte :=
  bs <- ds_read 1 ;;
  match bs with
  | [b] => ret b
  | _ => throw out_of_range_exception
  end.

(** [unpack(read_buffer, ds, t)] for a case with [context_free_segments];
    both members start out empty. *)
Definition unpack_members : M datastream (list signature_type * list bytes) :=
  sigs <- ds_unpack ;;
  segs <- zlib_unpack_buffer [] ;;
  ret (sigs, segs).

(** [unpack(read_buffer, ds, prunable)]; the None case goes to the overload
    for a type without [context_free_segments]. *)
Definition unpack : M datastream chain.prunable_data_type :=
  tag <- unpack_uint8 ;;
  alt <- set_which tag ;;
  match alt with
  | alt_none => data <- ds_unpack ;; ret (chain.none data)
  | alt_full_legacy => m <- unpack_members ;; ret (chain.full_legacy (fst m) (snd m))
  | alt_partial => m <- unpack_members ;; ret (chain.partial (fst m) (snd m))
  | alt_full => m <- unpack_members ;; ret (chain.full (fst m) (snd m))
  end.

(** [for_each_packed_transaction] on one augmented trace and on the vector. *)
Fixpoint for_each_packed_transaction_in {St} (trace : chain.transaction_trace)
    (packed_trx : option chain.packed_transaction)
    (lambda : chain.packed_transaction -> M St unit) : M St unit :=
  match trace with
  | chain.Build_transaction_trace _ _ _ failed =>
      match failed with
      | Some inner => for_each_packed_transaction_in inner packed_trx lambda
      | None => ret tt
      end ;;;
      match packed_trx, failed with
      | Some pt, None => lambda pt
      | _, _ => ret tt
      end
  end.

Definition for_each_packed_transaction {St} (traces : list augmented_transaction_trace)
    (lambda : chain.packed_transaction -> M St unit) : M St unit :=
  for_each (fun v => for_each_packed_transaction_in (trace v) (packed_trx v) lambda) traces.

(** [visit_deserialized_trace]: [on_ds] gives access to the read stream
    inside the state of the visitor; the trace comes back as the visitor
    leaves it. *)
Fixpoint visit_deserialized_trace {St} (on_ds : forall A, M datastream A -> M St A)
    (visitor : transaction_trace -> chain.prunable_data_type -> M St transaction_trace)
    (trace : transaction_trace) : M St transaction_trace :=
  match trace with
  | Build_transaction_trace i rc failed part =>
      failed' <- match failed with
                 | Some inner =>
                     inner' <- visit_deserialized_trace on_ds visitor inner ;;
                     ret (Some inner')
                 | None => ret None
                 end ;;
      let trace_v0 := Build_transaction_trace i rc failed' part in
      match part with
      | Some _ =>
          prunable <- on_ds _ unpack ;;
          visitor trace_v0 prunable
      | None => ret trace_v0
      end
  end.

(** [restore_partial], applied to the partial record of the trace. *)
Definition restore_partial (ptrx : partial_transaction_v0) (data : chain.prunable_data_type)
    : result partial_transaction_v0 :=
  match data with
  | chain.full_legacy sigs segs =>
      Ok {| transaction_data := transaction_data ptrx;
            signatures := sigs; context_free_data := segs |}
  | chain.none _ => Ok ptrx
  | chain.partial _ _ => Err not_implemented
  | chain.full sigs segs =>
      Ok {| transaction_data := transaction_data ptrx;
            signatures := sigs; context_free_data := segs |}
  end.

(** The visitor of [to_traces_bin_v0]. *)
Definition restore_visitor (trace : transaction_trace) (prunable_data : chain.prunable_data_type)
    : M datastream transaction_trace :=
  match partial trace with
  | Some ptrx =>
      ptrx' <- lift_result (restore_partial ptrx prunable_data) ;;
      ret {| trace_id := trace_id trace; receipt := receipt trace;
             failed_dtrx_trace := failed_dtrx_trace trace;
             partial := Some ptrx' |}
  | None => ret trace
  end.

(** ** trace_pruner *)
Definition trace_pruner_new (entry_payload : bytes) (rds : datastream)
    (id_list : list transaction_id_type) : trace_pruner :=
  {| buffer := entry_payload;
     last_read_pos := ds_pos rds;
     ids := id_list;
     read_strm := ds_pos rds;
     write_strm := 0 + ds_pos rds;
     change_position := 0 |}.

(** [trace_pruner::operator()] *)
Definition trace_pruner_call (trace : transaction_trace)
    (incoming_prunable : chain.prunable_data_type) : M trace_pruner transaction_trace :=
  p <- get ;;
  (if contains (ids p) (trace_id trace) then
     (if change_position p =? 0 then
        modify (fun p => {| buffer := buffer p; last_read_pos := last_read_pos p;
                            ids := ids p; read_strm := read_strm p;
                            write_strm := write_strm p;
                            change_position := write_strm p |})
      else ret tt) ;;;
     on_write_strm (pack (prune incoming_prunable)) ;;;
     modify (fun p => {| buffer := buffer p; last_read_pos := last_read_pos p;
                         ids := erase_first (trace_id trace) (ids p);
                         read_strm := read_strm p; write_strm := write_strm p;
                         change_position := change_position p |})
   else if change_position p =? 0 then
     on_write_strm (ds_skip (read_strm p - last_read_pos p))
   else
     on_write_strm (ds_write (take (read_strm p - last_read_pos p)
                                   (drop (last_read_pos p) (buffer p))))) ;;;
  modify (fun p => {| buffer := buffer p; last_read_pos := read_strm p;
                      ids := ids p; read_strm := read_strm p;
                      write_strm := write_strm p;
                      change_position := change_position p |}) ;;;
  ret trace.

(** ** trace_converter::pack *)
Definition pack_unprunable (version : N) (traces : list augmented_transaction_trace)
    : M cfile unit :=
  zlib_pack {| context_version := version; wrapped_traces := traces |}.

(** What [trace_converter::pack] writes once [prepare_traces] has returned. *)
Definition pack_entry (version : N) (traces : list augmented_transaction_trace)
    : M cfile unit :=
  if (version =? 0)%N then
    pack_unprunable version traces
  else
    start_pos <- length_writer_open ;;
    scoped (pack_unprunable version traces ;;;
            for_each_packed_transaction traces
              (fun pt => pack (chain.get_prunable_data pt)))
           (length_writer_close start_pos).

Definition trace_converter_pack (transactions : list chain.transaction_receipt_trx)
    (version : N) : M (trace_converter * cfile) unit :=
  traces <- on_fst (prepare_traces transactions) ;;
  on_snd (pack_entry version traces).

(** The bytes of one log entry: [pack] run on a fresh file. Both formats
    start with a [uint32_t] length; the log hands what follows it, the entry
    payload, to [to_traces_bin_v0] and to [prune_traces]. *)
Definition encode (version : N) (traces : list augmented_transaction_trace) : bytes :=
  file_data (fst (pack_entry version traces {| file_data := []; file_pos := 0 |})).

Definition entry_payload (version : N) (traces : list augmented_transaction_trace) : bytes :=
  drop 4 (encode version traces).

(** ** trace_converter::to_traces_bin_v0 *)
Definition to_traces_bin_v0 (entry_payload : bytes) (version : N) : result bytes :=
  if (version =? 0)%N then zlib_decompress entry_payload
  else
    snd ((traces <- zlib_unpack_buffer [] ;;
          traces' <- for_each_mut
                       (visit_deserialized_trace (fun _ m => m) restore_visitor) traces ;;
          ret (raw_pack traces'))
         {| ds_buf := entry_payload; ds_pos := 0 |}).

(** ** trace_converter::prune_traces: the entry payload and the id list as
    the call leaves them, and the changed region or the exception. *)
Definition prune_traces (entry_payload : bytes) (version : N)
    (id_list : list transaction_id_type)
    : bytes * list transaction_id_type * result (nat * nat) :=
  if negb (0 <? version)%N then (entry_payload, id_list, Err version_0_unsupported)
  else
    match zlib_unpack_buffer [] {| ds_buf := entry_payload; ds_pos := 0 |} with
    | (rds, Ok traces) =>
        match for_each_mut (visit_deserialized_trace (@on_read_strm) trace_pruner_call)
                traces (trace_pruner_new entry_payload rds id_list) with
        | (prune_trace, Ok _) =>
            (buffer prune_trace, ids prune_trace, Ok (changed_region prune_trace))
        | (prune_trace, Err e) => (buffer prune_trace, ids prune_trace, Err e)
        end
    | (_, Err e) => (entry_payload, id_list, Err e)
    end.

(** ** The states of a pruning run. The visitor is wrapped so that the state
    it leaves is appended to a log; the run itself is the one of
    [prune_traces]. *)
Definition logged {A} (m : M trace_pruner A) : M (trace_pruner * list trace_pruner) A :=
  fun s => match m (fst s) with (p, r) => ((p, snd s ++ [p]), r) end.

Definition visit_logged
    : transaction_trace -> M (trace_pruner * list trace_pruner) transaction_trace :=
  visit_deserialized_trace (fun A m => on_fst (on_read_strm m))
    (fun trace prunable => logged (trace_pruner_call trace prunable)).

Definition prune_traces_steps (entry_payload : bytes) (id_list : list transaction_id_type)
    : list trace_pruner :=
  match zlib_unpack_buffer [] {| ds_buf := entry_payload; ds_pos := 0 |} with
  | (rds, Ok traces) =>
      let prune_trace := trace_pruner_new entry_payload rds id_list in
      prune_trace ::
      snd (fst (for_each_mut visit_logged traces (prune_trace, [])))
  | (_, Err _) => []
  end.

End Converter.


(* ===================================================================== *)
(** * The byte layout of an entry *)
(* ===================================================================== *)

Section Layout.

Context `{Zlib} `{VariantIndex}.
Context `{RawPack (list signature_type)} `{RawPack (list bytes)}.
Context `{RawPack (list transaction_trace)}.
Context `{chain.PruneAll} `{RawPack chain.none_type}.

(** The serialized encoding of a prunable data: what [pack] writes into a
    fresh file. *)
Definition packed_bytes (obj : chain.prunable_data_type) : bytes :=
  file_data (fst (pack obj {| file_data := []; file_pos := 0 |})).

(** A compressed section: the length of the compressed bytes as a
    [uint32_t], then the bytes. *)
Definition zlib_section (b : bytes) : bytes :=
  le32 (uint32 (N.of_nat (length (zlib_compress_bytes b)))) ++ zlib_compress_bytes b.

Definition zlib_bytes {T} `{RawPack T} `{IsEmpty T} (obj : T) : bytes :=
  if is_empty obj then le32 0 else zlib_section (raw_pack obj).

Definition section_bytes (obj : chain.prunable_data_type) : bytes :=
  which_index (which obj) ::
  match obj with
  | chain.none data => raw_pack data
  | chain.full_legacy sigs segs
  | chain.partial sigs segs
  | chain.full sigs segs => raw_pack sigs ++ zlib_bytes segs
  end.

Definition trace_section (a : augmented_transaction_trace) : bytes :=
  match packed_trx a with
  | Some pt => section_bytes (chain.get_prunable_data pt)
  | None => []
  end.

Definition sections (traces : list augmented_transaction_trace) : bytes :=
  concat (map trace_section traces).

(** The compressed length of [b] is what its [uint32_t] length field says. *)
Definition fits_u32 (b : bytes) : Prop :=
  (N.of_nat (length (zlib_compress_bytes b)) < 4294967296)%N.

Definition lengths_fit (version : N) (traces : list augmented_transaction_trace) : Prop :=
  fits_u32 (raw_pack (store_view {| context_version := version; wrapped_traces := traces |})) /\
  Forall (fun a => match packed_trx a with
                   | Some pt => fits_u32 (raw_pack (prunable_segments (chain.get_prunable_data pt)))
                   | None => True
                   end) traces.

End Layout.

(** Every id of a trace, the nested ones included. *)
Fixpoint trace_ids (t : chain.transaction_trace) : list transaction_id_type :=
  match t with
  | chain.Build_transaction_trace i _ _ failed =>
      i :: match failed with
           | Some inner => trace_ids inner
           | None => []
           end
  end.

Definition is_partial (obj : chain.prunable_data_type) : bool :=
  match obj with
  | chain.partial _ _ => true
  | _ => false
  end.

(** Whether the packed transaction of a trace carries the Partial case. *)
Definition carries_partial (a : augmented_transaction_trace) : bool :=
  match packed_trx a with
  | Some pt => is_partial (chain.get_prunable_data pt)
  | None => false
  end.

(** The id the visitors see for an augmented trace: the one of the innermost
    trace, the only one with a partial record. *)
Fixpoint leaf_id (t : chain.transaction_trace) : transaction_id_type :=
  match t with
  | chain.Build_transaction_trace i _ _ failed =>
      match failed with
      | Some inner => leaf_id inner
      | None => i
      end
  end.

Definition has_packed (a : augmented_transaction_trace) : bool :=
  match packed_trx a with Some _ => true | None => false end.

(** What holds of the pruner between two sections of the entry [entry]. *)
Record pruner_inv (entry : bytes) (p : trace_pruner) : Prop := {
  inv_length : length (buffer p) = length entry;
  inv_sync : last_read_pos p = read_strm p;
  inv_bound : read_strm p <= length entry;
  inv_behind : write_strm p <= read_strm p;
  inv_positive : 0 < write_strm p;
  inv_unread : drop (read_strm p) (buffer p) = drop (read_strm p) entry;
  inv_unchanged : change_position p = 0 -> write_strm p = read_strm p /\ buffer p = entry;
  inv_region : change_position p <> 0 -> change_position p < write_strm p
}.

(** What one call of the pruner on a section of [n] bytes, for the trace with
    id [i], does to the state. *)
Definition pruner_step_ok (entry : bytes) (i : transaction_id_type) (n : nat)
    (p p' : trace_pruner) : Prop :=
  pruner_inv entry p' /\
  read_strm p' = read_strm p + n /\
  (contains (ids p) i = false ->
     ids p' = ids p /\ change_position p' = change_position p /\
     (change_position p = 0 -> buffer p' = buffer p)) /\
  (contains (ids p) i = true ->
     change_position p' <> 0 /\ ids p' = erase_first i (ids p)) /\
  (change_position p <> 0 -> change_position p' = change_position p).

Definition section_fits `{Zlib} `{RawPack (list bytes)} (a : augmented_transaction_trace) : Prop :=
  match packed_trx a with
  | Some pt => fits_u32 (raw_pack (prunable_segments (chain.get_prunable_data pt)))
  | None => True
  end.

(** [prune] does not make the serialized prunable data of the trace longer:
    what the comment on [trace_pruner::operator()] says the pruner relies
    on. *)
Definition prune_fits `{Zlib} `{VariantIndex} `{chain.PruneAll} `{RawPack chain.none_type}
    `{RawPack (list signature_type)} `{RawPack (list bytes)}
    (a : augmented_transaction_trace) : Prop :=
  match packed_trx a with
  | Some pt =>
      length (packed_bytes (prune (chain.get_prunable_data pt)))
      <= length (packed_bytes (chain.get_prunable_data pt))
  | None => True
  end.

(** The same of every trace that the id list names. *)
Definition listed_fit `{Zlib} `{VariantIndex} `{chain.PruneAll} `{RawPack chain.none_type}
    `{RawPack (list signature_type)} `{RawPack (list bytes)}
    (id_list : list transaction_id_type) (traces : list augmented_transaction_trace) : Prop :=
  Forall (fun a => contains id_list (leaf_id (trace a)) = true -> prune_fits a) traces.

(** The trace has no packed transaction, or one whose prunable data has
    neither a signature nor a context-free segment: [prune] keeps it. *)
Definition nothing_to_strip (a : augmented_transaction_trace) : Prop :=
  match packed_trx a with
  | Some pt =>
      prunable_signatures (chain.get_prunable_data pt) = [] /\
      prunable_segments (chain.get_prunable_data pt) = []
  | None => True
  end.

(** A file positioned at its end, and the file after [data] is written there. *)
Definition at_end (f : cfile) : Prop := file_pos f = length (file_data f).

Definition append (data : bytes) (f : cfile) : cfile :=
  {| file_data := file_data f ++ data; file_pos := file_pos f + length data |}.

(** A computation on a state with a log goes through the states of the
    computation without the log and has its outcome. *)
Definition simulates {St L A} (mL : M (St * L) A) (mP : M St A) : Prop :=
  forall s l, fst (fst (mL (s, l))) = fst (mP s) /\ snd (mL (s, l)) = snd (mP s).

(* ===================================================================== *)
(** * A small instance of the serializer and of the codec

    A self-delimiting serializer (counts in unary, then the elements) and a
    codec that puts one header byte before the data: enough to run the
    converter on concrete traces and to show that the laws assumed of the
    external parts can be met together. *)
(* ===================================================================== *)

Module Sample.

(** A decoder reads back what its encoder wrote, whatever follows. *)
Definition codec_ok {A} (enc : A -> bytes) (dec : bytes -> result (A * nat)) : Prop :=
  forall x rest, dec (enc x ++ rest) = Ok (x, length (enc x)).

Definition enc_nat (n : nat) : bytes := replicate n x01 ++ [x00].

Fixpoint dec_nat (bs : bytes) : result (nat * nat) :=
  match bs with
  | [] => Err raw_exception
  | b :: rest =>
      if decide (b = x00) then Ok (0, 1)
      else if decide (b = x01) then
        match dec_nat rest with
        | Ok (n, k) => Ok (S n, S k)
        | Err e => Err e
        end
      else Err raw_exception
  end.

Definition enc_N (n : N) : bytes := enc_nat (N.to_nat n).

Definition dec_N (bs : bytes) : result (N * nat) :=
  match dec_nat bs with
  | Ok (n, k) => Ok (N.of_nat n, k)
  | Err e => Err e
  end.

Definition enc_bytes (b : bytes) : bytes := enc_nat (length b) ++ b.

Definition dec_bytes (bs : bytes) : result (bytes * nat) :=
  match dec_nat bs with
  | Ok (n, k) =>
      if decide (k + n <= length bs) then Ok (take n (drop k bs), k + n)
      else Err out_of_range_exception
  | Err e => Err e
  end.

Definition enc_pair {A B} (ea : A -> bytes) (eb : B -> bytes) (x : A * B) : bytes :=
  ea (fst x) ++ eb (snd x).

Definition dec_pair {A B} (da : bytes -> result (A * nat)) (db : bytes -> result (B * nat))
    (bs : bytes) : result (A * B * nat) :=
  match da bs with
  | Ok (a, k) =>
      match db (drop k bs) with
      | Ok (b, k') => Ok (a, b, k + k')
      | Err e => Err e
      end
  | Err e => Err e
  end.

Definition enc_option {A} (ea : A -> bytes) (o : option A) : bytes :=
  match o with
  | None => [x00]
  | Some a => x01 :: ea a
  end.

Definition dec_option {A} (da : bytes -> result (A * nat)) (bs : bytes)
    : result (option A * nat) :=
  match bs with
  | [] => Err raw_exception
  | b :: rest =>
      if decide (b = x00) then Ok (None, 1)
      else
        match da rest with
        | Ok (a, k) => Ok (Some a, S k)
        | Err e => Err e
        end
  end.

Fixpoint dec_seq {A} (da : bytes -> result (A * nat)) (n : nat) (bs : bytes)
    : result (list A * nat) :=
  match n with
  | 0 => Ok ([], 0)
  | S n' =>
      match da bs with
      | Ok (a, k) =>
          match dec_seq da n' (drop k bs) with
          | Ok (l, k') => Ok (a :: l, k + k')
          | Err e => Err e
          end
      | Err e => Err e
      end
  end.

Definition enc_list {A} (ea : A -> bytes) (l : list A) : bytes :=
  enc_nat (length l) ++ concat (map ea l).

Definition dec_list {A} (da : bytes -> result (A * nat)) (bs : bytes)
    : result (list A * nat) :=
  match dec_nat bs with
  | Ok (n, k) =>
      match dec_seq da n (drop k bs) with
      | Ok (l, k') => Ok (l, k + k')
      | Err e => Err e
      end
  | Err e => Err e
  end.

Definition dec_map {A B} (f : A -> option B) (da : bytes -> result (A * nat)) (bs : bytes)
    : result (B * nat) :=
  match da bs with
  | Ok (a, k) =>
      match f a with
      | Some b => Ok (b, k)
      | None => Err raw_exception
      end
  | Err e => Err e
  end.

Definition enc_signature (s : signature_type) : bytes := enc_bytes (signature_data s).
Definition dec_signature : bytes -> result (signature_type * nat) :=
  dec_map (fun b => Some {| signature_data := b |}) dec_bytes.

Definition enc_none (n : chain.none_type) : bytes := enc_bytes (chain.none_members n).
Definition dec_none : bytes -> result (chain.none_type * nat) :=
  dec_map (fun b => Some {| chain.none_members := b |}) dec_bytes.

Definition enc_receipt (r : transaction_receipt) : bytes := enc_bytes (receipt_data r).
Definition dec_receipt : bytes -> result (transaction_receipt * nat) :=
  dec_map (fun b => Some {| receipt_data := b |}) dec_bytes.

Definition enc_partial (p : partial_transaction_v0) : bytes :=
  enc_pair enc_bytes (enc_pair (enc_list enc_signature) (enc_list enc_bytes))
    (transaction_data p, (signatures p, context_free_data p)).

Definition dec_partial : bytes -> result (partial_transaction_v0 * nat) :=
  dec_map (fun x => Some {| transaction_data := fst x;
                            signatures := fst (snd x);
                            context_free_data := snd (snd x) |})
    (dec_pair dec_bytes (dec_pair (dec_list dec_signature) (dec_list dec_bytes))).

(** A trace is stored as the list of its levels, the outermost first. *)
Definition level : Type :=
  transaction_id_type * (option transaction_receipt * option partial_transaction_v0).

Fixpoint levels (t : transaction_trace) : list level :=
  match t with
  | Build_transaction_trace i rc failed part =>
      (i, (rc, part)) :: match failed with
                         | Some inner => levels inner
                         | None => []
                         end
  end.

Fixpoint unlevels (ls : list level) : option transaction_trace :=
  match ls with
  | [] => None
  | (i, (rc, part)) :: rest =>
      match rest with
      | [] => Some (Build_transaction_trace i rc None part)
      | _ :: _ =>
          match unlevels rest with
          | Some inner => Some (Build_transaction_trace i rc (Some inner) part)
          | None => None
          end
      end
  end.

Definition enc_level : level -> bytes :=
  enc_pair enc_N (enc_pair (enc_option enc_receipt) (enc_option enc_partial)).
Definition dec_level : bytes -> result (level * nat) :=
  dec_pair dec_N (dec_pair (dec_option dec_receipt) (dec_option dec_partial)).

Definition enc_trace (t : transaction_trace) : bytes := enc_list enc_level (levels t).
Definition dec_trace : bytes -> result (transaction_trace * nat) :=
  dec_map unlevels (dec_list dec_level).

#[export] Instance sample_zlib : Zlib := {
  zlib_compress_bytes b := x78 :: b;
  zlib_decompress b :=
    match b with
    | h :: data => if decide (h = x78) then Ok data else Err zlib_error
    | [] => Err zlib_error
    end
}.

#[export] Instance sample_index : VariantIndex :=
  fun a =>
    match a with
    | alt_full_legacy => x00
    | alt_none => x01
    | alt_partial => x02
    | alt_full => x03
    end.

#[export] Instance pack_none : RawPack chain.none_type := enc_none.
#[export] Instance unpack_none : RawUnpack chain.none_type := dec_none.
#[export] Instance pack_signatures : RawPack (list signature_type) := enc_list enc_signature.
#[export] Instance unpack_signatures : RawUnpack (list signature_type) := dec_list dec_signature.
#[export] Instance pack_segments : RawPack (list bytes) := enc_list enc_bytes.
#[export] Instance unpack_segments : RawUnpack (list bytes) := dec_list dec_bytes.
#[export] Instance pack_trace_vector : RawPack (list transaction_trace) := enc_list enc_trace.
#[export] Instance unpack_trace_vector : RawUnpack (list transaction_trace) := dec_list dec_trace.

(** A byte source that hands out its bytes in order and fails when asked
    for more than it has left. *)
#[export] Instance list_istream : IStream bytes := {
  read n := fun s =>
    if decide (n <= length s) then (drop n s, Ok (take n s))
    else (s, Err out_of_range_exception)
}.

(** ** Concrete traces: a signature of 65 bytes and a None record of 32. *)
Definition sig1 : signature_type := {| signature_data := replicate 65 x0a |}.

Definition sample_none : chain.none_type := {| chain.none_members := replicate 32 xd1 |}.

#[export] Instance sample_prune_all : chain.PruneAll := fun _ => sample_none.

Definition plain_trace (i : N) : chain.transaction_trace :=
  chain.Build_transaction_trace i (Some {| receipt_data := [] |}) [] None.

Definition packed (i : N) (d : chain.prunable_data_type) : chain.packed_transaction :=
  {| chain.id := i; chain.transaction_data := [x2a]; chain.get_prunable_data := d |}.

Definition augmented (i : N) (d : chain.prunable_data_type) : augmented_transaction_trace :=
  {| trace := plain_trace i; packed_trx := Some (packed i d) |}.

(** The block of the scenario of section 8: an on-block trace without a
    packed transaction, a transaction with empty prunable data, and one with
    a signature and a context-free segment. *)
Definition block_traces : list augmented_transaction_trace :=
  [ {| trace := plain_trace 1; packed_trx := None |};
    augmented 2 (chain.full_legacy [] []);
    augmented 3 (chain.full [sig1] [[x01; x02; x03]]) ].

Definition partial_traces : list augmented_transaction_trace :=
  [ augmented 7 (chain.partial [] []) ].

(** A transaction with a context-free segment and no signature, followed by a
    signed one. *)
Definition unsigned_traces : list augmented_transaction_trace :=
  [ augmented 2 (chain.full_legacy [] [[x01]]); augmented 3 (chain.full [sig1] []) ].

Definition partial_signed_traces : list augmented_transaction_trace :=
  [ augmented 4 (chain.full [] []); augmented 8 (chain.partial [sig1] []) ].

(** An accumulator with a cached trace and an on-block trace. *)
Definition stale_converter : trace_converter :=
  {| cached_traces := {[ 2%N := augmented 2 (chain.none sample_none) ]};
     onblock_trace := Some {| trace := plain_trace 1; packed_trx := None |} |}.

End Sample.

(* ===================================================================== *)
(** * Notions used to state further properties of the code *)
(* ===================================================================== *)

(** The id under which [prepare_traces] looks a block transaction up. *)
Definition receipt_id (r : chain.transaction_receipt_trx) : transaction_id_type :=
  match r with
  | chain.trx_id i => i
  | chain.trx_packed pt => chain.id pt
  end.

(** The cached trace a block transaction resolves to: it must be there and
    have a receipt. *)
Definition resolve (c : trace_converter) (r : chain.transaction_receipt_trx)
    : option augmented_transaction_trace :=
  match cached_traces c !! receipt_id r with
  | Some found => if bool_decide (is_Some (chain.receipt (trace found))) then Some found else None
  | None => None
  end.

(** All the block transactions resolved, in the order of the block. *)
Fixpoint resolve_all (c : trace_converter) (transactions : list chain.transaction_receipt_trx)
    : option (list augmented_transaction_trace) :=
  match transactions with
  | [] => Some []
  | r :: rest =>
      match resolve c r with
      | Some found =>
          match resolve_all c rest with
          | Some others => Some (found :: others)
          | None => None
          end
      | None => None
      end
  end.

(** The key [add_transaction] caches a trace under. *)
Definition cache_key (t : chain.transaction_trace) : transaction_id_type :=
  match chain.failed_dtrx_trace t with
  | Some failed => chain.trace_id failed
  | None => chain.trace_id t
  end.

(** Every cached trace and the on-block trace have a receipt. *)
Definition all_receipted (c : trace_converter) : Prop :=
  (forall k a, cached_traces c !! k = Some a -> is_Some (chain.receipt (trace a))) /\
  (forall a, onblock_trace c = Some a -> is_Some (chain.receipt (trace a))).

(** Successive reads from a bounded source; the first failure ends them. *)
Fixpoint restricted_reads {S} `{IStream S} (ns : list nat)
    : M (restriced_data_source S) (list bytes) :=
  match ns with
  | [] => ret []
  | n :: ns' =>
      b <- restricted_read n ;;
      bs <- restricted_reads ns' ;;
      ret (b :: bs)
  end.

(** The packed transaction after its prunable data is pruned. *)
Definition pruned_packed `{chain.PruneAll} (pt : chain.packed_transaction)
    : chain.packed_transaction :=
  {| chain.id := chain.id pt;
     chain.transaction_data := chain.transaction_data pt;
     chain.get_prunable_data := prune (chain.get_prunable_data pt) |}.

(** The traces a pruning run prunes, and the id list it leaves: going through
    the traces in order, a trace with a packed transaction whose id is in the
    list is pruned and the first occurrence of the id leaves the list. *)
Fixpoint prune_plan `{chain.PruneAll} (id_list : list transaction_id_type)
    (traces : list augmented_transaction_trace)
    : list augmented_transaction_trace * list transaction_id_type :=
  match traces with
  | [] => ([], id_list)
  | a :: rest =>
      match packed_trx a with
      | Some pt =>
          if contains id_list (leaf_id (trace a)) then
            let r := prune_plan (erase_first (leaf_id (trace a)) id_list) rest in
            ({| trace := trace a; packed_trx := Some (pruned_packed pt) |} :: fst r, snd r)
          else
            let r := prune_plan id_list rest in (a :: fst r, snd r)
      | None =>
          let r := prune_plan id_list rest in (a :: fst r, snd r)
      end
  end.

Section PrunerStates.

Context `{Zlib} `{VariantIndex}.
Context `{RawPack (list signature_type)} `{RawPack (list bytes)}.
Context `{RawPack (list transaction_trace)}.
Context `{chain.PruneAll} `{RawPack chain.none_type}.

(** The compressed block of a section can be read back: it is empty, or its
    length fits the length field. *)
Definition section_readable (a : augmented_transaction_trace) : Prop :=
  match packed_trx a with
  | Some pt =>
      prunable_segments (chain.get_prunable_data pt) <> [] ->
      fits_u32 (raw_pack (prunable_segments (chain.get_prunable_data pt)))
  | None => True
  end.

Definition entry_readable (version : N) (traces : list augmented_transaction_trace) : Prop :=
  fits_u32 (raw_pack (store_view {| context_version := version; wrapped_traces := traces |})) /\
  Forall section_readable traces.

(** The pruner after the section of the prunable data [d], read for the trace
    with id [i]. *)
Definition pruner_after (p : trace_pruner) (i : transaction_id_type)
    (d : chain.prunable_data_type) : trace_pruner :=
  let n := length (section_bytes d) in
  if contains (ids p) i then
    {| buffer := overwrite (write_strm p) (section_bytes (prune d)) (buffer p);
       last_read_pos := read_strm p + n;
       ids := erase_first i (ids p);
       read_strm := read_strm p + n;
       write_strm := write_strm p + length (section_bytes (prune d));
       change_position := if change_position p =? 0 then write_strm p else change_position p |}
  else if change_position p =? 0 then
    {| buffer := buffer p;
       last_read_pos := read_strm p + n;
       ids := ids p;
       read_strm := read_strm p + n;
       write_strm := write_strm p + (read_strm p + n - last_read_pos p);
       change_position := change_position p |}
  else
    {| buffer := overwrite (write_strm p)
                   (take (read_strm p + n - last_read_pos p) (drop (last_read_pos p) (buffer p)))
                   (buffer p);
       last_read_pos := read_strm p + n;
       ids := ids p;
       read_strm := read_strm p + n;
       write_strm := write_strm p
                     + length (take (read_strm p + n - last_read_pos p)
                                    (drop (last_read_pos p) (buffer p)));
       change_position := change_position p |}.

(** The pruner after the sections of a list of traces. *)
Fixpoint pruner_run (p : trace_pruner) (traces : list augmented_transaction_trace)
    : trace_pruner :=
  match traces with
  | [] => p
  | a :: rest =>
      pruner_run
        (match packed_trx a with
         | Some pt => pruner_after p (leaf_id (trace a)) (chain.get_prunable_data pt)
         | None => p
         end) rest
  end.

(** The bytes outside the region the pruner reports are those of the entry:
    below the first change, and from the write position on. *)
Record pruner_frame (entry : bytes) (p : trace_pruner) : Prop := {
  frame_below : take (change_position p) (buffer p) = take (change_position p) entry;
  frame_above : drop (write_strm p) (buffer p) = drop (write_strm p) entry
}.

End PrunerStates.

(** A pruner state with a buffer as long as that of [p] and an id list taken
    from that of [p]; a step of the pruner, and a step of the stream it writes
    to, that keep it so. *)
Definition pruner_within (p p' : trace_pruner) : Prop :=
  length (buffer p') = length (buffer p) /\ sublist (ids p') (ids p).

Definition keeps_within {A} (m : M trace_pruner A) : Prop :=
  forall p, pruner_within p (fst (m p)).

Definition keeps_length {A} (m : M datastream A) : Prop :=
  forall ds, length (ds_buf (fst (m ds))) = length (ds_buf ds).

(* ===================================================================== *)
(** * Proofs *)
(* ===================================================================== *)

Lemma to_N_byte_of_N n : Byte.to_N (byte_of_N n) = (n mod 256)%N.
Proof.
  unfold byte_of_N. destruct (Byte.of_N (n mod 256)) eqn:E.
  - apply Byte.to_of_N. exact E.
  - apply Byte.of_N_None_iff in E.
    pose proof (N.mod_upper_bound n 256). lia.
Qed.

Lemma length_le32 n : length (le32 n) = 4.
Proof. reflexivity. Qed.

Lemma u32_of_bytes_le32 n : (n < 4294967296)%N -> u32_of_bytes (le32 n) = Some n.
Proof.
  intros Hn. unfold le32, u32_of_bytes. rewrite !to_N_byte_of_N. f_equal.
  assert (E2 : (n / 65536 = n / 256 / 256)%N) by (rewrite N.Div0.div_div; reflexivity).
  assert (E3 : (n / 16777216 = n / 256 / 256 / 256)%N) by (rewrite !N.Div0.div_div; reflexivity).
  rewrite E2, E3.
  pose proof (N.Div0.div_mod n 256).
  pose proof (N.Div0.div_mod (n / 256) 256).
  pose proof (N.Div0.div_mod (n / 256 / 256) 256).
  pose proof (N.Div0.div_mod (n / 256 / 256 / 256) 256).
  assert ((n / 256 / 256 / 256 / 256 = 0)%N).
  { rewrite !N.Div0.div_div. apply N.div_small. simpl. lia. }
  lia.
Qed.

Lemma le32_0 : le32 0 = [x00; x00; x00; x00].
Proof. reflexivity. Qed.

Lemma overwrite_end (buf data : bytes) : overwrite (length buf) data buf = buf ++ data.
Proof.
  unfold overwrite. rewrite take_ge by lia. rewrite drop_ge by lia.
  rewrite app_nil_r. reflexivity.
Qed.

Lemma overwrite_mid (a old new b : bytes) :
  length old = length new -> overwrite (length a) new (a ++ old ++ b) = a ++ new ++ b.
Proof.
  intros E. unfold overwrite. rewrite take_app_length.
  rewrite drop_app_add. rewrite <- E. rewrite drop_app_length. reflexivity.
Qed.

Lemma length_overwrite pos (data buf : bytes) :
  pos + length data <= length buf -> length (overwrite pos data buf) = length buf.
Proof.
  intros Hle. unfold overwrite. rewrite !length_app, length_take, length_drop. lia.
Qed.

Lemma drop_overwrite pos (data buf : bytes) k :
  pos + length data <= k -> k <= length buf ->
  drop k (overwrite pos data buf) = drop k buf.
Proof.
  intros H1 H2. unfold overwrite.
  rewrite drop_app_ge by (rewrite length_take; lia).
  rewrite length_take. rewrite drop_app_ge by lia.
  rewrite drop_drop. f_equal. lia.
Qed.

Lemma take_drop_overwrite pos (data buf : bytes) :
  pos <= length buf ->
  take (length data) (drop pos (overwrite pos data buf)) = data.
Proof.
  intros Hle. unfold overwrite.
  rewrite drop_app_ge by (rewrite length_take; lia).
  rewrite length_take. replace (pos - pos `min` length buf) with 0 by lia.
  rewrite drop_0. rewrite take_app_length. reflexivity.
Qed.

(** C8 (amended). A read of [n] bytes from a bounded source with budget
    [remaining r]:
    when [n] exceeds the budget it fails with the out-of-range exception and
    leaves the source as it was, the wrapped stream untouched; otherwise the
    budget goes down by exactly [n] and the outcome is that of the wrapped
    stream's read of [n] bytes, a success with the same bytes when that read
    succeeds. *)
Theorem restricted_read_budget {S} `{IStream S} (r : restriced_data_source S) (n : nat) :
  (remaining r < n ->
     restricted_read n r = (r, Err out_of_range_exception)) /\
  (n <= remaining r ->
     remaining (fst (restricted_read n r)) = remaining r - n /\
     strm (fst (restricted_read n r)) = fst (read n (strm r)) /\
     snd (restricted_read n r) = snd (read n (strm r)) /\
     forall s' bs, read n (strm r) = (s', Ok bs) ->
       restricted_read n r = ({| strm := s'; remaining := remaining r - n |}, Ok bs)).
Proof.
  unfold restricted_read. split; intros Hn.
  - destruct (decide (n <= remaining r)); [lia | reflexivity].
  - destruct (decide (n <= remaining r)); [| lia]. simpl.
    destruct (read n (strm r)) as [s1 res] eqn:E. simpl.
    repeat split. intros s' bs [= -> ->]. reflexivity.
Qed.

(** C8, counterexample: five bytes are asked of a source with a budget of ten
    over a stream that holds three. The request is within the budget, the
    read fails with the exception of the wrapped stream, and the budget has
    gone down by five. *)
Lemma restricted_read_within_budget_fails :
  restricted_read 5 (make_restricted_source {| ds_buf := [x01; x02; x03]; ds_pos := 0 |} 10)
  = ({| strm := {| ds_buf := [x01; x02; x03]; ds_pos := 0 |}; remaining := 5 |},
     Err out_of_range_exception).
Proof. reflexivity. Qed.

Lemma restricted_read_budget_witness :
  restricted_read (H := Sample.list_istream) 11 (make_restricted_source [x01; x02; x03] 10)
    = (make_restricted_source [x01; x02; x03] 10, Err out_of_range_exception) /\
  restricted_read (H := Sample.list_istream) 2 (make_restricted_source [x01; x02; x03] 10)
    = ({| strm := [x03]; remaining := 8 |}, Ok [x01; x02]).
Proof.
  split.
  - apply (proj1 (restricted_read_budget (H := Sample.list_istream)
                    (make_restricted_source [x01; x02; x03] 10) 11)).
    simpl. lia.
  - apply (proj2 (restricted_read_budget (H := Sample.list_istream)
                    (make_restricted_source [x01; x02; x03] 10) 2));
      [simpl; lia | reflexivity].
Defined.

(** C7. For an empty vector [zlib_pack] is the single write of four zero
    bytes, whatever the stream and the codec: no law is assumed of the codec,
    which may fail on every call. On a stream whose next four bytes are zero
    both [zlib_unpack] overloads take those four bytes and return the object
    they were given; so does [zlib_unpack] on what [zlib_pack] wrote into a
    buffer. *)
Theorem zlib_empty_section {A : Type} (Z : Zlib) (P : RawPack (list A)) (U : RawUnpack (list A)) :
  (forall S (O : OStream S) (s : S),
      zlib_pack (@nil A) s = write [x00; x00; x00; x00] s) /\
  (forall S (I : IStream S) (s s' : S) (obj : list A),
      read 4 s = (s', Ok [x00; x00; x00; x00]) ->
      zlib_unpack obj s = (s', Ok obj)) /\
  (forall (buf : bytes) (pos : nat) (obj : list A),
      take 4 (drop pos buf) = [x00; x00; x00; x00] ->
      zlib_unpack obj {| ds_buf := buf; ds_pos := pos |}
        = ({| ds_buf := buf; ds_pos := pos + 4 |}, Ok obj) /\
      zlib_unpack_buffer obj {| ds_buf := buf; ds_pos := pos |}
        = ({| ds_buf := buf; ds_pos := pos + 4 |}, Ok obj)) /\
  (forall (ds ds' : datastream) (obj : list A),
      zlib_pack (@nil A) ds = (ds', Ok tt) ->
      ds_pos ds' = ds_pos ds + 4 /\
      zlib_unpack obj (seek (tellp ds) ds') = (ds', Ok obj)).
Proof.
  assert (Hread : forall buf pos, take 4 (drop pos buf) = [x00; x00; x00; x00] ->
            ds_read 4 {| ds_buf := buf; ds_pos := pos |}
            = ({| ds_buf := buf; ds_pos := pos + 4 |}, Ok [x00; x00; x00; x00])).
  { intros buf pos E. unfold ds_read. simpl.
    destruct (decide (pos + 4 <= length buf)) as [Hle | Hgt].
    - rewrite E. reflexivity.
    - exfalso. assert (Hl : length (take 4 (drop pos buf)) = 4) by (rewrite E; reflexivity).
      rewrite length_take, length_drop in Hl. lia. }
  assert (Hgen : forall S (I : IStream S) (s s' : S) (obj : list A),
      read 4 s = (s', Ok [x00; x00; x00; x00]) -> zlib_unpack obj s = (s', Ok obj)).
  { intros S I s s' obj E. unfold zlib_unpack, unpack_u32, bind. rewrite E. reflexivity. }
  split; [| split; [| split]].
  - intros S O s. reflexivity.
  - exact Hgen.
  - intros buf pos obj E. split.
    + apply Hgen. apply Hread. exact E.
    + unfold zlib_unpack_buffer, unpack_u32, bind. simpl.
      rewrite (Hread _ _ E). reflexivity.
  - intros ds ds' obj E.
    change (ds_write [x00; x00; x00; x00] ds = (ds', Ok tt)) in E.
    unfold ds_write in E. simpl in E.
    destruct (decide (ds_pos ds + 4 <= length (ds_buf ds))) as [Hle | Hgt]; [| discriminate].
    injection E as <-. simpl. split; [reflexivity |].
    apply Hgen. simpl. apply Hread.
    apply (take_drop_overwrite (ds_pos ds) [x00; x00; x00; x00]). lia.
Qed.

(** C9. At version 0 [prune_traces] fails with the state_history_exception
    of its first assertion, whatever the entry, the id list, the serializer and
    the codec: the entry and the list come back as they were given. *)
Theorem prune_traces_version_0 (Z : Zlib) (V : VariantIndex) (PA : chain.PruneAll)
    (PN : RawPack chain.none_type) (UN : RawUnpack chain.none_type)
    (PS : RawPack (list signature_type)) (US : RawUnpack (list signature_type))
    (PB : RawPack (list bytes)) (UB : RawUnpack (list bytes))
    (UT : RawUnpack (list transaction_trace))
    (entry : bytes) (id_list : list transaction_id_type) :
  prune_traces entry 0 id_list = (entry, id_list, Err version_0_unsupported).
Proof. reflexivity. Qed.

Lemma collect_traces_outcome transactions :
  forall traces c,
    match collect_traces transactions traces c with
    | (c', Ok _) => c' = c
    | (c', Err e) => c' = c /\ e = missing_trace
    end.
Proof.
  induction transactions as [| r rest IH]; intros traces c; simpl.
  - reflexivity.
  - unfold bind, gets. simpl.
    destruct (cached_traces c !! _) as [found |]; simpl.
    + unfold EOS_ASSERT. destruct (bool_decide _); simpl.
      * apply IH.
      * split; reflexivity.
    + split; reflexivity.
Qed.

(** C4 (amended). When [prepare_traces] returns, the cache is empty and the
    on-block trace is gone; when it fails, it fails with the missing-trace
    exception of its assertion and the accumulator is as it was before the
    call: the two clearing statements are not reached. *)
Theorem prepare_traces_clears_on_success (transactions : list chain.transaction_receipt_trx)
    (c : trace_converter) :
  match prepare_traces transactions c with
  | (c', Ok _) => cached_traces c' = ∅ /\ onblock_trace c' = None
  | (c', Err e) => c' = c /\ e = missing_trace
  end.
Proof.
  unfold prepare_traces, bind, gets. simpl.
  pose proof (collect_traces_outcome transactions
                (match onblock_trace c with Some t => [t] | None => [] end) c) as Hc.
  destruct (collect_traces _ _ c) as [c' [traces | e]]; simpl.
  - split; reflexivity.
  - exact Hc.
Qed.


(** C4, counterexample: the block names an id that is not cached; the call
    fails and both the cache and the on-block trace are still there. *)
Lemma prepare_traces_keeps_state_on_failure :
  snd (prepare_traces [chain.trx_id 9] Sample.stale_converter) = Err missing_trace /\
  ~ (cached_traces (fst (prepare_traces [chain.trx_id 9] Sample.stale_converter)) = ∅ /\
     onblock_trace (fst (prepare_traces [chain.trx_id 9] Sample.stale_converter)) = None).
Proof.
  split.
  - vm_compute. reflexivity.
  - intros [_ Hb]. vm_compute in Hb. discriminate.
Qed.


Lemma at_end_append data f : at_end f -> at_end (append data f).
Proof. unfold at_end, append. simpl. rewrite length_app. lia. Qed.

Lemma append_append a b f : append b (append a f) = append (a ++ b) f.
Proof.
  unfold append. simpl. rewrite length_app, <- app_assoc. f_equal. lia.
Qed.

Lemma append_nil f : append [] f = f.
Proof. destruct f. unfold append. simpl. rewrite app_nil_r. f_equal. lia. Qed.

Lemma cfile_write_at_end data f :
  at_end f -> cfile_write data f = (append data f, Ok tt).
Proof.
  unfold at_end, cfile_write, append. intros E. rewrite E.
  replace (length (file_data f) - length (file_data f)) with 0 by lia. simpl.
  rewrite app_nil_r, overwrite_end. reflexivity.
Qed.

Lemma bind_ok {St A B} (m : M St A) (k : A -> M St B) s s' a :
  m s = (s', Ok a) -> bind m k s = k a s'.
Proof. intros E. unfold bind. rewrite E. reflexivity. Qed.

Lemma bind_err {St A B} (m : M St A) (k : A -> M St B) s s' e :
  m s = (s', Err e) -> bind m k s = (s', Err e).
Proof. intros E. unfold bind. rewrite E. reflexivity. Qed.

Lemma bind_unit_ret {St} (m : M St unit) s : (m ;;; ret tt) s = m s.
Proof. unfold bind, ret. destruct (m s) as [s' [[] | e]]; reflexivity. Qed.

Fixpoint chain_trace_nested_ind (P : chain.transaction_trace -> Prop)
    (Hleaf : forall i rc ats, P (chain.Build_transaction_trace i rc ats None))
    (Hnode : forall i rc ats inner,
        P inner -> P (chain.Build_transaction_trace i rc ats (Some inner)))
    (t : chain.transaction_trace) : P t :=
  match t with
  | chain.Build_transaction_trace i rc ats failed =>
      match failed with
      | None => Hleaf i rc ats
      | Some inner => Hnode i rc ats inner (chain_trace_nested_ind P Hleaf Hnode inner)
      end
  end.

Fixpoint trace_nested_ind (P : transaction_trace -> Prop)
    (Hleaf : forall i rc part, P (Build_transaction_trace i rc None part))
    (Hnode : forall i rc inner part,
        P inner -> P (Build_transaction_trace i rc (Some inner) part))
    (t : transaction_trace) : P t :=
  match t with
  | Build_transaction_trace i rc failed part =>
      match failed with
      | None => Hleaf i rc part
      | Some inner => Hnode i rc inner part (trace_nested_ind P Hleaf Hnode inner)
      end
  end.

Section LayoutFacts.

Context `{Zlib} `{VariantIndex}.
Context `{RawPack (list signature_type)} `{RawPack (list bytes)}.
Context `{RawPack (list transaction_trace)}.
Context `{chain.PruneAll} `{RawPack chain.none_type}.

Lemma length_writer_open_at_end f :
  at_end f -> length_writer_open f = (append (le32 0) f, Ok (file_pos f + 4)).
Proof.
  intros E. unfold length_writer_open.
  erewrite bind_ok by (apply (cfile_write_at_end (le32 0) f E)).
  reflexivity.
Qed.

Lemma length_writer_close_at_end f c :
  at_end f ->
  length_writer_close (file_pos f + 4) (append c (append (le32 0) f))
  = (append (le32 (uint32 (N.of_nat (length c))) ++ c) f, Ok tt).
Proof.
  intros E. unfold length_writer_close, bind, gets, modify.
  cbn [tellp seek write cfile_ostream append file_pos file_data fst snd].
  unfold cfile_write. cbn [file_pos file_data].
  unfold at_end in E. rewrite E. unfold append. cbn [file_pos file_data].
  f_equal. f_equal.
  - replace (length (file_data f) + 4 - 4) with (length (file_data f)) by lia.
    replace (length (file_data f) - length ((file_data f ++ le32 0) ++ c)) with 0
      by (rewrite !length_app; lia).
    cbn [replicate]. rewrite app_nil_r, <- app_assoc.
    rewrite (overwrite_mid (file_data f) (le32 0)) by reflexivity.
    do 4 f_equal. cbn [length le32]. lia.
  - rewrite length_app. cbn [length le32]. lia.
Qed.

Lemma zlib_pack_at_end {T} `{RawPack T} `{IsEmpty T} (obj : T) f :
  at_end f -> zlib_pack obj f = (append (zlib_bytes obj) f, Ok tt).
Proof.
  intros E. unfold zlib_pack, zlib_bytes. destruct (is_empty obj).
  - apply (cfile_write_at_end (le32 0) f E).
  - erewrite bind_ok by (apply length_writer_open_at_end; exact E).
    unfold scoped. change (write (S := cfile)) with cfile_write.
    rewrite (cfile_write_at_end _ _ (at_end_append _ _ E)).
    rewrite (length_writer_close_at_end f _ E). reflexivity.
Qed.

Lemma pack_at_end (obj : chain.prunable_data_type) f :
  at_end f -> pack obj f = (append (section_bytes obj) f, Ok tt).
Proof.
  intros E.
  destruct obj as [sigs segs | data | sigs segs | sigs segs];
    unfold pack, section_bytes; cbn [which];
    erewrite bind_ok by (apply (cfile_write_at_end [_] f E)).
  2:{ change (write (S := cfile)) with cfile_write.
      rewrite cfile_write_at_end by (apply at_end_append; exact E).
      rewrite append_append. reflexivity. }
  all: (erewrite bind_ok by (apply cfile_write_at_end, at_end_append; exact E));
    (rewrite zlib_pack_at_end by (do 2 apply at_end_append; exact E));
    rewrite !append_append; reflexivity.
Qed.

Lemma packed_bytes_layout obj : packed_bytes obj = section_bytes obj.
Proof.
  unfold packed_bytes. rewrite pack_at_end by reflexivity. reflexivity.
Qed.

Lemma for_each_packed_transaction_in_leaf {St} (lambda : chain.packed_transaction -> M St unit)
    (packed : option chain.packed_transaction) (t : chain.transaction_trace) :
  forall s : St,
    for_each_packed_transaction_in t packed lambda s
    = match packed with Some pt => lambda pt s | None => (s, Ok tt) end.
Proof.
  induction t as [i rc ats | i rc ats inner IH] using chain_trace_nested_ind;
    intros s; cbn [for_each_packed_transaction_in].
  - unfold bind, ret. destruct packed; reflexivity.
  - rewrite <- (IH s).
    assert (E : (match packed with Some _ => ret tt | None => ret tt end) = @ret St unit tt)
      by (destruct packed; reflexivity).
    rewrite E. apply bind_unit_ret.
Qed.

Lemma for_each_packed_transaction_at_end traces :
  forall f, at_end f ->
    for_each_packed_transaction traces (fun pt => pack (chain.get_prunable_data pt)) f
    = (append (sections traces) f, Ok tt).
Proof.
  unfold for_each_packed_transaction.
  induction traces as [| a traces IH]; intros f E; simpl.
  - unfold ret. rewrite append_nil. reflexivity.
  - unfold bind. rewrite for_each_packed_transaction_in_leaf.
    unfold sections. simpl. fold (sections traces). unfold trace_section at 1.
    destruct (packed_trx a) as [pt |].
    + rewrite pack_at_end by exact E.
      rewrite IH by (apply at_end_append; exact E).
      rewrite append_append. reflexivity.
    + rewrite IH by exact E. reflexivity.
Qed.

Lemma entry_payload_layout (version : N) traces :
  version <> 0%N ->
  entry_payload version traces
  = zlib_section (raw_pack (store_view {| context_version := version; wrapped_traces := traces |}))
    ++ sections traces.
Proof.
  intros Hv. unfold entry_payload, encode, pack_entry.
  destruct (N.eqb_spec version 0) as [| _]; [contradiction |].
  set (f0 := {| file_data := []; file_pos := 0 |}).
  assert (E0 : at_end f0) by reflexivity.
  erewrite bind_ok by (apply length_writer_open_at_end; exact E0).
  unfold scoped, pack_unprunable.
  erewrite bind_ok by (apply zlib_pack_at_end; apply at_end_append; exact E0).
  rewrite for_each_packed_transaction_at_end by (do 2 apply at_end_append; exact E0).
  rewrite append_append.
  rewrite (length_writer_close_at_end f0 _ E0).
  unfold zlib_bytes. cbn [is_empty is_empty_wrapper append file_data fst f0].
  reflexivity.
Qed.

Lemma entry_payload_layout_0 traces :
  entry_payload 0 traces
  = zlib_compress_bytes (raw_pack (store_view {| context_version := 0; wrapped_traces := traces |})).
Proof.
  unfold entry_payload, encode, pack_entry. cbn [N.eqb]. unfold pack_unprunable.
  rewrite zlib_pack_at_end by reflexivity. reflexivity.
Qed.

End LayoutFacts.

Lemma drop_prefix (buf : bytes) pos a rest :
  drop pos buf = a ++ rest -> a <> [] \/ pos <= length buf ->
  pos + length a <= length buf /\
  take (length a) (drop pos buf) = a /\
  drop (pos + length a) buf = rest.
Proof.
  intros E Hpos.
  assert (Hl : length buf - pos = length a + length rest).
  { rewrite <- length_drop, E, length_app. reflexivity. }
  assert (pos + length a <= length buf).
  { destruct Hpos as [Ha | Hle]; [| lia].
    destruct a; [contradiction | simpl in *; lia]. }
  split; [assumption |]. split.
  - rewrite E. apply take_app_length.
  - rewrite <- drop_drop, E. apply drop_app_length.
Qed.

Lemma ds_read_at buf pos a rest :
  drop pos buf = a ++ rest -> a <> [] \/ pos <= length buf ->
  ds_read (length a) {| ds_buf := buf; ds_pos := pos |}
  = ({| ds_buf := buf; ds_pos := pos + length a |}, Ok a).
Proof.
  intros E Hpos. destruct (drop_prefix _ _ _ _ E Hpos) as (Hle & Ht & _).
  unfold ds_read. cbn [ds_buf ds_pos].
  destruct (decide (pos + length a <= length buf)); [| lia].
  rewrite Ht. reflexivity.
Qed.

Lemma unpack_u32_at buf pos n rest :
  drop pos buf = le32 n ++ rest -> (n < 4294967296)%N ->
  unpack_u32 {| ds_buf := buf; ds_pos := pos |}
  = ({| ds_buf := buf; ds_pos := pos + 4 |}, Ok n).
Proof.
  intros E Hn. unfold unpack_u32.
  erewrite bind_ok by (apply (ds_read_at buf pos (le32 n) rest E); left; discriminate).
  rewrite (u32_of_bytes_le32 n Hn). reflexivity.
Qed.

Lemma ds_unpack_at {T} `{RawOk T} buf pos (x : T) rest :
  drop pos buf = raw_pack x ++ rest -> pos <= length buf ->
  ds_unpack {| ds_buf := buf; ds_pos := pos |}
  = ({| ds_buf := buf; ds_pos := pos + length (raw_pack x) |}, Ok x).
Proof.
  intros E Hpos. destruct (drop_prefix _ _ _ _ E (or_intror Hpos)) as (Hle & _ & _).
  unfold ds_unpack. cbn [ds_buf ds_pos]. rewrite E, raw_unpack_pack.
  destruct (decide (pos + length (raw_pack x) <= length buf)); [reflexivity | lia].
Qed.

Section DecodeFacts.

Context `{ZlibOk} `{VariantIndexOk}.
Context `{RawOk (list signature_type)} `{RawOk (list bytes)}.
Context `{RawOk (list transaction_trace)}.
Context `{chain.PruneAll} `{RawOk chain.none_type}.

Lemma length_zlib_section b :
  length (zlib_section b) = 4 + length (zlib_compress_bytes b).
Proof. unfold zlib_section. rewrite length_app. reflexivity. Qed.

Lemma zlib_unpack_buffer_section {T} `{RawOk T} buf pos (x obj : T) rest :
  drop pos buf = zlib_section (raw_pack x) ++ rest ->
  fits_u32 (raw_pack x) ->
  zlib_unpack_buffer obj {| ds_buf := buf; ds_pos := pos |}
  = ({| ds_buf := buf; ds_pos := pos + length (zlib_section (raw_pack x)) |}, Ok x).
Proof.
  intros E Hfit. unfold fits_u32 in Hfit.
  set (c := zlib_compress_bytes (raw_pack x)) in *.
  assert (Hc : c <> []) by apply zlib_compress_nonempty.
  assert (Hlen : uint32 (N.of_nat (length c)) = N.of_nat (length c)).
  { unfold uint32. apply N.mod_small. exact Hfit. }
  unfold zlib_section in E. fold c in E. rewrite Hlen, <- app_assoc in E.
  assert (Hne4 : le32 (N.of_nat (length c)) <> []) by discriminate.
  destruct (drop_prefix _ _ _ _ E (or_introl Hne4)) as (Hle4 & _ & E').
  cbn [length le32] in Hle4, E'.
  destruct (drop_prefix _ _ _ _ E' (or_introl Hc)) as (Hlec & Htc & _).
  unfold zlib_unpack_buffer.
  erewrite bind_ok by (apply (unpack_u32_at _ _ _ _ E Hfit)).
  destruct (N.eqb_spec (N.of_nat (length c)) 0) as [E0 | _].
  { destruct c; [contradiction | simpl in E0; lia]. }
  unfold bind, gets, EOS_ASSERT, get, lift_result, ds_skip, modify, ret, ds_remaining.
  cbn [ds_buf ds_pos].
  rewrite bool_decide_true by lia. cbv beta iota. cbn [ds_buf ds_pos].
  rewrite Nat2N.id, Htc. subst c. rewrite zlib_decompress_compress.
  rewrite <- (app_nil_r (raw_pack x)) at 1. rewrite raw_unpack_pack.
  cbn [fst]. rewrite length_zlib_section, Nat.add_assoc. reflexivity.
Qed.

Lemma zlib_unpack_buffer_vector {A} `{RawOk (list A)} buf pos (x : list A) rest :
  drop pos buf = zlib_bytes x ++ rest ->
  fits_u32 (raw_pack x) ->
  zlib_unpack_buffer [] {| ds_buf := buf; ds_pos := pos |}
  = ({| ds_buf := buf; ds_pos := pos + length (zlib_bytes x) |}, Ok x).
Proof.
  unfold zlib_bytes. destruct x as [| a x]; cbn [is_empty is_empty_vector empty].
  - intros E _. unfold zlib_unpack_buffer.
    erewrite bind_ok by (apply (unpack_u32_at _ _ 0 _ E); reflexivity).
    reflexivity.
  - apply zlib_unpack_buffer_section.
Qed.

Lemma set_which_index {St} (a : alternative) (s : St) :
  set_which (which_index a) s = (s, Ok a).
Proof.
  unfold set_which.
  assert (Hne : forall b, b <> a -> bool_decide (which_index b = which_index a) = false).
  { intros b Hb. apply bool_decide_false. intros E. apply Hb, which_index_inj, E. }
  destruct a; cbn [find];
    repeat (first [ rewrite bool_decide_true by reflexivity
                  | rewrite Hne by discriminate ]);
    reflexivity.
Qed.

Lemma length_section_bytes_pos obj : 0 < length (section_bytes obj).
Proof. unfold section_bytes. cbn [length]. lia. Qed.

Lemma unpack_members_at buf pos sigs segs rest :
  drop pos buf = raw_pack sigs ++ zlib_bytes segs ++ rest ->
  pos <= length buf ->
  fits_u32 (raw_pack segs) ->
  unpack_members {| ds_buf := buf; ds_pos := pos |}
  = ({| ds_buf := buf; ds_pos := pos + length (raw_pack sigs ++ zlib_bytes segs) |},
     Ok (sigs, segs)).
Proof.
  intros E Hpos Hfit. unfold unpack_members.
  erewrite bind_ok by (apply (ds_unpack_at _ _ _ _ E Hpos)).
  destruct (drop_prefix _ _ _ _ E (or_intror Hpos)) as (_ & _ & E').
  erewrite bind_ok by (apply (zlib_unpack_buffer_vector _ _ _ _ E' Hfit)).
  unfold ret. rewrite length_app, Nat.add_assoc. reflexivity.
Qed.

Lemma unpack_at buf pos obj rest :
  drop pos buf = section_bytes obj ++ rest ->
  fits_u32 (raw_pack (prunable_segments obj)) ->
  unpack {| ds_buf := buf; ds_pos := pos |}
  = ({| ds_buf := buf; ds_pos := pos + length (section_bytes obj) |}, Ok obj).
Proof.
  intros E Hfit. unfold unpack, unpack_uint8.
  assert (E1 : exists body, section_bytes obj = [which_index (which obj)] ++ body /\
             drop pos buf = [which_index (which obj)] ++ (body ++ rest)).
  { eexists. split; [reflexivity |]. rewrite E. reflexivity. }
  destruct E1 as (body & Eb & E1).
  assert (Hne1 : [which_index (which obj)] <> []) by discriminate.
  erewrite bind_ok.
  2:{ erewrite bind_ok by (apply (ds_read_at buf pos [_] _ E1); left; exact Hne1).
      reflexivity. }
  erewrite bind_ok by apply set_which_index.
  destruct (drop_prefix _ _ _ _ E1 (or_introl Hne1)) as (Hle & _ & E').
  cbn [length] in Hle, E'. rewrite Eb. clear E E1.
  destruct obj as [sigs segs | data | sigs segs | sigs segs];
    cbn [which prunable_segments section_bytes] in *;
    injection Eb as <-;
    try (rewrite <- app_assoc in E';
         erewrite bind_ok by (apply (unpack_members_at _ _ _ _ _ E'); [lia | exact Hfit]);
         unfold ret; cbn [fst snd app length];
         rewrite <- Nat.add_assoc; reflexivity).
  erewrite bind_ok by (apply (ds_unpack_at _ _ _ _ E'); lia).
  unfold ret. cbn [app length]. rewrite <- Nat.add_assoc. reflexivity.
Qed.

End DecodeFacts.


Lemma to_transaction_trace_leaf v packed i rc ats :
  to_transaction_trace v packed (chain.Build_transaction_trace i rc ats None)
  = Build_transaction_trace i rc None
      (match packed with
       | Some pt =>
           Some {| transaction_data := chain.transaction_data pt;
                   signatures := if (v =? 0)%N
                                 then prunable_signatures (chain.get_prunable_data pt) else [];
                   context_free_data := if (v =? 0)%N
                                 then prunable_segments (chain.get_prunable_data pt) else [] |}
       | None => None
       end).
Proof. cbn [to_transaction_trace]. destruct packed; reflexivity. Qed.

Lemma to_transaction_trace_node v packed i rc ats inner :
  to_transaction_trace v packed (chain.Build_transaction_trace i rc ats (Some inner))
  = Build_transaction_trace i rc (Some (to_transaction_trace v packed inner)) None.
Proof. cbn [to_transaction_trace]. destruct packed; reflexivity. Qed.

Section RestoreFacts.

Context `{ZlibOk} `{VariantIndexOk}.
Context `{RawOk (list signature_type)} `{RawOk (list bytes)}.
Context `{RawOk (list transaction_trace)}.
Context `{chain.PruneAll} `{RawOk chain.none_type}.

Lemma visit_restore (v : N) (packed : option chain.packed_transaction)
    (t : chain.transaction_trace) buf pos rest :
  v <> 0%N ->
  let a := {| trace := t; packed_trx := packed |} in
  drop pos buf = trace_section a ++ rest ->
  pos <= length buf ->
  section_fits a ->
  visit_deserialized_trace (fun _ m => m) restore_visitor
    (to_transaction_trace v packed t) {| ds_buf := buf; ds_pos := pos |}
  = ({| ds_buf := buf; ds_pos := pos + length (trace_section a) |},
     if carries_partial a then Err not_implemented
     else Ok (to_transaction_trace 0 packed t)).
Proof.
  intros Hv a E Hpos Hfit. subst a.
  unfold trace_section, section_fits, carries_partial in *. cbn [packed_trx] in *.
  induction t as [i rc ats | i rc ats inner IH] using chain_trace_nested_ind.
  - rewrite !to_transaction_trace_leaf. cbn [visit_deserialized_trace].
    destruct (N.eqb_spec v 0) as [| _]; [contradiction |]. cbn [N.eqb].
    destruct packed as [pt |].
    + unfold bind at 1. cbn [ret].
      erewrite bind_ok by (apply (unpack_at _ _ _ _ E Hfit)).
      unfold restore_visitor. cbn [partial].
      destruct (chain.get_prunable_data pt) as [sigs segs | | sigs segs | sigs segs];
        reflexivity.
    + unfold bind, ret. cbn [length]. rewrite Nat.add_0_r. reflexivity.
  - rewrite !to_transaction_trace_node. cbn [visit_deserialized_trace].
    unfold bind at 1. unfold bind at 1. rewrite IH.
    destruct (match packed with Some pt => is_partial _ | None => false end);
      reflexivity.
Qed.

Lemma for_each_mut_restore (v : N) traces :
  v <> 0%N ->
  forall buf pos rest,
    drop pos buf = sections traces ++ rest ->
    pos <= length buf ->
    Forall section_fits traces ->
    existsb carries_partial traces = false ->
    for_each_mut (visit_deserialized_trace (fun _ m => m) restore_visitor)
      (store_view {| context_version := v; wrapped_traces := traces |})
      {| ds_buf := buf; ds_pos := pos |}
    = ({| ds_buf := buf; ds_pos := pos + length (sections traces) |},
       Ok (store_view {| context_version := 0; wrapped_traces := traces |})).
Proof.
  intros Hv. unfold store_view. cbn [context_version wrapped_traces].
  induction traces as [| a traces IH]; intros buf pos rest E Hpos Hfit Hnp.
  - cbn. rewrite Nat.add_0_r. reflexivity.
  - cbn [map for_each_mut]. unfold sections in *. cbn [map concat] in *.
    rewrite <- app_assoc in E. inversion Hfit as [| ? ? Hfa Hfr]; subst.
    cbn [existsb] in Hnp. apply orb_false_iff in Hnp as [Hna Hnr].
    destruct a as [t packed]. cbn beta. cbn [packed_trx trace].
    erewrite bind_ok.
    2:{ rewrite (visit_restore v packed t buf pos _ Hv E Hpos Hfa).
        rewrite Hna. reflexivity. }
    destruct (drop_prefix _ _ _ _ E (or_intror Hpos)) as (Hle & _ & E').
    erewrite bind_ok by (apply (IH _ _ _ E' Hle Hfr Hnr)).
    unfold ret. rewrite length_app, Nat.add_assoc. reflexivity.
Qed.

Lemma for_each_mut_restore_partial (v : N) traces :
  v <> 0%N ->
  forall buf pos rest,
    drop pos buf = sections traces ++ rest ->
    pos <= length buf ->
    Forall section_fits traces ->
    existsb carries_partial traces = true ->
    snd (for_each_mut (visit_deserialized_trace (fun _ m => m) restore_visitor)
           (store_view {| context_version := v; wrapped_traces := traces |})
           {| ds_buf := buf; ds_pos := pos |})
    = Err not_implemented.
Proof.
  intros Hv. unfold store_view. cbn [context_version wrapped_traces].
  induction traces as [| a traces IH]; intros buf pos rest E Hpos Hfit Hp.
  - discriminate.
  - cbn [map for_each_mut]. unfold sections in *. cbn [map concat] in *.
    rewrite <- app_assoc in E. inversion Hfit as [| ? ? Hfa Hfr]; subst.
    destruct a as [t packed]. cbn beta. cbn [packed_trx trace].
    pose proof (visit_restore v packed t buf pos _ Hv E Hpos Hfa) as Hvis.
    cbv zeta in Hvis.
    cbn [existsb] in Hp.
    destruct (carries_partial {| trace := t; packed_trx := packed |}).
    + erewrite bind_err by exact Hvis. reflexivity.
    + cbn [orb] in Hp. erewrite bind_ok by exact Hvis.
      destruct (drop_prefix _ _ _ _ E (or_intror Hpos)) as (Hle & _ & E').
      specialize (IH _ _ _ E' Hle Hfr Hp).
      unfold bind.
      destruct (for_each_mut _ _ _) as [s' [l | e]]; cbn [snd] in *;
        [discriminate | exact IH].
Qed.

Lemma unpack_traces_at (v : N) traces rest :
  v <> 0%N ->
  lengths_fit v traces ->
  zlib_unpack_buffer (T := list transaction_trace) []
    {| ds_buf := entry_payload v traces ++ rest; ds_pos := 0 |}
  = ({| ds_buf := entry_payload v traces ++ rest;
        ds_pos := length (zlib_section (raw_pack
                    (store_view {| context_version := v; wrapped_traces := traces |}))) |},
     Ok (store_view {| context_version := v; wrapped_traces := traces |})).
Proof.
  intros Hv [Hfit _].
  rewrite (entry_payload_layout v traces Hv).
  apply (zlib_unpack_buffer_section _ 0 _ [] (sections traces ++ rest)).
  - rewrite drop_0, <- app_assoc. reflexivity.
  - exact Hfit.
Qed.

Lemma lengths_fit_sections v traces :
  lengths_fit v traces -> Forall section_fits traces.
Proof. intros [_ Hf]. exact Hf. Qed.

(** C3 (amended). Decoding what [pack] wrote gives the version-0
    serialization of the traces, at version 0 always, and at a later version
    when no packed transaction of the sequence carries the Partial case and
    every compressed block is shorter than 2^32 bytes: the signatures and the
    context-free data of each trace come back from its prunable section. *)
Theorem decode_encode_round_trip (v : N) (traces : list augmented_transaction_trace) :
  v = 0%N \/ (lengths_fit v traces /\ existsb carries_partial traces = false) ->
  to_traces_bin_v0 (entry_payload v traces) v
  = Ok (raw_pack (store_view {| context_version := 0; wrapped_traces := traces |})).
Proof.
  intros [-> | [Hfit Hnp]].
  - unfold to_traces_bin_v0. cbn [N.eqb].
    rewrite entry_payload_layout_0. apply zlib_decompress_compress.
  - destruct (N.eq_dec v 0%N) as [-> | Hv].
    { unfold to_traces_bin_v0. cbn [N.eqb].
      rewrite entry_payload_layout_0. apply zlib_decompress_compress. }
    unfold to_traces_bin_v0. destruct (N.eqb_spec v 0) as [| _]; [contradiction |].
    pose proof (unpack_traces_at v traces [] Hv Hfit) as Hu.
    rewrite app_nil_r in Hu.
    erewrite bind_ok by exact Hu.
    erewrite bind_ok.
    2:{ apply (for_each_mut_restore v traces Hv _ _ []).
        - rewrite (entry_payload_layout v traces Hv), app_nil_r. apply drop_app_length.
        - rewrite (entry_payload_layout v traces Hv), length_app. lia.
        - apply (lengths_fit_sections v), Hfit.
        - exact Hnp. }
    reflexivity.
Qed.

(** C5 (amended). Decoding an entry of a version other than 0 in which some
    packed transaction carries the Partial case fails with the
    state_history_exception "Not implemented" of [restore_partial]. *)
Theorem decode_partial_not_implemented (v : N)
    (traces : list augmented_transaction_trace) :
  v <> 0%N -> lengths_fit v traces ->
  existsb carries_partial traces = true ->
  to_traces_bin_v0 (entry_payload v traces) v = Err not_implemented.
Proof.
  intros Hv Hfit Hp.
  unfold to_traces_bin_v0. destruct (N.eqb_spec v 0) as [| _]; [contradiction |].
  pose proof (unpack_traces_at v traces [] Hv Hfit) as Hu.
  rewrite app_nil_r in Hu.
  erewrite bind_ok by exact Hu.
  pose proof (for_each_mut_restore_partial v traces Hv
                (entry_payload v traces)
                (length (zlib_section (raw_pack
                    (store_view {| context_version := v; wrapped_traces := traces |}))))
                []) as Hr.
  assert (Hr' := Hr).
  rewrite (entry_payload_layout v traces Hv) in Hr' at 1 2.
  rewrite app_nil_r, drop_app_length, length_app in Hr'.
  specialize (Hr' eq_refl ltac:(lia) (lengths_fit_sections v _ Hfit) Hp).
  unfold bind.
  destruct (for_each_mut _ _ _) as [s' [l | e]]; cbn [snd] in *.
  - discriminate.
  - injection Hr' as ->. reflexivity.
Qed.

End RestoreFacts.

Lemma ds_write_at data buf pos :
  pos + length data <= length buf ->
  ds_write data {| ds_buf := buf; ds_pos := pos |}
  = ({| ds_buf := overwrite pos data buf; ds_pos := pos + length data |}, Ok tt).
Proof.
  intros Hle. unfold ds_write. cbn [ds_buf ds_pos].
  destruct (decide (pos + length data <= length buf)); [reflexivity | lia].
Qed.

Lemma overwrite_overwrite pos (a b buf : bytes) :
  pos + length a + length b <= length buf ->
  overwrite (pos + length a) b (overwrite pos a buf) = overwrite pos (a ++ b) buf.
Proof.
  intros Hle. unfold overwrite.
  assert (Hl : length (take pos buf ++ a) = pos + length a).
  { rewrite length_app, length_take. lia. }
  rewrite (app_assoc (take pos buf) a).
  rewrite take_app_length' by (symmetry; exact Hl).
  rewrite drop_app_ge by lia. rewrite Hl.
  rewrite drop_drop, <- !app_assoc, length_app.
  do 3 f_equal. f_equal. lia.
Qed.

Section PackFacts.

Context `{Zlib} `{VariantIndex}.
Context `{RawPack (list signature_type)} `{RawPack (list bytes)}.
Context `{chain.PruneAll} `{RawPack chain.none_type}.

Lemma prune_stripped obj : prunable_segments (prune obj) = [].
Proof.
  destruct obj as [sigs segs | data | sigs segs | sigs segs]; cbn [prune]; try reflexivity;
    destruct sigs, segs; reflexivity.
Qed.

Lemma prune_kept obj :
  prunable_signatures obj = [] -> prunable_segments obj = [] -> prune obj = obj.
Proof.
  destruct obj as [sigs segs | data | sigs segs | sigs segs];
    cbn [prunable_signatures prunable_segments prune]; intros E1 E2; subst; reflexivity.
Qed.

Lemma section_bytes_prune obj :
  (prunable_segments obj <> [] -> prunable_signatures obj <> []) ->
  (prunable_signatures obj <> [] ->
   length (raw_pack (chain.prune_all_none obj))
   <= length (raw_pack (prunable_signatures obj))) ->
  length (section_bytes (prune obj)) <= length (section_bytes obj).
Proof.
  intros Hsegs Hsigs.
  destruct obj as [sigs segs | data | sigs segs | sigs segs];
    cbn [prune prunable_signatures prunable_segments] in *; try reflexivity;
    (destruct sigs as [| s sigs];
     [ destruct segs as [| g segs]; [reflexivity |];
       exfalso; apply Hsegs; [discriminate | reflexivity]
     | cbn [empty andb chain.prune_all section_bytes length];
       assert (Hs : s :: sigs <> []) by discriminate;
       specialize (Hsigs Hs); rewrite length_app; lia ]).
Qed.

Lemma pack_members_at (sigs : list signature_type) buf pos :
  pos + length (raw_pack sigs ++ le32 0) <= length buf ->
  (write (raw_pack sigs) ;;; zlib_pack (@nil bytes)) {| ds_buf := buf; ds_pos := pos |}
  = ({| ds_buf := overwrite pos (raw_pack sigs ++ le32 0) buf;
        ds_pos := pos + length (raw_pack sigs ++ le32 0) |}, Ok tt).
Proof.
  rewrite length_app. intros Hle.
  erewrite bind_ok by (apply (ds_write_at (raw_pack sigs)); lia).
  unfold zlib_pack. cbn [is_empty is_empty_vector empty].
  change (write (S := datastream)) with ds_write.
  rewrite ds_write_at by (rewrite length_overwrite; lia).
  rewrite overwrite_overwrite by lia.
  rewrite Nat.add_assoc. reflexivity.
Qed.

Lemma pack_stripped_at obj buf pos :
  prunable_segments obj = [] ->
  pos + length (section_bytes obj) <= length buf ->
  pack obj {| ds_buf := buf; ds_pos := pos |}
  = ({| ds_buf := overwrite pos (section_bytes obj) buf;
        ds_pos := pos + length (section_bytes obj) |}, Ok tt).
Proof.
  intros Hs Hle. unfold pack.
  assert (Hm : forall (tag : byte) (sigs : list signature_type),
    pos + length (tag :: raw_pack sigs ++ le32 0) <= length buf ->
    (write [tag] ;;; write (raw_pack sigs) ;;; zlib_pack (@nil bytes))
      {| ds_buf := buf; ds_pos := pos |}
    = ({| ds_buf := overwrite pos (tag :: raw_pack sigs ++ le32 0) buf;
          ds_pos := pos + length (tag :: raw_pack sigs ++ le32 0) |}, Ok tt)).
  { intros tag sigs Hl. cbn [length] in Hl.
    erewrite bind_ok by (apply (ds_write_at [tag]); cbn [length]; lia).
    cbn [length].
    rewrite pack_members_at by (rewrite length_overwrite; cbn [length]; lia).
    rewrite (overwrite_overwrite pos [tag]) by (cbn [length]; lia).
    cbn [length app]. do 2 f_equal. lia. }
  destruct obj as [sigs segs | data | sigs segs | sigs segs];
    cbn [prunable_segments] in Hs; subst;
    cbn [section_bytes which] in *;
    try (apply Hm; exact Hle).
  unfold section_bytes in *. cbn [which length] in *.
  erewrite bind_ok by (apply (ds_write_at [_]); cbn [length]; lia).
  change (write (S := datastream)) with ds_write.
  rewrite ds_write_at by (rewrite length_overwrite; cbn [length]; lia).
  rewrite (overwrite_overwrite pos [_]) by (cbn [length]; lia).
  cbn [length app]. do 2 f_equal. lia.
Qed.

End PackFacts.

Lemma drop_more {A} (l1 l2 : list A) k n :
  drop k l1 = drop k l2 -> drop (k + n) l1 = drop (k + n) l2.
Proof. intros E. rewrite <- !drop_drop, E. reflexivity. Qed.

Section PrunerFacts.

Context `{ZlibOk} `{VariantIndexOk}.
Context `{RawOk (list signature_type)} `{RawOk (list bytes)}.
Context `{RawOk (list transaction_trace)}.
Context `{chain.PruneAll} `{RawOk chain.none_type}.

Lemma pruner_step entry p tr d rest :
  pruner_inv entry p ->
  drop (read_strm p) entry = section_bytes d ++ rest ->
  fits_u32 (raw_pack (prunable_segments d)) ->
  (contains (ids p) (trace_id tr) = true ->
   length (section_bytes (prune d)) <= length (section_bytes d)) ->
  exists p',
    (prunable <- on_read_strm unpack ;; trace_pruner_call tr prunable) p = (p', Ok tr) /\
    pruner_inv entry p' /\
    read_strm p' = read_strm p + length (section_bytes d) /\
    (contains (ids p) (trace_id tr) = false ->
       ids p' = ids p /\ change_position p' = change_position p /\
       (change_position p = 0 -> buffer p' = buffer p)) /\
    (contains (ids p) (trace_id tr) = true ->
       change_position p' <> 0 /\ ids p' = erase_first (trace_id tr) (ids p)) /\
    (change_position p <> 0 -> change_position p' = change_position p).
Proof.
  intros [Hlen Hsync Hbound Hbehind Hpos Hunread Hunch Hreg] E Hfit Hm.
  destruct p as [B lrp idl rp wp cp]. cbn [buffer last_read_pos ids read_strm write_strm
    change_position] in *. subst lrp.
  set (n := length (section_bytes d)).
  assert (EB : drop rp B = section_bytes d ++ rest) by (rewrite Hunread; exact E).
  assert (Hne : section_bytes d <> []) by discriminate.
  destruct (drop_prefix _ _ _ _ EB (or_introl Hne)) as (Hle & Htake & _).
  fold n in Hle, Htake, Hm.
  erewrite bind_ok.
  2:{ unfold on_read_strm. cbn [buffer read_strm].
      rewrite (unpack_at B rp d rest EB Hfit). reflexivity. }
  fold n. cbn [buffer last_read_pos ids read_strm write_strm change_position ds_buf ds_pos].
  unfold trace_pruner_call.
  erewrite bind_ok by reflexivity.
  cbn [buffer last_read_pos ids read_strm write_strm change_position ds_buf ds_pos].
  destruct (contains idl (trace_id tr)) eqn:Hc.
  - (* the trace is one of those to prune *)
    specialize (Hm eq_refl).
    set (cp' := if cp =? 0 then wp else cp).
    assert (Hcp' : cp' <> 0 /\ cp' <= wp /\ (cp <> 0 -> cp' = cp)).
    { subst cp'. destruct (Nat.eqb_spec cp 0); [lia |].
      specialize (Hreg ltac:(assumption)). lia. }
    eexists. split.
    + erewrite bind_ok.
      2:{ erewrite bind_ok.
          2:{ instantiate (1 := tt).
              instantiate (1 := {| buffer := B; last_read_pos := rp; ids := idl;
                                   read_strm := rp + n; write_strm := wp;
                                   change_position := cp' |}).
              subst cp'. destruct (cp =? 0); reflexivity. }
          erewrite bind_ok.
          2:{ unfold on_write_strm. cbn [buffer write_strm].
              rewrite (pack_stripped_at (prune d) B wp (prune_stripped d)) by lia.
              reflexivity. }
          reflexivity. }
      reflexivity.
    + cbn [buffer last_read_pos ids read_strm write_strm change_position ds_buf ds_pos].
      split; [| split; [reflexivity | split; [discriminate | split; [| tauto]]]].
      * constructor; cbn [buffer last_read_pos ids read_strm write_strm change_position ds_buf ds_pos].
        -- rewrite length_overwrite by lia. exact Hlen.
        -- reflexivity.
        -- lia.
        -- lia.
        -- lia.
        -- rewrite drop_overwrite by lia. apply drop_more. exact Hunread.
        -- tauto.
        -- intros _. pose proof (length_section_bytes_pos (prune d)). lia.
      * intros _. split; [tauto | reflexivity].
  - destruct (Nat.eqb_spec cp 0) as [Hcp | Hcp].
    + (* nothing changed so far: the write stream skips the section *)
      destruct (Hunch Hcp) as [-> ->].
      eexists. split; [reflexivity |].
      cbn [buffer last_read_pos ids read_strm write_strm change_position ds_buf ds_pos].
      split; [| split; [reflexivity | split; [tauto | split; [discriminate | tauto]]]].
      constructor; cbn [buffer last_read_pos ids read_strm write_strm change_position ds_buf ds_pos];
        try lia; try reflexivity.
      intros _. split; [lia | reflexivity].
    + (* a change before: the section moves down to the write position *)
      assert (Hdata : length (take (rp + n - rp) (drop rp B)) = n).
      { rewrite length_take, length_drop. lia. }
      eexists. split.
      * erewrite bind_ok.
        2:{ unfold on_write_strm. cbn [buffer write_strm].
            rewrite ds_write_at by (rewrite Hdata; lia). reflexivity. }
        reflexivity.
      * cbn [buffer last_read_pos ids read_strm write_strm change_position ds_buf ds_pos].
        split; [| split; [reflexivity | split; [| split; [discriminate | tauto]]]].
        2:{ intros _. repeat split. intros ?. contradiction. }
        constructor; cbn [buffer last_read_pos ids read_strm write_strm change_position ds_buf ds_pos];
          rewrite ?Hdata; try lia; try reflexivity.
        -- rewrite length_overwrite by (rewrite Hdata; lia). exact Hlen.
        -- rewrite drop_overwrite by (rewrite ?Hdata; lia). apply drop_more. exact Hunread.
Qed.

End PrunerFacts.

Lemma logged_step {A B} (m : M trace_pruner A) (k : A -> M trace_pruner B) p log p' b :
  (a <- m ;; k a) p = (p', Ok b) ->
  (a <- on_fst m ;; logged (k a)) (p, log) = ((p', log ++ [p']), Ok b).
Proof.
  unfold bind, on_fst, logged. cbn [fst snd].
  destruct (m p) as [p1 [a | e]]; [| discriminate]. cbn [fst snd].
  intros ->. reflexivity.
Qed.


Lemma simulates_ret {St L A} (a : A) : simulates (L := L) (ret a) (@ret St A a).
Proof. intros s l. split; reflexivity. Qed.

Lemma simulates_bind {St L A B} (mL : M (St * L) A) (mP : M St A)
    (kL : A -> M (St * L) B) (kP : A -> M St B) :
  simulates mL mP -> (forall a, simulates (kL a) (kP a)) ->
  simulates (bind mL kL) (bind mP kP).
Proof.
  intros Hm Hk s l. unfold bind. destruct (Hm s l) as [E1 E2].
  destruct (mL (s, l)) as [[s1 l1] r1], (mP s) as [s2 r2]. cbn [fst snd] in *. subst.
  destruct r2 as [a | e]; [apply Hk | split; reflexivity].
Qed.

Lemma simulates_on_fst {St L A} (m : M St A) : simulates (L := L) (on_fst m) m.
Proof. intros s l. unfold on_fst. cbn [fst snd]. destruct (m s). split; reflexivity. Qed.

Lemma simulates_logged {A} (m : M trace_pruner A) : simulates (logged m) m.
Proof. intros s l. unfold logged. cbn [fst snd]. destruct (m s). split; reflexivity. Qed.

Section RunFacts.

Context `{Zlib} `{VariantIndex}.
Context `{RawPack (list signature_type)} `{RawUnpack (list signature_type)}.
Context `{RawPack (list bytes)} `{RawUnpack (list bytes)}.
Context `{chain.PruneAll} `{RawPack chain.none_type} `{RawUnpack chain.none_type}.

Lemma simulates_visit {St L}
    (onL : forall A, M datastream A -> M (St * L) A) (onP : forall A, M datastream A -> M St A)
    (vL : transaction_trace -> chain.prunable_data_type -> M (St * L) transaction_trace)
    (vP : transaction_trace -> chain.prunable_data_type -> M St transaction_trace) :
  (forall A m, simulates (onL A m) (onP A m)) ->
  (forall t d, simulates (vL t d) (vP t d)) ->
  forall t, simulates (visit_deserialized_trace onL vL t) (visit_deserialized_trace onP vP t).
Proof.
  intros Hon Hv t.
  induction t as [i rc part | i rc inner part IH] using trace_nested_ind;
    cbn [visit_deserialized_trace].
  - apply simulates_bind; [apply simulates_ret |]. intros failed'.
    destruct part; [| apply simulates_ret].
    apply simulates_bind; [apply Hon | intros d; apply Hv].
  - apply simulates_bind.
    + apply simulates_bind; [exact IH | intros; apply simulates_ret].
    + intros failed'. destruct part; [| apply simulates_ret].
      apply simulates_bind; [apply Hon | intros d; apply Hv].
Qed.

Lemma simulates_for_each_mut {St L A} (fL : A -> M (St * L) A) (fP : A -> M St A) :
  (forall a, simulates (fL a) (fP a)) ->
  forall l, simulates (for_each_mut fL l) (for_each_mut fP l).
Proof.
  intros Hf l. induction l as [| a l IH]; cbn [for_each_mut].
  - apply simulates_ret.
  - apply simulates_bind; [apply Hf | intros a'].
    apply simulates_bind; [exact IH | intros; apply simulates_ret].
Qed.

Lemma simulates_prune_run traces :
  simulates
    (for_each_mut visit_logged traces)
    (for_each_mut (visit_deserialized_trace (@on_read_strm) trace_pruner_call) traces).
Proof.
  apply simulates_for_each_mut. intros t. unfold visit_logged.
  apply (simulates_visit (L := list trace_pruner)
           (fun A m => on_fst (on_read_strm m)) (@on_read_strm)).
  - intros A m. apply simulates_on_fst.
  - intros t' d. apply simulates_logged.
Qed.

End RunFacts.

Lemma contains_erase_first i j id_list :
  contains (erase_first i id_list) j = true -> contains id_list j = true.
Proof.
  unfold contains. induction id_list as [| k l IH]; cbn [erase_first existsb]; [tauto |].
  destruct (N.eqb_spec i k) as [-> | Hne]; intros Hc.
  - rewrite Hc. apply orb_true_r.
  - cbn [existsb] in Hc. apply orb_true_iff in Hc as [Hc | Hc].
    + rewrite Hc. reflexivity.
    + rewrite (IH Hc). apply orb_true_r.
Qed.

Section TraversalFacts.

Context `{ZlibOk} `{VariantIndexOk}.
Context `{RawOk (list signature_type)} `{RawOk (list bytes)}.
Context `{RawOk (list transaction_trace)}.
Context `{chain.PruneAll} `{RawOk chain.none_type}.


Lemma visit_prune_logged entry (v : N) (packed : option chain.packed_transaction)
    (t : chain.transaction_trace) p log rest :
  let a := {| trace := t; packed_trx := packed |} in
  pruner_inv entry p ->
  drop (read_strm p) entry = trace_section a ++ rest ->
  section_fits a ->
  (contains (ids p) (leaf_id t) = true -> prune_fits a) ->
  exists p',
    visit_logged (to_transaction_trace v packed t) (p, log)
    = ((p', log ++ if has_packed a then [p'] else []), Ok (to_transaction_trace v packed t)) /\
    (packed = None -> p' = p) /\
    (packed <> None ->
       pruner_step_ok entry (leaf_id t) (length (trace_section a)) p p').
Proof.
  intros a Hinv E Hfit Hpf. subst a.
  unfold trace_section, section_fits, has_packed, visit_logged, prune_fits in *.
  cbn [packed_trx] in *.
  induction t as [i rc ats | i rc ats inner IH] using chain_trace_nested_ind.
  - rewrite !to_transaction_trace_leaf. cbn [visit_deserialized_trace leaf_id] in *.
    destruct packed as [pt |].
    + rewrite !packed_bytes_layout in Hpf.
      destruct (pruner_step entry p
                  (Build_transaction_trace i rc None
                     (Some {| transaction_data := chain.transaction_data pt;
                              signatures := if (v =? 0)%N
                                then prunable_signatures (chain.get_prunable_data pt) else [];
                              context_free_data := if (v =? 0)%N
                                then prunable_segments (chain.get_prunable_data pt) else [] |}))
                  (chain.get_prunable_data pt) rest Hinv E Hfit Hpf)
        as (p' & Hrun & Hstep).
      exists p'. split; [| split; [discriminate | intros _; exact Hstep]].
      unfold bind at 1. cbn [ret].
      apply (logged_step _ _ _ _ _ _ Hrun).
    + exists p. split; [| split; [reflexivity | intros []; reflexivity]].
      unfold bind, ret. rewrite app_nil_r. reflexivity.
  - rewrite !to_transaction_trace_node. cbn [visit_deserialized_trace leaf_id] in *.
    destruct (IH Hpf) as (p' & Hrun & Hnone & Hsome).
    exists p'. split; [| split; assumption].
    unfold bind at 1. unfold bind at 1. rewrite Hrun. reflexivity.
Qed.

End TraversalFacts.

Section ListFacts.

Context `{ZlibOk} `{VariantIndexOk}.
Context `{RawOk (list signature_type)} `{RawOk (list bytes)}.
Context `{RawOk (list transaction_trace)}.
Context `{chain.PruneAll} `{RawOk chain.none_type}.

Lemma for_each_prune_logged entry (v : N) traces :
  forall p log rest,
    pruner_inv entry p ->
    drop (read_strm p) entry = sections traces ++ rest ->
    Forall section_fits traces ->
    listed_fit (ids p) traces ->
    exists p' steps,
      for_each_mut visit_logged
        (store_view {| context_version := v; wrapped_traces := traces |}) (p, log)
      = ((p', log ++ steps),
         Ok (store_view {| context_version := v; wrapped_traces := traces |})) /\
      pruner_inv entry p' /\
      Forall (pruner_inv entry) steps /\
      length steps = length (filter (fun a => has_packed a = true) traces) /\
      last (p :: steps) = Some p' /\
      read_strm p' = read_strm p + length (sections traces) /\
      (Forall (fun a => contains (ids p) (leaf_id (trace a)) = false) traces ->
         ids p' = ids p /\ change_position p' = change_position p /\
         (change_position p = 0 -> buffer p' = buffer p)) /\
      (change_position p <> 0 -> change_position p' = change_position p) /\
      (Exists (fun a => has_packed a = true /\
                        contains (ids p) (leaf_id (trace a)) = true) traces ->
         change_position p' <> 0).
Proof.
  unfold store_view. cbn [context_version wrapped_traces].
  induction traces as [| a traces IH]; intros p log rest Hinv E Hfit Hpf.
  - exists p, []. cbn [map for_each_mut]. unfold ret. rewrite app_nil_r.
    split; [reflexivity |]. split; [exact Hinv |]. split; [constructor |].
    split; [reflexivity |]. split; [reflexivity |].
    split; [unfold sections; cbn [map concat length]; lia |].
    split; [tauto |]. split; [tauto |].
    intros Hex. inversion Hex.
  - cbn [map for_each_mut]. unfold sections in *. cbn [map concat] in *.
    rewrite <- app_assoc in E. inversion Hfit as [| ? ? Hfa Hfr]; subst.
    inversion Hpf as [| ? ? Hpa Hpr]; subst.
    destruct a as [t packed]. cbn beta. cbn [packed_trx trace] in *.
    destruct (visit_prune_logged entry v packed t p log _ Hinv E Hfa Hpa)
      as (p1 & Hrun1 & Hnone & Hsome).
    cbv zeta in Hrun1, Hsome.
    assert (Hpf1 : listed_fit (ids p1) traces).
    { eapply Forall_impl; [exact Hpr |]. intros b Hb Hc. apply Hb.
      destruct packed as [pt |]; [| rewrite (Hnone eq_refl) in Hc; exact Hc].
      assert (Hsm : Some pt <> None) by discriminate.
      destruct (Hsome Hsm) as (_ & _ & Hf & Ht & _).
      destruct (contains (ids p) (leaf_id t)) eqn:Hct.
      - destruct (Ht eq_refl) as [_ Hi]. rewrite Hi in Hc.
        apply (contains_erase_first _ _ _ Hc).
      - destruct (Hf eq_refl) as [Hi _]. rewrite Hi in Hc. exact Hc. }
    assert (Hinv1 : pruner_inv entry p1 /\
              read_strm p1 = read_strm p
                + length (trace_section {| trace := t; packed_trx := packed |})).
    { destruct packed as [pt |].
      - destruct (Hsome ltac:(discriminate)) as (Hi & Hr & _). split; assumption.
      - rewrite (Hnone eq_refl). split; [assumption |]. cbn. lia. }
    destruct Hinv1 as [Hinv1 Hread1].
    assert (E1 : drop (read_strm p1) entry = concat (map trace_section traces) ++ rest).
    { rewrite Hread1.
      apply (drop_prefix _ _ _ _ E (or_intror (inv_bound _ _ Hinv))). }
    destruct (IH p1 (log ++ if has_packed {| trace := t; packed_trx := packed |}
                            then [p1] else []) rest Hinv1 E1 Hfr Hpf1)
      as (p' & steps & Hrun & Hinv' & Hall & Hcount & Hlast & Hread & Hno & Hkeep & Hany).
    exists p', ((if has_packed {| trace := t; packed_trx := packed |} then [p1] else [])
                ++ steps).
    split; [| split; [exact Hinv' | split; [| split; [| split; [| split; [| split;
      [| split]]]]]]].
    + erewrite bind_ok by exact Hrun1.
      erewrite bind_ok by exact Hrun.
      unfold ret. rewrite app_assoc. reflexivity.
    + apply Forall_app. split; [| exact Hall].
      destruct (has_packed _); constructor; [exact Hinv1 | constructor].
    + rewrite length_app, Hcount. cbn [filter list_filter].
      unfold has_packed at 1 3. cbn [packed_trx].
      destruct packed; [| reflexivity].
      rewrite decide_True by reflexivity. reflexivity.
    + unfold has_packed in *. cbn [packed_trx] in *. destruct packed as [pt |].
      * exact Hlast.
      * cbn [app]. rewrite <- (Hnone eq_refl). exact Hlast.
    + rewrite Hread, Hread1, length_app. lia.
    + intros Hnm. inversion Hnm as [| ? ? Hna Hnr]; subst. cbn [trace] in Hna.
      destruct packed as [pt |].
      * destruct (Hsome ltac:(discriminate)) as (_ & _ & Hf & _ & _).
        destruct (Hf Hna) as (Hi1 & Hc1 & Hb1).
        rewrite Hi1 in Hno. destruct (Hno Hnr) as (Hi & Hc & Hb).
        repeat split; try congruence.
        intros Hz. rewrite Hb by congruence. apply Hb1, Hz.
      * rewrite (Hnone eq_refl) in *. apply Hno, Hnr.
    + intros Hcp. destruct packed as [pt |].
      * destruct (Hsome ltac:(discriminate)) as (_ & _ & _ & _ & Hk).
        rewrite Hkeep by (rewrite Hk; assumption). apply Hk, Hcp.
      * rewrite (Hnone eq_refl) in *. apply Hkeep, Hcp.
    + intros Hex. destruct packed as [pt |].
      * destruct (Hsome ltac:(discriminate)) as (_ & _ & Hf & Ht & Hk).
        destruct (contains (ids p) (leaf_id t)) eqn:Hc.
        -- destruct (Ht eq_refl) as [Hcp1 _]. rewrite Hkeep; assumption.
        -- destruct (Hf eq_refl) as (Hi1 & Hc1 & _).
           inversion Hex as [? ? [_ Hx] | ? ? Hx]; subst.
           ++ cbn [trace] in Hx. congruence.
           ++ apply Hany. rewrite Hi1. exact Hx.
      * rewrite (Hnone eq_refl) in *.
        inversion Hex as [? ? [Hx _] | ? ? Hx]; subst; [discriminate |].
        apply Hany, Hx.
Qed.

End ListFacts.

(* ===================================================================== *)
(** * The sample serializer and codec meet the laws *)
(* ===================================================================== *)

Module SampleFacts.
Import Sample.

Lemma dec_nat_ok : codec_ok enc_nat dec_nat.
Proof.
  intros n rest. unfold enc_nat.
  induction n as [| n IH]; cbn [replicate app dec_nat].
  - rewrite decide_True by reflexivity. reflexivity.
  - rewrite decide_False by discriminate. rewrite decide_True by reflexivity.
    rewrite IH. reflexivity.
Qed.

Lemma dec_N_ok : codec_ok enc_N dec_N.
Proof.
  intros n rest. unfold enc_N, dec_N. rewrite dec_nat_ok, N2Nat.id. reflexivity.
Qed.

Lemma dec_bytes_ok : codec_ok enc_bytes dec_bytes.
Proof.
  intros b rest. unfold enc_bytes, dec_bytes.
  rewrite <- app_assoc, dec_nat_ok.
  rewrite decide_True by (rewrite !length_app; lia).
  rewrite drop_app_length, take_app_length, length_app. reflexivity.
Qed.

Lemma dec_pair_ok {A B} (ea : A -> bytes) da (eb : B -> bytes) db :
  codec_ok ea da -> codec_ok eb db -> codec_ok (enc_pair ea eb) (dec_pair da db).
Proof.
  intros Ha Hb [a b] rest. unfold enc_pair, dec_pair. cbn [fst snd].
  rewrite <- app_assoc, Ha, drop_app_length, Hb, length_app. reflexivity.
Qed.

Lemma dec_option_ok {A} (ea : A -> bytes) da :
  codec_ok ea da -> codec_ok (enc_option ea) (dec_option da).
Proof.
  intros Ha [a |] rest; cbn [enc_option dec_option app].
  - rewrite decide_False by discriminate. rewrite Ha. reflexivity.
  - rewrite decide_True by reflexivity. reflexivity.
Qed.

Lemma dec_seq_ok {A} (ea : A -> bytes) da (l : list A) rest :
  codec_ok ea da ->
  dec_seq da (length l) (concat (map ea l) ++ rest) = Ok (l, length (concat (map ea l))).
Proof.
  intros Ha. induction l as [| a l IH]; cbn [length map concat dec_seq].
  - reflexivity.
  - rewrite <- app_assoc, Ha, drop_app_length, IH, length_app. reflexivity.
Qed.

Lemma dec_list_ok {A} (ea : A -> bytes) da :
  codec_ok ea da -> codec_ok (enc_list ea) (dec_list da).
Proof.
  intros Ha l rest. unfold enc_list, dec_list.
  rewrite <- app_assoc, dec_nat_ok, drop_app_length.
  rewrite (dec_seq_ok ea da l rest Ha), length_app. reflexivity.
Qed.

Lemma dec_map_ok {A B} (ea : A -> bytes) da (g : B -> A) (f : A -> option B) :
  codec_ok ea da -> (forall b, f (g b) = Some b) ->
  codec_ok (fun b => ea (g b)) (dec_map f da).
Proof.
  intros Ha Hfg b rest. unfold dec_map. rewrite Ha, Hfg. reflexivity.
Qed.

Lemma dec_signature_ok : codec_ok enc_signature dec_signature.
Proof.
  apply (dec_map_ok enc_bytes dec_bytes signature_data); [apply dec_bytes_ok |].
  intros []; reflexivity.
Qed.

Lemma dec_none_ok : codec_ok enc_none dec_none.
Proof.
  apply (dec_map_ok enc_bytes dec_bytes chain.none_members); [apply dec_bytes_ok |].
  intros []; reflexivity.
Qed.

Lemma dec_receipt_ok : codec_ok enc_receipt dec_receipt.
Proof.
  apply (dec_map_ok enc_bytes dec_bytes receipt_data); [apply dec_bytes_ok |].
  intros []; reflexivity.
Qed.

Lemma dec_partial_ok : codec_ok enc_partial dec_partial.
Proof.
  apply (dec_map_ok
           (enc_pair enc_bytes (enc_pair (enc_list enc_signature) (enc_list enc_bytes)))
           _ (fun p => (transaction_data p, (signatures p, context_free_data p)))).
  - apply dec_pair_ok; [apply dec_bytes_ok |].
    apply dec_pair_ok; apply dec_list_ok; [apply dec_signature_ok | apply dec_bytes_ok].
  - intros []; reflexivity.
Qed.

Lemma dec_level_ok : codec_ok enc_level dec_level.
Proof.
  apply dec_pair_ok; [apply dec_N_ok |].
  apply dec_pair_ok; apply dec_option_ok; [apply dec_receipt_ok | apply dec_partial_ok].
Qed.

Lemma unlevels_levels t : unlevels (levels t) = Some t.
Proof.
  induction t as [i rc part | i rc inner part IH] using trace_nested_ind.
  - reflexivity.
  - cbn [levels unlevels]. fold (levels inner). rewrite IH.
    destruct inner as [i' rc' f' part']. reflexivity.
Qed.

Lemma dec_trace_ok : codec_ok enc_trace dec_trace.
Proof.
  apply (dec_map_ok (enc_list enc_level) _ levels);
    [apply dec_list_ok, dec_level_ok | apply unlevels_levels].
Qed.

#[export] Instance sample_zlib_ok : ZlibOk.
Proof.
  split.
  - intros b. cbn. rewrite decide_True by reflexivity. reflexivity.
  - intros b. discriminate.
Qed.

#[export] Instance sample_index_ok : VariantIndexOk.
Proof. split. intros [] []; cbn; intros E; try reflexivity; discriminate. Qed.

#[export] Instance none_ok : RawOk chain.none_type.
Proof. split. apply dec_none_ok. Qed.

#[export] Instance signatures_ok : RawOk (list signature_type).
Proof. split. apply (dec_list_ok _ _ dec_signature_ok). Qed.

#[export] Instance segments_ok : RawOk (list bytes).
Proof. split. apply (dec_list_ok _ _ dec_bytes_ok). Qed.

#[export] Instance trace_vector_ok : RawOk (list transaction_trace).
Proof. split. apply (dec_list_ok _ _ dec_trace_ok). Qed.

End SampleFacts.

Lemma leaf_id_in_trace_ids t : In (leaf_id t) (trace_ids t).
Proof.
  induction t as [i rc ats | i rc ats inner IH] using chain_trace_nested_ind.
  - left. reflexivity.
  - right. exact IH.
Qed.

Section PruneFacts.

Context `{ZlibOk} `{VariantIndexOk}.
Context `{RawOk (list signature_type)} `{RawOk (list bytes)}.
Context `{RawOk (list transaction_trace)}.
Context `{chain.PruneAll} `{RawOk chain.none_type}.

(** The whole run on an entry that [pack] wrote. *)
Lemma prune_run (v : N) traces id_list :
  v <> 0%N -> lengths_fit v traces -> listed_fit id_list traces ->
  let entry := entry_payload v traces in
  exists p0 p' steps,
    prune_traces_steps entry id_list = p0 :: steps /\
    ids p0 = id_list /\ change_position p0 = 0 /\ buffer p0 = entry /\
    Forall (pruner_inv entry) (p0 :: steps) /\
    length steps = length (filter (fun a => has_packed a = true) traces) /\
    last (p0 :: steps) = Some p' /\
    prune_traces entry v id_list = (buffer p', ids p', Ok (changed_region p')) /\
    (Forall (fun a => contains id_list (leaf_id (trace a)) = false) traces ->
       ids p' = id_list /\ change_position p' = 0 /\ buffer p' = entry) /\
    (Exists (fun a => has_packed a = true /\
                      contains id_list (leaf_id (trace a)) = true) traces ->
       change_position p' <> 0).
Proof.
  intros Hv Hfit Hpf entry.
  pose proof (unpack_traces_at v traces [] Hv Hfit) as Hu. rewrite app_nil_r in Hu.
  fold entry in Hu.
  set (base := length (zlib_section (raw_pack
                 (store_view {| context_version := v; wrapped_traces := traces |})))) in *.
  set (p0 := trace_pruner_new entry {| ds_buf := entry; ds_pos := base |} id_list).
  assert (Hentry : entry = zlib_section (raw_pack
                 (store_view {| context_version := v; wrapped_traces := traces |}))
                 ++ sections traces) by (apply entry_payload_layout; exact Hv).
  assert (Hbase : 0 < base /\ base <= length entry).
  { subst base. rewrite Hentry, length_app, length_zlib_section. lia. }
  assert (Hinv0 : pruner_inv entry p0).
  { unfold p0, trace_pruner_new.
    constructor;
      cbn [buffer last_read_pos ids read_strm write_strm change_position ds_pos];
      first [ lia | reflexivity | (intros _; split; reflexivity) | (intros Hc; lia) ]. }
  assert (E0 : drop (read_strm p0) entry = sections traces ++ []).
  { cbn [read_strm p0 trace_pruner_new ds_pos]. subst base.
    rewrite Hentry at 1. rewrite app_nil_r. apply drop_app_length. }
  destruct (for_each_prune_logged entry v traces p0 [] [] Hinv0 E0
              (lengths_fit_sections v _ Hfit) Hpf)
    as (p' & steps & Hrun & Hinv' & Hall & Hcount & Hlast & Hread & Hno & Hkeep & Hany).
  exists p0, p', steps.
  split.
  { unfold prune_traces_steps. rewrite Hu. fold p0. rewrite Hrun. reflexivity. }
  split; [reflexivity |]. split; [reflexivity |]. split; [reflexivity |].
  split; [constructor; assumption |]. split; [exact Hcount |]. split; [exact Hlast |].
  split.
  { unfold prune_traces. destruct (N.ltb_spec 0 v) as [_ | Hlt]; [| lia]. cbn [negb].
    rewrite Hu. fold p0.
    destruct (simulates_prune_run
                (store_view {| context_version := v; wrapped_traces := traces |}) p0 [])
      as [Es Er].
    rewrite Hrun in Es, Er. cbn [fst snd] in Es, Er.
    destruct (for_each_mut (visit_deserialized_trace (@on_read_strm) trace_pruner_call) _ p0)
      as [q r]. cbn [fst snd] in Es, Er. subst q r. reflexivity. }
  split.
  - intros Hnm. destruct (Hno Hnm) as (Hi & Hc & Hb). repeat split; [exact Hi | exact Hc |].
    apply Hb. reflexivity.
  - exact Hany.
Qed.

End PruneFacts.

(* ===================================================================== *)
(** * The pruning run as a function of the traces *)
(* ===================================================================== *)

Section ReadableFacts.

Context `{ZlibOk} `{VariantIndexOk}.
Context `{RawOk (list signature_type)} `{RawOk (list bytes)}.
Context `{RawOk (list transaction_trace)}.
Context `{chain.PruneAll} `{RawOk chain.none_type}.

Lemma zlib_unpack_buffer_readable {A} `{RawOk (list A)} buf pos (x : list A) rest :
  drop pos buf = zlib_bytes x ++ rest ->
  (x <> [] -> fits_u32 (raw_pack x)) ->
  zlib_unpack_buffer [] {| ds_buf := buf; ds_pos := pos |}
  = ({| ds_buf := buf; ds_pos := pos + length (zlib_bytes x) |}, Ok x).
Proof.
  intros E Hfit. destruct x as [| a x].
  - unfold zlib_bytes in *. cbn [is_empty is_empty_vector empty] in *.
    unfold zlib_unpack_buffer.
    erewrite bind_ok by (apply (unpack_u32_at _ _ 0 _ E); reflexivity).
    reflexivity.
  - apply (zlib_unpack_buffer_vector _ _ _ _ E). apply Hfit. discriminate.
Qed.

Lemma unpack_readable buf pos obj rest :
  drop pos buf = section_bytes obj ++ rest ->
  (prunable_segments obj <> [] -> fits_u32 (raw_pack (prunable_segments obj))) ->
  unpack {| ds_buf := buf; ds_pos := pos |}
  = ({| ds_buf := buf; ds_pos := pos + length (section_bytes obj) |}, Ok obj).
Proof.
  intros E Hfit.
  destruct (decide (prunable_segments obj = [])) as [Hs | Hs];
    [| apply (unpack_at _ _ _ _ E (Hfit Hs))].
  unfold unpack, unpack_uint8.
  assert (E1 : exists body, section_bytes obj = [which_index (which obj)] ++ body /\
             drop pos buf = [which_index (which obj)] ++ (body ++ rest)).
  { eexists. split; [reflexivity |]. rewrite E. reflexivity. }
  destruct E1 as (body & Eb & E1).
  assert (Hne1 : [which_index (which obj)] <> []) by discriminate.
  erewrite bind_ok.
  2:{ erewrite bind_ok by (apply (ds_read_at buf pos [_] _ E1); left; exact Hne1).
      reflexivity. }
  erewrite bind_ok by apply set_which_index.
  destruct (drop_prefix _ _ _ _ E1 (or_introl Hne1)) as (Hle & _ & E').
  cbn [length] in Hle, E'. rewrite Eb. clear E E1.
  assert (Hm : forall sigs : list signature_type,
    body = raw_pack sigs ++ zlib_bytes (@nil bytes) ->
    unpack_members {| ds_buf := buf; ds_pos := pos + 1 |}
    = ({| ds_buf := buf; ds_pos := pos + length ([which_index (which obj)] ++ body) |},
       Ok (sigs, []))).
  { intros sigs ->. rewrite <- app_assoc in E'. unfold unpack_members.
    erewrite bind_ok by (apply (ds_unpack_at _ _ _ _ E'); lia).
    destruct (drop_prefix _ _ _ _ E' (or_intror Hle)) as (_ & _ & E'').
    erewrite bind_ok
      by (apply (zlib_unpack_buffer_readable _ _ _ _ E''); intros Hc; contradiction).
    unfold ret. cbn [length app]. rewrite length_app.
    f_equal. f_equal. lia. }
  destruct obj as [sigs segs | data | sigs segs | sigs segs];
    cbn [which prunable_segments section_bytes] in *; subst;
    injection Eb as <-;
    try (erewrite bind_ok by (apply Hm; reflexivity); reflexivity).
  erewrite bind_ok by (apply (ds_unpack_at _ _ _ _ E'); lia).
  unfold ret. cbn [app length]. rewrite <- Nat.add_assoc. reflexivity.
Qed.

End ReadableFacts.

Lemma take_overwrite_below pos k (data buf : bytes) :
  k <= pos -> pos <= length buf ->
  take k (overwrite pos data buf) = take k buf.
Proof.
  intros Hk Hpos. unfold overwrite.
  rewrite take_app_le by (rewrite length_take; lia).
  rewrite take_take. f_equal. lia.
Qed.

Lemma take_overwrite_end pos (data buf : bytes) :
  pos <= length buf ->
  take (pos + length data) (overwrite pos data buf) = take pos buf ++ data.
Proof.
  intros Hpos. unfold overwrite.
  assert (Hl : length (take pos buf) = pos) by (rewrite length_take; lia).
  rewrite take_app_ge by lia. rewrite Hl.
  replace (pos + length data - pos) with (length data) by lia.
  rewrite take_app_length. reflexivity.
Qed.

Section AfterFacts.

Context `{ZlibOk} `{VariantIndexOk}.
Context `{RawOk (list signature_type)} `{RawOk (list bytes)}.
Context `{RawOk (list transaction_trace)}.
Context `{chain.PruneAll} `{RawOk chain.none_type}.

(** One section of a run: the state after is [pruner_after]. *)
Lemma pruner_call_after entry p tr d rest :
  pruner_inv entry p ->
  drop (read_strm p) entry = section_bytes d ++ rest ->
  (prunable_segments d <> [] -> fits_u32 (raw_pack (prunable_segments d))) ->
  (contains (ids p) (trace_id tr) = true ->
   length (section_bytes (prune d)) <= length (section_bytes d)) ->
  (prunable <- on_read_strm unpack ;; trace_pruner_call tr prunable) p
  = (pruner_after p (trace_id tr) d, Ok tr).
Proof.
  intros [Hlen Hsync Hbound Hbehind Hpos Hunread Hunch Hreg] E Hfit Hm.
  destruct p as [B lrp idl rp wp cp]. cbn [buffer last_read_pos ids read_strm write_strm
    change_position] in *. subst lrp.
  unfold pruner_after. cbn [buffer last_read_pos ids read_strm write_strm change_position].
  set (n := length (section_bytes d)).
  assert (EB : drop rp B = section_bytes d ++ rest) by (rewrite Hunread; exact E).
  assert (Hne : section_bytes d <> []) by discriminate.
  destruct (drop_prefix _ _ _ _ EB (or_introl Hne)) as (Hle & Htake & _).
  fold n in Hle, Htake, Hm.
  erewrite bind_ok.
  2:{ unfold on_read_strm. cbn [buffer read_strm].
      rewrite (unpack_readable B rp d rest EB Hfit). reflexivity. }
  fold n. cbn [buffer last_read_pos ids read_strm write_strm change_position ds_buf ds_pos].
  unfold trace_pruner_call.
  erewrite bind_ok by reflexivity.
  cbn [buffer last_read_pos ids read_strm write_strm change_position].
  destruct (contains idl (trace_id tr)) eqn:Hc.
  - specialize (Hm eq_refl).
    erewrite bind_ok.
    2:{ erewrite bind_ok.
        2:{ instantiate (1 := tt).
            instantiate (1 := {| buffer := B; last_read_pos := rp; ids := idl;
                                 read_strm := rp + n; write_strm := wp;
                                 change_position := if cp =? 0 then wp else cp |}).
            destruct (cp =? 0); reflexivity. }
        erewrite bind_ok.
        2:{ unfold on_write_strm.
            cbn [buffer last_read_pos ids read_strm write_strm change_position].
            rewrite (pack_stripped_at (prune d) B wp (prune_stripped d)) by lia.
            reflexivity. }
        reflexivity. }
    reflexivity.
  - destruct (Nat.eqb_spec cp 0) as [Hcp | Hcp].
    + reflexivity.
    + assert (Hdata : length (take (rp + n - rp) (drop rp B)) = n).
      { rewrite length_take, length_drop. lia. }
      erewrite bind_ok.
      2:{ unfold on_write_strm. cbn [buffer write_strm].
          rewrite ds_write_at by (rewrite Hdata; lia). reflexivity. }
      reflexivity.
Qed.

(** What a section does to the state: the invariants hold again, the bytes
    below the write position grow by the section as it is kept, pruned for a
    trace of the list and as it was for another. *)
Lemma pruner_after_inv entry p i d rest :
  pruner_inv entry p -> pruner_frame entry p ->
  drop (read_strm p) entry = section_bytes d ++ rest ->
  (contains (ids p) i = true ->
   length (section_bytes (prune d)) <= length (section_bytes d)) ->
  let p' := pruner_after p i d in
  pruner_inv entry p' /\ pruner_frame entry p' /\
  read_strm p' = read_strm p + length (section_bytes d) /\
  take (write_strm p') (buffer p')
    = take (write_strm p) (buffer p)
      ++ section_bytes (if contains (ids p) i then prune d else d) /\
  ids p' = (if contains (ids p) i then erase_first i (ids p) else ids p).
Proof.
  intros [Hlen Hsync Hbound Hbehind Hpos Hunread Hunch Hreg] [Hbelow Habove] E Hm.
  destruct p as [B lrp idl rp wp cp]. cbn [buffer last_read_pos ids read_strm write_strm
    change_position] in *. subst lrp.
  unfold pruner_after. cbn [buffer last_read_pos ids read_strm write_strm change_position].
  set (n := length (section_bytes d)).
  assert (EB : drop rp B = section_bytes d ++ rest) by (rewrite Hunread; exact E).
  assert (Hne : section_bytes d <> []) by discriminate.
  destruct (drop_prefix _ _ _ _ EB (or_introl Hne)) as (Hle & Htake & _).
  fold n in Hle, Htake, Hm.
  assert (Hm1 := length_section_bytes_pos (prune d)).
  destruct (contains idl i) eqn:Hc.
  - specialize (Hm eq_refl). cbv zeta. cbn [buffer last_read_pos ids read_strm write_strm change_position].
    split; [| split; [| split; [reflexivity | split; [| reflexivity]]]].
    + constructor; cbn [buffer last_read_pos ids read_strm write_strm change_position].
      * rewrite length_overwrite by lia. exact Hlen.
      * reflexivity.
      * lia.
      * lia.
      * lia.
      * rewrite drop_overwrite by lia. apply drop_more. exact Hunread.
      * destruct (Nat.eqb_spec cp 0); lia.
      * intros _. destruct (Nat.eqb_spec cp 0) as [Hz | Hz]; [lia |].
        specialize (Hreg Hz). lia.
    + constructor; cbn [buffer last_read_pos ids read_strm write_strm change_position].
      * destruct (Nat.eqb_spec cp 0) as [Hz | Hz].
        -- destruct (Hunch Hz) as [_ ->]. rewrite take_overwrite_below by lia. reflexivity.
        -- specialize (Hreg Hz). rewrite take_overwrite_below by lia. exact Hbelow.
      * rewrite drop_overwrite by lia. apply drop_more. exact Habove.
    + apply take_overwrite_end. lia.
  - destruct (Nat.eqb_spec cp 0) as [Hcp | Hcp].
    + destruct (Hunch Hcp) as [-> ->].
      cbv zeta. cbn [buffer last_read_pos ids read_strm write_strm change_position].
      replace (rp + (rp + n - rp)) with (rp + n) by lia.
      split; [| split; [| split; [reflexivity | split; [| reflexivity]]]].
      * constructor; cbn [buffer last_read_pos ids read_strm write_strm change_position];
          try lia; try reflexivity.
        intros _. split; reflexivity.
      * constructor; cbn [buffer last_read_pos ids read_strm write_strm change_position];
          reflexivity.
      * rewrite <- Htake. rewrite <- take_take_drop. reflexivity.
    + assert (Hdata : take (rp + n - rp) (drop rp B) = section_bytes d).
      { replace (rp + n - rp) with n by lia. exact Htake. }
      rewrite Hdata. fold n.
      cbv zeta. cbn [buffer last_read_pos ids read_strm write_strm change_position].
      specialize (Hreg Hcp).
      split; [| split; [| split; [reflexivity | split; [| reflexivity]]]].
      * constructor; cbn [buffer last_read_pos ids read_strm write_strm change_position];
          try lia; try reflexivity.
        -- rewrite length_overwrite by (fold n; lia). exact Hlen.
        -- rewrite drop_overwrite by (fold n; lia). apply drop_more. exact Hunread.
      * constructor; cbn [buffer last_read_pos ids read_strm write_strm change_position].
        -- rewrite take_overwrite_below by lia. exact Hbelow.
        -- unfold n. rewrite drop_overwrite by (fold n; lia). apply drop_more. exact Habove.
      * unfold n. apply take_overwrite_end. lia.
Qed.

End AfterFacts.

Lemma to_transaction_trace_pruned `{chain.PruneAll} (v : N) pt t :
  v <> 0%N ->
  to_transaction_trace v (Some (pruned_packed pt)) t = to_transaction_trace v (Some pt) t.
Proof.
  intros Hv.
  induction t as [i rc ats | i rc ats inner IH] using chain_trace_nested_ind.
  - cbn [to_transaction_trace]. destruct (N.eqb_spec v 0); [contradiction | reflexivity].
  - cbn [to_transaction_trace]. rewrite IH. reflexivity.
Qed.

Lemma store_view_plan `{chain.PruneAll} (v : N) traces :
  v <> 0%N ->
  forall id_list,
    store_view {| context_version := v; wrapped_traces := fst (prune_plan id_list traces) |}
    = store_view {| context_version := v; wrapped_traces := traces |}.
Proof.
  intros Hv. unfold store_view. cbn [context_version wrapped_traces].
  induction traces as [| a traces IH]; intros id_list; [reflexivity |].
  cbn [prune_plan]. destruct (packed_trx a) as [pt |] eqn:Ea.
  - destruct (contains id_list (leaf_id (trace a))); cbn [fst map packed_trx trace].
    + rewrite IH, to_transaction_trace_pruned, Ea by exact Hv. reflexivity.
    + rewrite IH. reflexivity.
  - cbn [fst map]. rewrite IH. reflexivity.
Qed.

Section PlainRunFacts.

Context `{ZlibOk} `{VariantIndexOk}.
Context `{RawOk (list signature_type)} `{RawOk (list bytes)}.
Context `{RawOk (list transaction_trace)}.
Context `{chain.PruneAll} `{RawOk chain.none_type}.

Lemma visit_prune_after entry (v : N) (packed : option chain.packed_transaction)
    (t : chain.transaction_trace) p rest :
  let a := {| trace := t; packed_trx := packed |} in
  pruner_inv entry p ->
  drop (read_strm p) entry = trace_section a ++ rest ->
  section_readable a ->
  (contains (ids p) (leaf_id t) = true -> prune_fits a) ->
  visit_deserialized_trace (@on_read_strm) trace_pruner_call
    (to_transaction_trace v packed t) p
  = (match packed with
     | Some pt => pruner_after p (leaf_id t) (chain.get_prunable_data pt)
     | None => p
     end, Ok (to_transaction_trace v packed t)).
Proof.
  intros a Hinv E Hfit Hpf. subst a.
  unfold trace_section, section_readable, prune_fits in *. cbn [packed_trx] in *.
  induction t as [i rc ats | i rc ats inner IH] using chain_trace_nested_ind.
  - rewrite !to_transaction_trace_leaf. cbn [visit_deserialized_trace leaf_id] in *.
    destruct packed as [pt |].
    + rewrite !packed_bytes_layout in Hpf.
      unfold bind at 1. cbn [ret].
      apply (pruner_call_after entry p
               (Build_transaction_trace i rc None _) _ rest Hinv E Hfit Hpf).
    + reflexivity.
  - rewrite !to_transaction_trace_node. cbn [visit_deserialized_trace leaf_id] in *.
    unfold bind at 1. unfold bind at 1. rewrite (IH Hpf). reflexivity.
Qed.

Lemma lengths_fit_readable (v : N) traces :
  lengths_fit v traces -> entry_readable v traces.
Proof.
  intros [Hfit Hsec]. split; [exact Hfit |].
  eapply Forall_impl; [exact Hsec |]. intros a Ha. unfold section_readable.
  cbv beta in Ha. destruct (packed_trx a); [intros _; exact Ha | exact I].
Qed.

Lemma listed_fit_kept id_list traces :
  Forall (fun a => contains id_list (leaf_id (trace a)) = true -> nothing_to_strip a) traces ->
  listed_fit id_list traces.
Proof.
  intros Hk. eapply Forall_impl; [exact Hk |]. intros a Ha Hc. specialize (Ha Hc).
  unfold nothing_to_strip, prune_fits in *. destruct (packed_trx a) as [pt |]; [| exact I].
  destruct Ha as [Hs Hg]. rewrite (prune_kept _ Hs Hg). reflexivity.
Qed.

Lemma prune_plan_kept traces :
  forall id_list,
    Forall (fun a => contains id_list (leaf_id (trace a)) = true -> nothing_to_strip a)
      traces ->
    fst (prune_plan id_list traces) = traces.
Proof.
  induction traces as [| a traces IH]; intros id_list Hk; [reflexivity |].
  inversion Hk as [| ? ? Ha Hr]; subst. cbn [prune_plan].
  destruct (packed_trx a) as [pt |] eqn:Ea.
  - destruct (contains id_list (leaf_id (trace a))) eqn:Hc; cbn [fst].
    + rewrite IH.
      * specialize (Ha eq_refl). unfold nothing_to_strip in Ha. rewrite Ea in Ha.
        destruct Ha as [Hs Hg]. unfold pruned_packed. rewrite (prune_kept _ Hs Hg).
        destruct a as [t packed]. cbn [packed_trx trace] in *. subst packed.
        destruct pt; reflexivity.
      * eapply Forall_impl; [exact Hr |]. intros b Hb Hcb.
        apply Hb, (contains_erase_first _ _ _ Hcb).
    + rewrite IH by exact Hr. reflexivity.
  - cbn [fst]. rewrite IH by exact Hr. reflexivity.
Qed.

(** The traversal of [prune_traces] over the traces of an entry is the fold
    [pruner_run]. *)
Lemma for_each_prune_run entry (v : N) traces :
  forall p rest,
    pruner_inv entry p -> pruner_frame entry p ->
    drop (read_strm p) entry = sections traces ++ rest ->
    Forall section_readable traces ->
    listed_fit (ids p) traces ->
    for_each_mut (visit_deserialized_trace (@on_read_strm) trace_pruner_call)
      (store_view {| context_version := v; wrapped_traces := traces |}) p
    = (pruner_run p traces,
       Ok (store_view {| context_version := v; wrapped_traces := traces |})) /\
    pruner_inv entry (pruner_run p traces) /\
    pruner_frame entry (pruner_run p traces) /\
    read_strm (pruner_run p traces) = read_strm p + length (sections traces) /\
    take (write_strm (pruner_run p traces)) (buffer (pruner_run p traces))
      = take (write_strm p) (buffer p) ++ sections (fst (prune_plan (ids p) traces)) /\
    ids (pruner_run p traces) = snd (prune_plan (ids p) traces).
Proof.
  unfold store_view. cbn [context_version wrapped_traces].
  induction traces as [| a traces IH]; intros p rest Hinv Hframe E Hfit Hpf.
  - cbn [map for_each_mut pruner_run prune_plan fst snd]. unfold sections. cbn [map concat length].
    rewrite app_nil_r, Nat.add_0_r.
    split; [reflexivity |]. split; [exact Hinv |]. split; [exact Hframe |].
    split; [reflexivity |]. split; reflexivity.
  - cbn [map for_each_mut pruner_run prune_plan]. unfold sections in *. cbn [map concat] in *.
    rewrite <- app_assoc in E. inversion Hfit as [| ? ? Hfa Hfr]; subst.
    inversion Hpf as [| ? ? Hpa Hpr]; subst.
    destruct a as [t packed]. cbn beta. cbn [packed_trx trace] in *.
    pose proof (visit_prune_after entry v packed t p _ Hinv E Hfa Hpa) as Hrun1.
    cbv zeta in Hrun1.
    set (p1 := match packed with
               | Some pt => pruner_after p (leaf_id t) (chain.get_prunable_data pt)
               | None => p
               end) in *.
    assert (Hp1 : pruner_inv entry p1 /\ pruner_frame entry p1 /\
                 read_strm p1 = read_strm p
                   + length (trace_section {| trace := t; packed_trx := packed |}) /\
                 take (write_strm p1) (buffer p1)
                   = take (write_strm p) (buffer p)
                     ++ match packed with
                        | Some pt => section_bytes
                            (if contains (ids p) (leaf_id t)
                             then prune (chain.get_prunable_data pt)
                             else chain.get_prunable_data pt)
                        | None => []
                        end /\
                 ids p1 = match packed with
                          | Some pt => if contains (ids p) (leaf_id t)
                                       then erase_first (leaf_id t) (ids p) else ids p
                          | None => ids p
                          end).
    { subst p1. unfold trace_section in *. cbn [packed_trx] in *.
      destruct packed as [pt |].
      - apply (pruner_after_inv entry p _ _ _ Hinv Hframe E).
        unfold prune_fits in Hpa. cbn [packed_trx] in Hpa.
        rewrite !packed_bytes_layout in Hpa. exact Hpa.
      - rewrite app_nil_r. cbn [length]. rewrite Nat.add_0_r.
        split; [exact Hinv |]. split; [exact Hframe |]. split; [reflexivity |].
        split; reflexivity. }
    destruct Hp1 as (Hinv1 & Hframe1 & Hread1 & Htake1 & Hids1).
    assert (E1 : drop (read_strm p1) entry = concat (map trace_section traces) ++ rest).
    { rewrite Hread1.
      apply (drop_prefix _ _ _ _ E (or_intror (inv_bound _ _ Hinv))). }
    assert (Hpf1 : listed_fit (ids p1) traces).
    { eapply Forall_impl; [exact Hpr |]. intros b Hb Hc. apply Hb.
      rewrite Hids1 in Hc. destruct packed as [pt |]; [| exact Hc].
      destruct (contains (ids p) (leaf_id t)); [| exact Hc].
      apply (contains_erase_first _ _ _ Hc). }
    destruct (IH p1 rest Hinv1 Hframe1 E1 Hfr Hpf1)
      as (Hrun & Hinv' & Hframe' & Hread & Htake & Hids).
    split; [| split; [exact Hinv' | split; [exact Hframe' | split; [| split]]]].
    + erewrite bind_ok by exact Hrun1.
      erewrite bind_ok by exact Hrun. reflexivity.
    + rewrite Hread, Hread1, length_app. lia.
    + rewrite Htake, Htake1, Hids1. rewrite <- app_assoc. f_equal.
      destruct packed as [pt |]; [| reflexivity].
      destruct (contains (ids p) (leaf_id t)); reflexivity.
    + rewrite Hids, Hids1. destruct packed as [pt |]; [| reflexivity].
      destruct (contains (ids p) (leaf_id t)); reflexivity.
Qed.

(** [prune_traces] on an entry that [pack] wrote, followed by any bytes. *)
Lemma prune_traces_run (v : N) traces id_list junk :
  v <> 0%N -> entry_readable v traces -> listed_fit id_list traces ->
  let entry := entry_payload v traces ++ junk in
  let plan := prune_plan id_list traces in
  exists p',
    prune_traces entry v id_list = (buffer p', snd plan, Ok (changed_region p')) /\
    pruner_inv entry p' /\ pruner_frame entry p' /\
    write_strm p' = length (entry_payload v (fst plan)) /\
    take (write_strm p') (buffer p') = entry_payload v (fst plan).
Proof.
  intros Hv [Hfit Hsec] Hpf entry plan.
  assert (Hlay : entry_payload v traces
                 = zlib_section (raw_pack
                     (store_view {| context_version := v; wrapped_traces := traces |}))
                   ++ sections traces) by (apply entry_payload_layout; exact Hv).
  set (u := zlib_section (raw_pack
              (store_view {| context_version := v; wrapped_traces := traces |}))) in *.
  assert (Hentry : entry = u ++ sections traces ++ junk).
  { unfold entry. rewrite Hlay, <- app_assoc. reflexivity. }
  assert (Hu : zlib_unpack_buffer (T := list transaction_trace) []
                 {| ds_buf := entry; ds_pos := 0 |}
               = ({| ds_buf := entry; ds_pos := length u |},
                  Ok (store_view {| context_version := v; wrapped_traces := traces |}))).
  { apply (zlib_unpack_buffer_section _ 0 _ [] (sections traces ++ junk));
      [rewrite drop_0; exact Hentry | exact Hfit]. }
  set (p0 := trace_pruner_new entry {| ds_buf := entry; ds_pos := length u |} id_list).
  assert (Hbase : 0 < length u /\ length u <= length entry).
  { rewrite Hentry, length_app. unfold u. rewrite length_zlib_section. lia. }
  assert (Hinv0 : pruner_inv entry p0).
  { unfold p0, trace_pruner_new.
    constructor;
      cbn [buffer last_read_pos ids read_strm write_strm change_position ds_pos];
      first [ lia | reflexivity | (intros _; split; reflexivity) | (intros Hc; lia) ]. }
  assert (Hframe0 : pruner_frame entry p0).
  { unfold p0, trace_pruner_new. constructor; reflexivity. }
  assert (E0 : drop (read_strm p0) entry = sections traces ++ junk).
  { cbn [read_strm p0 trace_pruner_new ds_pos]. rewrite Hentry. apply drop_app_length. }
  destruct (for_each_prune_run entry v traces p0 junk Hinv0 Hframe0 E0 Hsec Hpf)
    as (Hrun & Hinv' & Hframe' & Hread & Htake & Hids).
  exists (pruner_run p0 traces).
  assert (Hplan : entry_payload v (fst plan) = u ++ sections (fst plan)).
  { rewrite (entry_payload_layout v _ Hv). unfold plan.
    rewrite (store_view_plan v traces Hv). reflexivity. }
  assert (Htake0 : take (write_strm p0) (buffer p0) = u).
  { cbn [write_strm buffer p0 trace_pruner_new ds_pos]. rewrite Hentry.
    apply take_app_length. }
  assert (Htake' : take (write_strm (pruner_run p0 traces)) (buffer (pruner_run p0 traces))
                   = entry_payload v (fst plan)).
  { rewrite Htake, Htake0, Hplan. reflexivity. }
  split; [| split; [exact Hinv' | split; [exact Hframe' | split; [| exact Htake']]]].
  - unfold prune_traces. destruct (N.ltb_spec 0 v) as [_ | Hlt]; [| lia]. cbn [negb].
    rewrite Hu. fold p0. rewrite Hrun. rewrite Hids. reflexivity.
  - rewrite <- Htake', length_take.
    pose proof (inv_behind _ _ Hinv'). pose proof (inv_bound _ _ Hinv').
    pose proof (inv_length _ _ Hinv'). lia.
Qed.

End PlainRunFacts.

Lemma carries_partial_has_packed a : carries_partial a = true -> has_packed a = true.
Proof. unfold carries_partial, has_packed. destruct (packed_trx a); [reflexivity | discriminate]. Qed.

Section Claims.

Context `{ZlibOk} `{VariantIndexOk}.
Context `{RawOk (list signature_type)} `{RawOk (list bytes)}.
Context `{RawOk (list transaction_trace)}.
Context `{chain.PruneAll} `{RawOk chain.none_type}.

(** C1 (amended). On an entry written by [pack] at a version other than 0
    (every compressed block shorter than 2^32 bytes, so that its length field
    is exact), and when [prune] does not make the serialized prunable data of
    a trace named in the id list longer, the states of a pruning run, the one
    after the pruner is set up and the one after each prunable section, all
    have the write position at or before the read position, and the bytes
    from the read position on are still those of the entry. There is one
    state per section and one for the start, and the last one is the state
    [prune_traces] returns from. *)
Theorem prune_write_cursor_behind_read_cursor (v : N)
    (traces : list augmented_transaction_trace) (id_list : list transaction_id_type) :
  v <> 0%N -> lengths_fit v traces -> listed_fit id_list traces ->
  length (prune_traces_steps (entry_payload v traces) id_list)
    = S (length (filter (fun a => has_packed a = true) traces)) /\
  Forall (fun p => write_strm p <= read_strm p /\
                   drop (read_strm p) (buffer p)
                     = drop (read_strm p) (entry_payload v traces))
         (prune_traces_steps (entry_payload v traces) id_list) /\
  exists p_end,
    last (prune_traces_steps (entry_payload v traces) id_list) = Some p_end /\
    prune_traces (entry_payload v traces) v id_list
      = (buffer p_end, ids p_end, Ok (changed_region p_end)).
Proof.
  intros Hv Hfit Hpf.
  destruct (prune_run v traces id_list Hv Hfit Hpf)
    as (p0 & p' & steps & Hsteps & _ & _ & _ & Hall & Hcount & Hlast & Hres & _).
  rewrite Hsteps. split; [cbn [length]; rewrite Hcount; reflexivity |].
  split.
  - eapply Forall_impl; [exact Hall |]. intros p Hp. cbv beta.
    split; [apply (inv_behind _ _ Hp) | apply (inv_unread _ _ Hp)].
  - exists p'. split; assumption.
Qed.

(** C6 (amended). Pruning an entry written by [pack] in which the traces
    named in the id list carry prunable data with neither a signature nor a
    context-free segment, as a Partial with both sequences empty does, does
    not fail: [prune] keeps such a value and its section is written back byte
    for byte, so the buffer is the entry as it was; the ids that were used
    leave the list; and when one of the named traces carries the Partial
    case, the region that is returned is not empty and ends where the entry
    ends. *)
Theorem prune_traces_partial_is_pruned (v : N)
    (traces : list augmented_transaction_trace) (id_list : list transaction_id_type) :
  v <> 0%N -> lengths_fit v traces ->
  Forall (fun a => contains id_list (leaf_id (trace a)) = true -> nothing_to_strip a)
    traces ->
  exists region,
    prune_traces (entry_payload v traces) v id_list
      = (entry_payload v traces, snd (prune_plan id_list traces), Ok region) /\
    (Exists (fun a => carries_partial a = true /\
                      contains id_list (leaf_id (trace a)) = true) traces ->
     0 < fst region < snd region /\ snd region = length (entry_payload v traces)).
Proof.
  intros Hv Hfit Hk.
  pose proof (listed_fit_kept _ _ Hk) as Hpf.
  destruct (prune_run v traces id_list Hv Hfit Hpf)
    as (p0 & q & steps & _ & _ & _ & _ & Hall & _ & Hlast & Hresq & _ & Hany).
  assert (Hinvq : pruner_inv (entry_payload v traces) q).
  { rewrite Forall_forall in Hall. apply Hall, last_Some_elem_of, Hlast. }
  destruct (prune_traces_run v traces id_list [] Hv (lengths_fit_readable v _ Hfit) Hpf)
    as (p' & Hres & Hinv & _ & Hwp & Htake).
  cbv zeta in Hres, Hinv, Hwp, Htake.
  rewrite (prune_plan_kept traces id_list Hk) in Hwp, Htake.
  rewrite app_nil_r in Hres, Hinv.
  assert (Hbuf : buffer p' = entry_payload v traces).
  { rewrite <- Htake, Hwp. symmetry. apply take_ge.
    rewrite (inv_length _ _ Hinv). lia. }
  exists (changed_region p'). split; [rewrite Hres, Hbuf; reflexivity |].
  intros Hex.
  assert (Hcq : change_position q <> 0).
  { apply Hany. eapply Exists_impl; [exact Hex |]. intros a [Hp Hc].
    split; [apply carries_partial_has_packed, Hp | exact Hc]. }
  assert (Hreg : changed_region p' = changed_region q) by congruence.
  pose proof (inv_region _ _ Hinvq Hcq) as Hlt.
  unfold changed_region in Hreg |- *.
  destruct (Nat.eqb_spec (change_position q) 0) as [| _]; [contradiction |].
  destruct (Nat.eqb_spec (change_position p') 0) as [Hz | Hnz].
  - injection Hreg as Hc _. congruence.
  - injection Hreg as Hc Hw. cbn [fst snd]. lia.
Qed.

(** C10. When no id of the list is the id of a trace of the entry, nested
    traces included, [prune_traces] leaves the entry and the id list as they
    are and returns the region (0, 0). *)
Theorem prune_traces_no_match (v : N)
    (traces : list augmented_transaction_trace) (id_list : list transaction_id_type) :
  v <> 0%N -> lengths_fit v traces ->
  Forall (fun a => Forall (fun i => contains id_list i = false) (trace_ids (trace a)))
         traces ->
  prune_traces (entry_payload v traces) v id_list
  = (entry_payload v traces, id_list, Ok (0, 0)).
Proof.
  intros Hv Hfit Hnm.
  assert (Hleaf : Forall (fun a => contains id_list (leaf_id (trace a)) = false) traces).
  { eapply Forall_impl; [exact Hnm |]. intros a Ha. cbv beta.
    rewrite Forall_forall in Ha. apply Ha, list_elem_of_In, leaf_id_in_trace_ids. }
  assert (Hpf : listed_fit id_list traces).
  { eapply Forall_impl; [exact Hleaf |]. intros a Ha Hc. congruence. }
  destruct (prune_run v traces id_list Hv Hfit Hpf)
    as (p0 & p' & steps & _ & _ & _ & _ & _ & _ & _ & Hres & Hno & _).
  destruct (Hno Hleaf) as (Hi & Hc & Hb).
  rewrite Hres, Hi, Hb. unfold changed_region. rewrite Hc. reflexivity.
Qed.

End Claims.

(** C2 (amended). The bytes [pack] writes for [prune obj] are not more than
    those it writes for [obj] when [obj] has a signature whenever it has a
    context-free segment, and the None record that takes the place of a value
    with signatures is serialized to no more bytes than those signatures:
    the two facts the comment on [trace_pruner::operator()] names. *)
Theorem prune_never_grows (Z : Zlib) (V : VariantIndex) (PA : chain.PruneAll)
    (PN : RawPack chain.none_type)
    (PS : RawPack (list signature_type)) (PB : RawPack (list bytes))
    (obj : chain.prunable_data_type) :
  (prunable_segments obj <> [] -> prunable_signatures obj <> []) ->
  (prunable_signatures obj <> [] ->
   length (raw_pack (chain.prune_all_none obj))
   <= length (raw_pack (prunable_signatures obj))) ->
  length (packed_bytes (prune obj)) <= length (packed_bytes obj).
Proof.
  intros Hsegs Hsigs. rewrite !packed_bytes_layout. apply section_bytes_prune; assumption.
Qed.

(* ===================================================================== *)
(** * Further properties: the accumulator *)
(* ===================================================================== *)

Lemma collect_traces_resolve transactions :
  forall traces c,
    collect_traces transactions traces c
    = match resolve_all c transactions with
      | Some found => (c, Ok (traces ++ found))
      | None => (c, Err missing_trace)
      end.
Proof.
  induction transactions as [| r rest IH]; intros traces c.
  - cbn. rewrite app_nil_r. reflexivity.
  - cbn [collect_traces resolve_all]. unfold bind at 1, gets at 1.
    unfold resolve.
    change (match r with chain.trx_id i => i | chain.trx_packed pt => chain.id pt end)
      with (receipt_id r).
    destruct (cached_traces c !! receipt_id r) as [found |]; [| reflexivity].
    unfold EOS_ASSERT.
    destruct (bool_decide (is_Some (chain.receipt (trace found)))); [| reflexivity].
    unfold bind at 1, ret at 1. rewrite IH.
    destruct (resolve_all c rest) as [l |]; [| reflexivity].
    rewrite <- app_assoc. reflexivity.
Qed.

Lemma prepare_traces_resolve_all (transactions : list chain.transaction_receipt_trx)
    (c : trace_converter) :
  prepare_traces transactions c
  = match resolve_all c transactions with
    | Some found =>
        ({| cached_traces := ∅; onblock_trace := None |},
         Ok (match onblock_trace c with Some t => [t] | None => [] end ++ found))
    | None => (c, Err missing_trace)
    end.
Proof.
  unfold prepare_traces. unfold bind at 1, gets at 1.
  unfold bind at 1. rewrite collect_traces_resolve.
  destruct (resolve_all c transactions); reflexivity.
Qed.

(** The result of [prepare_traces]: the on-block trace, if there is one, then
    the cached trace of each block transaction in the order of the block; a
    block transaction that does not resolve to a cached trace with a receipt
    makes the call fail with the accumulator as it was. *)
Theorem prepare_traces_in_block_order (transactions : list chain.transaction_receipt_trx)
    (c : trace_converter) :
  (forall found, Forall2 (fun r a => resolve c r = Some a) transactions found ->
     prepare_traces transactions c
     = ({| cached_traces := ∅; onblock_trace := None |},
        Ok (match onblock_trace c with Some t => [t] | None => [] end ++ found)))
  /\ (Exists (fun r => resolve c r = None) transactions ->
      prepare_traces transactions c = (c, Err missing_trace)).
Proof.
  rewrite prepare_traces_resolve_all. split.
  - intros found Hall. induction Hall as [| r a rest found' Hr _ IH]; [reflexivity |].
    cbn [resolve_all]. rewrite Hr.
    destruct (resolve_all c rest) as [l |]; [| discriminate].
    injection IH as IH. apply app_inv_head in IH. subst l. reflexivity.
  - intros Hex. induction Hex as [r rest Hr | r rest _ IH]; cbn [resolve_all].
    + rewrite Hr. reflexivity.
    + destruct (resolve c r); [| reflexivity].
      destruct (resolve_all c rest); [discriminate | reflexivity].
Qed.

Section AccumulatorFacts.

Variables (system_account_name onblock active_name : N).

Abbreviation add := (add_transaction system_account_name onblock active_name).
Abbreviation onblock_p := (is_onblock system_account_name onblock active_name).

Lemma add_transaction_cached (t : chain.transaction_trace)
    (transaction : option chain.packed_transaction) (c : trace_converter) :
  is_Some (chain.receipt t) -> onblock_p t = false ->
  fst (add t transaction c)
  = {| cached_traces := <[cache_key t := {| trace := t; packed_trx := transaction |}]>
                          (cached_traces c);
       onblock_trace := onblock_trace c |}.
Proof.
  intros [rc Hrc] Hnb. unfold add_transaction, cache_key. rewrite Hrc, Hnb.
  destruct (chain.failed_dtrx_trace t); reflexivity.
Qed.

(** A trace without a receipt is dropped; an on-block trace only replaces the
    on-block slot; any other trace only sets the cache slot of its key, the id
    of its failed sub-transaction when it has one. *)
Theorem add_transaction_slots (t : chain.transaction_trace)
    (transaction : option chain.packed_transaction) (c : trace_converter) :
  snd (add t transaction c) = Ok tt /\
  (chain.receipt t = None -> fst (add t transaction c) = c) /\
  (is_Some (chain.receipt t) -> onblock_p t = true ->
     cached_traces (fst (add t transaction c)) = cached_traces c /\
     onblock_trace (fst (add t transaction c))
       = Some {| trace := t; packed_trx := transaction |}) /\
  (is_Some (chain.receipt t) -> onblock_p t = false ->
     onblock_trace (fst (add t transaction c)) = onblock_trace c /\
     cached_traces (fst (add t transaction c)) !! cache_key t
       = Some {| trace := t; packed_trx := transaction |} /\
     forall k, k <> cache_key t ->
       cached_traces (fst (add t transaction c)) !! k = cached_traces c !! k).
Proof.
  unfold add_transaction, cache_key.
  destruct (chain.receipt t) as [rc |].
  - destruct (is_onblock _ _ _ t).
    + repeat split; try discriminate.
    + destruct (chain.failed_dtrx_trace t) as [failed |]; cbn;
        (split; [reflexivity |]); (split; [discriminate |]);
        (split; [discriminate |]); intros _ _;
        (split; [reflexivity |]); (split; [apply lookup_insert_eq |]);
        intros k Hk; apply lookup_insert_ne; congruence.
  - cbn. split; [reflexivity |]. split; [reflexivity |].
    split; intros [x Hx]; discriminate.
Qed.

(** [add_transaction] keeps every stored trace receipted. *)
Theorem add_transaction_all_receipted (t : chain.transaction_trace)
    (transaction : option chain.packed_transaction) (c : trace_converter) :
  all_receipted c -> all_receipted (fst (add t transaction c)).
Proof.
  intros [Hc Ho]. unfold add_transaction.
  destruct (chain.receipt t) as [rc |] eqn:Hrc; [| split; assumption].
  assert (Hr : is_Some (chain.receipt t)) by (rewrite Hrc; eexists; reflexivity).
  destruct (is_onblock _ _ _ t).
  - split; cbn; [exact Hc |]. intros a [= <-]. exact Hr.
  - destruct (chain.failed_dtrx_trace t) as [failed |]; split; cbn; try exact Ho;
      intros k a; rewrite lookup_insert; case_decide;
        try (intros [= <-]; exact Hr); apply Hc.
Qed.

(** Caching a receipted trace that is not the on-block one and assembling the
    block that names its key gives that trace back, after the on-block trace,
    and empties the accumulator. *)
Theorem add_then_prepare (t : chain.transaction_trace)
    (transaction : option chain.packed_transaction) (c : trace_converter) :
  is_Some (chain.receipt t) -> onblock_p t = false ->
  prepare_traces [chain.trx_id (cache_key t)] (fst (add t transaction c))
  = ({| cached_traces := ∅; onblock_trace := None |},
     Ok (match onblock_trace c with Some t => [t] | None => [] end
         ++ [{| trace := t; packed_trx := transaction |}])).
Proof.
  intros Hr Hnb.
  rewrite prepare_traces_resolve_all, (add_transaction_cached t transaction c Hr Hnb).
  cbn [resolve_all]. unfold resolve at 1. cbn [receipt_id cached_traces onblock_trace].
  rewrite lookup_insert_eq. cbn [trace]. rewrite bool_decide_true by exact Hr.
  reflexivity.
Qed.

End AccumulatorFacts.

(** On an accumulator whose traces are all receipted, as [add_transaction]
    leaves it, [prepare_traces] fails exactly when some block transaction
    names an id that is not cached. *)
Theorem prepare_traces_fails_iff_missing (transactions : list chain.transaction_receipt_trx)
    (c : trace_converter) :
  all_receipted c ->
  (snd (prepare_traces transactions c) = Err missing_trace <->
   Exists (fun r => cached_traces c !! receipt_id r = None) transactions) /\
  ((exists traces, snd (prepare_traces transactions c) = Ok traces) <->
   Forall (fun r => is_Some (cached_traces c !! receipt_id r)) transactions).
Proof.
  intros [Hc _]. rewrite prepare_traces_resolve_all.
  assert (Hres : forall r, resolve c r = cached_traces c !! receipt_id r).
  { intros r. unfold resolve. destruct (cached_traces c !! receipt_id r) as [a |] eqn:E;
      [| reflexivity]. rewrite bool_decide_true by (eapply Hc; exact E). reflexivity. }
  induction transactions as [| r rest IH].
  - cbn. split; split.
    + discriminate.
    + intros Hex. inversion Hex.
    + constructor.
    + intros _. eexists. reflexivity.
  - cbn [resolve_all]. rewrite Hres.
    destruct (cached_traces c !! receipt_id r) as [a |] eqn:E; cbn.
    + destruct (resolve_all c rest) as [l |] eqn:El; cbn in *.
      * destruct IH as [[I1 I2] [I3 I4]]. split; split.
        -- discriminate.
        -- intros Hex. inversion Hex as [? ? Hx | ? ? Hx]; subst; [congruence |].
           specialize (I2 Hx). discriminate.
        -- intros _. constructor; [rewrite E; eexists; reflexivity | apply I3].
           eexists. reflexivity.
        -- intros _. eexists. reflexivity.
      * destruct IH as [[I1 I2] [I3 I4]]. split; split.
        -- intros _. right. apply I1. reflexivity.
        -- reflexivity.
        -- intros [t Ht]. discriminate.
        -- intros Hall. inversion Hall as [| ? ? _ Hr]; subst.
           destruct (I4 Hr) as [t Ht]. discriminate.
    + split; split.
      * intros _. left. exact E.
      * reflexivity.
      * intros [t Ht]. discriminate.
      * intros Hall. inversion Hall as [| ? ? [x Hx] _]; subst. congruence.
Qed.

Section PackEntryFacts.

Context `{Zlib} `{VariantIndex}.
Context `{RawPack (list signature_type)} `{RawPack (list bytes)}.
Context `{RawPack (list transaction_trace)}.
Context `{chain.PruneAll} `{RawPack chain.none_type}.

Lemma pack_entry_layout (version : N) traces f :
  at_end f ->
  let unprunable :=
    zlib_section (raw_pack (store_view {| context_version := version;
                                          wrapped_traces := traces |})) in
  pack_entry version traces f
  = (append (if (version =? 0)%N then unprunable
             else le32 (uint32 (N.of_nat (length (unprunable ++ sections traces))))
                    ++ unprunable ++ sections traces) f, Ok tt).
Proof.
  intros E. cbv zeta. unfold pack_entry. destruct (version =? 0)%N.
  - unfold pack_unprunable. rewrite zlib_pack_at_end by exact E. reflexivity.
  - erewrite bind_ok by (apply length_writer_open_at_end; exact E).
    unfold scoped, pack_unprunable.
    erewrite bind_ok by (apply zlib_pack_at_end; apply at_end_append; exact E).
    rewrite for_each_packed_transaction_at_end by (do 2 apply at_end_append; exact E).
    rewrite append_append.
    rewrite (length_writer_close_at_end f _ E). reflexivity.
Qed.

Lemma pack_entry_at_end (version : N) traces f :
  at_end f ->
  pack_entry version traces f = (append (encode version traces) f, Ok tt).
Proof.
  intros E. unfold encode.
  rewrite (pack_entry_layout version traces {| file_data := []; file_pos := 0 |})
    by reflexivity.
  apply pack_entry_layout, E.
Qed.

(** [trace_converter::pack] on a file positioned at its end. When every block
    transaction resolves to a cached trace with a receipt, the file gains the
    entry of the on-block trace and the resolved traces, and the accumulator
    is empty afterwards. When one does not, the exception leaves before
    anything is written: the file and the accumulator are as before. *)
Theorem trace_converter_pack_appends (transactions : list chain.transaction_receipt_trx)
    (version : N) (c : trace_converter) (f : cfile) :
  at_end f ->
  trace_converter_pack transactions version (c, f)
  = match resolve_all c transactions with
    | Some found =>
        (({| cached_traces := ∅; onblock_trace := None |},
          append (encode version
                    (match onblock_trace c with Some t => [t] | None => [] end ++ found)) f),
         Ok tt)
    | None => ((c, f), Err missing_trace)
    end.
Proof.
  intros E. unfold trace_converter_pack, bind, on_fst, on_snd. cbn [fst snd].
  rewrite prepare_traces_resolve_all.
  destruct (resolve_all c transactions) as [found |]; [| reflexivity].
  cbn [fst snd]. rewrite pack_entry_at_end by exact E. reflexivity.
Qed.

End PackEntryFacts.

(* ===================================================================== *)
(** * Further properties: compression.hpp *)
(* ===================================================================== *)

Lemma overwrite_same_length pos (a a' b buf : bytes) :
  length a' = length a -> pos + length a + length b <= length buf ->
  overwrite pos a' (overwrite pos (a ++ b) buf) = overwrite pos (a' ++ b) buf.
Proof.
  intros Ha Hle. unfold overwrite.
  assert (Hl : length (take pos buf) = pos) by (rewrite length_take; lia).
  set (D := drop (pos + length (a ++ b)) buf).
  replace (drop (pos + length (a' ++ b)) buf) with D
    by (unfold D; rewrite !length_app, Ha; reflexivity).
  rewrite take_app_length' by (symmetry; exact Hl).
  rewrite drop_app_ge by lia. rewrite Hl.
  replace (pos + length a' - pos) with (length a) by lia.
  rewrite <- !app_assoc. rewrite drop_app_length. reflexivity.
Qed.

(** The length writer around a body that appends [c] to a file positioned at
    its end: the file gains the length of [c] as a [uint32_t], truncated to 32
    bits, then [c], and the position is back at the end. *)
Theorem length_writer_patches_file (body : M cfile unit) (c : bytes) (f : cfile) :
  at_end f ->
  (forall g, at_end g -> body g = (append c g, Ok tt)) ->
  (start_pos <- length_writer_open ;; scoped body (length_writer_close start_pos)) f
  = (append (le32 (uint32 (N.of_nat (length c))) ++ c) f, Ok tt).
Proof.
  intros E Hbody.
  erewrite bind_ok by (apply length_writer_open_at_end; exact E).
  unfold scoped. rewrite Hbody by (apply at_end_append; exact E).
  rewrite (length_writer_close_at_end f c E). reflexivity.
Qed.

(** The same in a memory buffer with room for the section: the bytes go in
    place from the position on and nothing else of the buffer changes. *)
Theorem length_writer_patches_buffer (c buf : bytes) (pos : nat) :
  pos + 4 + length c <= length buf ->
  (start_pos <- length_writer_open ;; scoped (write c) (length_writer_close start_pos))
    {| ds_buf := buf; ds_pos := pos |}
  = ({| ds_buf := overwrite pos (le32 (uint32 (N.of_nat (length c))) ++ c) buf;
        ds_pos := pos + 4 + length c |}, Ok tt).
Proof.
  intros Hle. unfold length_writer_open.
  erewrite bind_ok.
  2:{ erewrite bind_ok by (apply (ds_write_at (le32 0)); cbn [length le32]; lia).
      reflexivity. }
  cbn [tellp datastream_ostream ds_pos length le32].
  unfold scoped. change (write (S := datastream)) with ds_write.
  rewrite ds_write_at by (rewrite length_overwrite; cbn [length le32]; lia).
  unfold length_writer_close, bind, gets, modify.
  cbn [tellp seek datastream_ostream ds_pos ds_buf].
  change (write (S := datastream)) with ds_write.
  replace (pos + 4 - 4) with pos by lia.
  replace (pos + 4 + length c - (pos + 4)) with (length c) by lia.
  rewrite ds_write_at
    by (rewrite !length_overwrite; rewrite ?length_overwrite; cbn [length le32]; lia).
  cbn [ds_buf ds_pos].
  rewrite (overwrite_overwrite pos (le32 0) c) by (cbn [length le32]; lia).
  rewrite (overwrite_same_length pos (le32 0)) by (cbn [length le32]; lia).
  reflexivity.
Qed.

Section CompressionFacts.

Context `{ZlibOk}.

(** What [zlib_pack] appends to a file is read back by [zlib_unpack] from the
    buffer: it returns the object that was packed and stops right after the
    section. *)
Theorem zlib_pack_unpack_round_trip {T} `{RawOk T} `{IsEmpty T} (x obj : T) (f : cfile) :
  at_end f -> is_empty x = false -> fits_u32 (raw_pack x) ->
  zlib_unpack_buffer obj {| ds_buf := file_data (fst (zlib_pack x f)); ds_pos := file_pos f |}
  = ({| ds_buf := file_data (fst (zlib_pack x f));
        ds_pos := file_pos (fst (zlib_pack x f)) |}, Ok x).
Proof.
  intros E Hne Hfit.
  rewrite zlib_pack_at_end by exact E. unfold zlib_bytes. rewrite Hne.
  cbn [fst append file_data file_pos]. unfold at_end in E. rewrite E.
  assert (Ed : drop (length (file_data f)) (file_data f ++ zlib_section (raw_pack x))
               = zlib_section (raw_pack x) ++ []).
  { rewrite drop_app_length, app_nil_r. reflexivity. }
  apply (zlib_unpack_buffer_section _ _ _ _ _ Ed Hfit).
Qed.

End CompressionFacts.

(** A section whose length field announces more bytes than the buffer still
    holds: [zlib_unpack] from the buffer fails with the out-of-range exception
    once the four bytes of the length are read, whatever the codec. *)
Theorem zlib_unpack_beyond_buffer {T} (Z : Zlib) (U : RawUnpack T) (obj : T)
    (buf rest : bytes) (pos : nat) (n : N) :
  drop pos buf = le32 n ++ rest -> (n < 4294967296)%N ->
  length rest < N.to_nat n ->
  zlib_unpack_buffer obj {| ds_buf := buf; ds_pos := pos |}
  = ({| ds_buf := buf; ds_pos := pos + 4 |}, Err out_of_range_exception).
Proof.
  intros E Hn Hshort.
  assert (Hne4 : le32 n <> []) by discriminate.
  destruct (drop_prefix _ _ _ _ E (or_introl Hne4)) as (Hle & _ & E').
  cbn [length le32] in Hle, E'.
  assert (Hrest : length buf - (pos + 4) = length rest).
  { rewrite <- E', length_drop. reflexivity. }
  unfold zlib_unpack_buffer.
  erewrite bind_ok by (apply (unpack_u32_at _ _ _ _ E Hn)).
  destruct (N.eqb_spec n 0) as [-> | _]; [cbn in Hshort; lia |].
  unfold bind, gets, EOS_ASSERT, ds_remaining. cbn [ds_buf ds_pos].
  rewrite bool_decide_false by lia. reflexivity.
Qed.

(** Reads through a bounded source: when a run of reads succeeds, the budget
    has gone down by exactly the bytes asked for; a run that asks for more than
    the budget in total does not succeed, whatever the wrapped stream. *)
Theorem restricted_reads_budget {S} `{IStream S} (ns : list nat)
    (r : restriced_data_source S) :
  (forall r' bs, restricted_reads ns r = (r', Ok bs) ->
     remaining r' + sum_list ns = remaining r) /\
  (remaining r < sum_list ns -> exists e, snd (restricted_reads ns r) = Err e).
Proof.
  revert r. induction ns as [| n ns IH]; intros r; cbn [restricted_reads].
  - change (sum_list []) with 0. split.
    + intros r' bs [= <- _]. lia.
    + intros Hlt. lia.
  - change (sum_list (n :: ns)) with (n + sum_list ns).
    unfold bind at 1 3. unfold restricted_read at 1 2.
    destruct (decide (n <= remaining r)) as [Hle | Hgt].
    + cbn [strm remaining].
      destruct (read n (strm r)) as [s' [b | e]].
      * set (r1 := {| strm := s'; remaining := remaining r - n |}).
        destruct (IH r1) as [IH1 IH2]. unfold bind.
        destruct (restricted_reads ns r1) as [r2 [bs | e]] eqn:Er.
        -- split.
           ++ intros r' bs' [= <- _]. specialize (IH1 r2 bs eq_refl).
              subst r1. cbn [remaining] in IH1. lia.
           ++ intros Hlt. destruct IH2 as [e He];
                [subst r1; cbn [remaining]; lia |]. discriminate.
        -- split; [discriminate |]. intros _. eexists. reflexivity.
      * split; [discriminate |]. intros _. eexists. reflexivity.
    + split; [discriminate |]. intros _. eexists. reflexivity.
Qed.

(* ===================================================================== *)
(** * Further properties: prunable sections and the entry *)
(* ===================================================================== *)

(** [prune] leaves neither a signature nor a context-free segment, keeps the
    case of a value that has none of either, turns every other value into the
    None case, with the record [prune_all] makes of it, and pruning twice is
    pruning once. *)
Theorem prune_strips (PA : chain.PruneAll) (obj : chain.prunable_data_type) :
  prunable_signatures (prune obj) = [] /\
  prunable_segments (prune obj) = [] /\
  (prunable_signatures obj = [] -> prunable_segments obj = [] -> prune obj = obj) /\
  (prunable_signatures obj <> [] \/ prunable_segments obj <> [] ->
     prune obj = chain.none (chain.prune_all_none obj)) /\
  prune (prune obj) = prune obj.
Proof.
  destruct obj as [sigs segs | data | sigs segs | sigs segs]; cbn [prune];
    try (repeat split; first [reflexivity | intros []; contradiction]);
    destruct sigs as [| s sigs], segs as [| g segs]; cbn;
    repeat split; try reflexivity; try discriminate;
    intros [Hc | Hc]; contradiction.
Qed.

(** [for_each_packed_transaction] calls the function once for each trace that
    comes with a packed transaction, in the order of the vector, however deep
    the failed sub-transactions are nested, and for no other trace. *)
Theorem for_each_packed_transaction_once {St} (lambda : chain.packed_transaction -> M St unit)
    (traces : list augmented_transaction_trace) (s : St) :
  for_each_packed_transaction traces lambda s
  = for_each lambda (omap packed_trx traces) s.
Proof.
  unfold for_each_packed_transaction. revert s.
  induction traces as [| a traces IH]; intros s; [reflexivity |].
  cbn [for_each omap list_omap]. fold (omap packed_trx traces).
  unfold bind at 1. rewrite for_each_packed_transaction_in_leaf.
  destruct (packed_trx a) as [pt |].
  - cbn [for_each]. unfold bind.
    destruct (lambda pt s) as [s' [[] | e]]; [apply IH | reflexivity].
  - apply IH.
Qed.

Section SectionFacts.

Context `{ZlibOk} `{VariantIndexOk}.
Context `{RawOk (list signature_type)} `{RawOk (list bytes)}.
Context `{chain.PruneAll} `{RawOk chain.none_type}.

(** What [pack] appends to a file for a prunable data, [unpack] reads back
    from the buffer: the same value, and the read position stops where the
    file ends. *)
Theorem pack_unpack_round_trip (obj : chain.prunable_data_type) (f : cfile) :
  at_end f -> fits_u32 (raw_pack (prunable_segments obj)) ->
  unpack {| ds_buf := file_data (fst (pack obj f)); ds_pos := file_pos f |}
  = ({| ds_buf := file_data (fst (pack obj f)); ds_pos := file_pos (fst (pack obj f)) |},
     Ok obj).
Proof.
  intros E Hfit. rewrite pack_at_end by exact E.
  cbn [fst append file_data file_pos]. unfold at_end in E. rewrite E.
  apply (unpack_at _ _ _ []); [| exact Hfit].
  rewrite drop_app_length, app_nil_r. reflexivity.
Qed.

End SectionFacts.

Section EntryFacts.

Context `{Zlib} `{VariantIndex}.
Context `{RawPack (list signature_type)} `{RawPack (list bytes)}.
Context `{RawPack (list transaction_trace)}.
Context `{chain.PruneAll} `{RawPack chain.none_type}.

(** The bytes of an entry. At version 0: the 32-bit length of the compressed
    serialization of the traces, then the compressed bytes. At a later
    version: a 32-bit length that counts everything after it, then the
    unprunable section (its own 32-bit length and the compressed traces), then
    one prunable section for each trace that has a packed transaction, in the
    order of the traces. *)
Theorem encode_layout (version : N) (traces : list augmented_transaction_trace) :
  let unprunable :=
    raw_pack (store_view {| context_version := version; wrapped_traces := traces |}) in
  (version = 0%N -> encode version traces = zlib_section unprunable) /\
  (version <> 0%N ->
     encode version traces
     = le32 (uint32 (N.of_nat (length (zlib_section unprunable ++ sections traces))))
       ++ zlib_section unprunable ++ sections traces).
Proof.
  cbv zeta. split.
  - intros ->. unfold encode, pack_entry. cbn [N.eqb]. unfold pack_unprunable.
    rewrite zlib_pack_at_end by reflexivity. reflexivity.
  - intros Hv. unfold encode, pack_entry.
    destruct (N.eqb_spec version 0) as [| _]; [contradiction |].
    set (f0 := {| file_data := []; file_pos := 0 |}).
    assert (E0 : at_end f0) by reflexivity.
    erewrite bind_ok by (apply length_writer_open_at_end; exact E0).
    unfold scoped, pack_unprunable.
    erewrite bind_ok by (apply zlib_pack_at_end; apply at_end_append; exact E0).
    rewrite for_each_packed_transaction_at_end by (do 2 apply at_end_append; exact E0).
    rewrite append_append.
    rewrite (length_writer_close_at_end f0 _ E0).
    unfold zlib_bytes. cbn [is_empty is_empty_wrapper append file_data fst f0].
    reflexivity.
Qed.

End EntryFacts.


Section PlanFacts.

Context `{chain.PruneAll}.

Lemma prune_plan_ids_subset traces :
  forall id_list j,
    contains (snd (prune_plan id_list traces)) j = true -> contains id_list j = true.
Proof.
  induction traces as [| a traces IH]; intros id_list j; cbn [prune_plan]; [tauto |].
  destruct (packed_trx a) as [pt |].
  - destruct (contains id_list (leaf_id (trace a))); cbn [snd]; intros Hc.
    + apply (contains_erase_first (leaf_id (trace a))), IH, Hc.
    + apply IH, Hc.
  - cbn [snd]. apply IH.
Qed.

Lemma prune_prune obj : prune (prune obj) = prune obj.
Proof.
  destruct obj as [sigs segs | | sigs segs | sigs segs]; cbn [prune]; try reflexivity;
    destruct (empty sigs && empty segs) eqn:E; cbn [prune]; try rewrite E; reflexivity.
Qed.

Lemma pruned_packed_idempotent pt : pruned_packed (pruned_packed pt) = pruned_packed pt.
Proof.
  unfold pruned_packed. cbn. f_equal. apply prune_prune.
Qed.

(** Pruning what a run pruned, with ids that the run left, prunes nothing
    new. *)
Lemma prune_plan_stable traces :
  forall id_list ids2,
    (forall j, contains ids2 j = true ->
               contains (snd (prune_plan id_list traces)) j = true) ->
    fst (prune_plan ids2 (fst (prune_plan id_list traces))) = fst (prune_plan id_list traces).
Proof.
  induction traces as [| a traces IH]; intros id_list ids2 Hsub; [reflexivity |].
  cbn [prune_plan] in *. destruct (packed_trx a) as [pt |] eqn:Ea.
  - destruct (contains id_list (leaf_id (trace a))) eqn:Hc; cbn [fst snd] in *.
    + cbn [prune_plan packed_trx trace].
      destruct (contains ids2 (leaf_id (trace a))); cbn [fst].
      * rewrite pruned_packed_idempotent. f_equal. apply IH.
        intros j Hj. apply Hsub, (contains_erase_first (leaf_id (trace a))), Hj.
      * f_equal. apply IH, Hsub.
    + cbn [prune_plan]. rewrite Ea.
      destruct (contains ids2 (leaf_id (trace a))) eqn:Hc2.
      * apply Hsub, prune_plan_ids_subset in Hc2. congruence.
      * cbn [fst]. f_equal. apply IH, Hsub.
  - cbn [fst snd] in *. cbn [prune_plan]. rewrite Ea. cbn [fst]. f_equal. apply IH, Hsub.
Qed.

Lemma carries_partial_plan traces :
  forall id_list,
    existsb carries_partial traces = false ->
    existsb carries_partial (fst (prune_plan id_list traces)) = false.
Proof.
  induction traces as [| a traces IH]; intros id_list; cbn [prune_plan existsb]; [tauto |].
  intros Hn. apply orb_false_iff in Hn as [Ha Hr].
  unfold carries_partial in Ha |- * at 1.
  destruct (packed_trx a) as [pt |] eqn:Ea.
  - destruct (contains id_list (leaf_id (trace a))); cbn [fst existsb].
    + rewrite IH by exact Hr. unfold carries_partial. cbn [packed_trx pruned_packed
        chain.get_prunable_data].
      destruct (chain.get_prunable_data pt) as [s g | | s g | s g]; try discriminate;
        cbn [prune]; try reflexivity; destruct (empty s && empty g); reflexivity.
    + rewrite IH by exact Hr. unfold carries_partial. rewrite Ea, Ha. reflexivity.
  - cbn [fst existsb]. rewrite IH by exact Hr. unfold carries_partial. rewrite Ea.
    reflexivity.
Qed.

End PlanFacts.

Section PrunedEntryFacts.

Context `{ZlibOk} `{VariantIndexOk}.
Context `{RawOk (list signature_type)} `{RawOk (list bytes)}.
Context `{RawOk (list transaction_trace)}.
Context `{chain.PruneAll} `{RawOk chain.none_type}.

Lemma entry_readable_plan (v : N) traces id_list :
  v <> 0%N -> entry_readable v traces -> entry_readable v (fst (prune_plan id_list traces)).
Proof.
  intros Hv [Hfit Hsec]. split.
  - rewrite (store_view_plan v traces Hv). exact Hfit.
  - clear Hfit. revert id_list.
    induction traces as [| a traces IH]; intros id_list; cbn [prune_plan]; [constructor |].
    inversion Hsec as [| ? ? Ha Hr]; subst.
    destruct (packed_trx a) as [pt |] eqn:Ea.
    + destruct (contains id_list (leaf_id (trace a))); cbn [fst]; constructor;
        try (apply IH; exact Hr); try exact Ha.
      unfold section_readable. cbn [packed_trx pruned_packed chain.get_prunable_data].
      intros Hc. exfalso. apply Hc, prune_stripped.
    + cbn [fst]. constructor; [exact Ha | apply IH; exact Hr].
Qed.

Lemma listed_fit_plan traces :
  forall id_list,
    listed_fit id_list traces ->
    listed_fit (snd (prune_plan id_list traces)) (fst (prune_plan id_list traces)).
Proof.
  unfold listed_fit.
  induction traces as [| a traces IH]; intros id_list Hpf; cbn [prune_plan]; [constructor |].
  inversion Hpf as [| ? ? Hpa Hpr]; subst.
  destruct (packed_trx a) as [pt |] eqn:Ea.
  - destruct (contains id_list (leaf_id (trace a))) eqn:Hc; cbn [fst snd].
    + constructor.
      * intros _. unfold prune_fits. cbn [packed_trx pruned_packed chain.get_prunable_data].
        rewrite prune_prune. reflexivity.
      * apply IH. eapply Forall_impl; [exact Hpr |]. intros b Hb Hcb.
        apply Hb, (contains_erase_first _ _ _ Hcb).
    + constructor; [| apply IH, Hpr].
      intros Hcs. apply prune_plan_ids_subset in Hcs. congruence.
  - cbn [fst snd]. constructor; [| apply IH, Hpr].
    intros _. unfold prune_fits. rewrite Ea. exact I.
Qed.

Lemma visit_restore_readable (v : N) (packed : option chain.packed_transaction)
    (t : chain.transaction_trace) buf pos rest :
  v <> 0%N ->
  let a := {| trace := t; packed_trx := packed |} in
  drop pos buf = trace_section a ++ rest ->
  pos <= length buf ->
  section_readable a ->
  carries_partial a = false ->
  visit_deserialized_trace (fun _ m => m) restore_visitor
    (to_transaction_trace v packed t) {| ds_buf := buf; ds_pos := pos |}
  = ({| ds_buf := buf; ds_pos := pos + length (trace_section a) |},
     Ok (to_transaction_trace 0 packed t)).
Proof.
  intros Hv a E Hpos Hfit Hnp. subst a.
  unfold trace_section, section_readable, carries_partial in *. cbn [packed_trx] in *.
  induction t as [i rc ats | i rc ats inner IH] using chain_trace_nested_ind.
  - rewrite !to_transaction_trace_leaf. cbn [visit_deserialized_trace].
    destruct (N.eqb_spec v 0) as [| _]; [contradiction |]. cbn [N.eqb].
    destruct packed as [pt |].
    + unfold bind at 1. cbn [ret].
      erewrite bind_ok by (apply (unpack_readable _ _ _ _ E Hfit)).
      unfold restore_visitor. cbn [partial].
      destruct (chain.get_prunable_data pt) as [sigs segs | | sigs segs | sigs segs];
        try discriminate; reflexivity.
    + unfold bind, ret. cbn [length]. rewrite Nat.add_0_r. reflexivity.
  - rewrite !to_transaction_trace_node. cbn [visit_deserialized_trace].
    unfold bind at 1. unfold bind at 1. rewrite IH. reflexivity.
Qed.

Lemma for_each_mut_restore_readable (v : N) traces :
  v <> 0%N ->
  forall buf pos rest,
    drop pos buf = sections traces ++ rest ->
    pos <= length buf ->
    Forall section_readable traces ->
    existsb carries_partial traces = false ->
    for_each_mut (visit_deserialized_trace (fun _ m => m) restore_visitor)
      (store_view {| context_version := v; wrapped_traces := traces |})
      {| ds_buf := buf; ds_pos := pos |}
    = ({| ds_buf := buf; ds_pos := pos + length (sections traces) |},
       Ok (store_view {| context_version := 0; wrapped_traces := traces |})).
Proof.
  intros Hv. unfold store_view. cbn [context_version wrapped_traces].
  induction traces as [| a traces IH]; intros buf pos rest E Hpos Hfit Hnp.
  - cbn. rewrite Nat.add_0_r. reflexivity.
  - cbn [map for_each_mut]. unfold sections in *. cbn [map concat] in *.
    rewrite <- app_assoc in E. inversion Hfit as [| ? ? Hfa Hfr]; subst.
    cbn [existsb] in Hnp. apply orb_false_iff in Hnp as [Hna Hnr].
    destruct a as [t packed]. cbn beta. cbn [packed_trx trace].
    erewrite bind_ok
      by (apply (visit_restore_readable v packed t buf pos _ Hv E Hpos Hfa Hna)).
    destruct (drop_prefix _ _ _ _ E (or_intror Hpos)) as (Hle & _ & E').
    erewrite bind_ok by (apply (IH _ _ _ E' Hle Hfr Hnr)).
    unfold ret. rewrite length_app, Nat.add_assoc. reflexivity.
Qed.

Lemma decode_readable (v : N) (traces : list augmented_transaction_trace)
    (junk : bytes) :
  v <> 0%N -> entry_readable v traces -> existsb carries_partial traces = false ->
  to_traces_bin_v0 (entry_payload v traces ++ junk) v
  = Ok (raw_pack (store_view {| context_version := 0; wrapped_traces := traces |})).
Proof.
  intros Hv [Hfit Hsec] Hnp.
  unfold to_traces_bin_v0. destruct (N.eqb_spec v 0) as [| _]; [contradiction |].
  assert (Hlay := entry_payload_layout v traces Hv).
  set (u := zlib_section (raw_pack
              (store_view {| context_version := v; wrapped_traces := traces |}))) in *.
  assert (Hentry : entry_payload v traces ++ junk = u ++ sections traces ++ junk).
  { rewrite Hlay, <- app_assoc. reflexivity. }
  rewrite Hentry.
  erewrite bind_ok.
  2:{ apply (zlib_unpack_buffer_section _ 0 _ [] (sections traces ++ junk));
        [rewrite drop_0; reflexivity | exact Hfit]. }
  fold u.
  erewrite bind_ok.
  2:{ apply (for_each_mut_restore_readable v traces Hv _ _ junk).
      - rewrite Nat.add_0_l. apply drop_app_length.
      - rewrite length_app. lia.
      - exact Hsec.
      - exact Hnp. }
  reflexivity.
Qed.

(** The buffer after [prune_traces]: it starts with the entry [pack] would
    write for the traces with the prunable data of the pruned ones replaced by
    [prune] of it, and what lies behind are the bytes the buffer had there
    before; the id list comes back without the ids that were used. This
    holds when [prune] makes the serialized prunable data of no trace named
    in the id list longer. *)
Theorem prune_traces_layout (v : N) (traces : list augmented_transaction_trace)
    (id_list : list transaction_id_type) (junk : bytes) :
  v <> 0%N -> entry_readable v traces -> listed_fit id_list traces ->
  exists region,
    prune_traces (entry_payload v traces ++ junk) v id_list
    = (entry_payload v (fst (prune_plan id_list traces))
         ++ drop (length (entry_payload v (fst (prune_plan id_list traces))))
              (entry_payload v traces ++ junk),
       snd (prune_plan id_list traces), Ok region).
Proof.
  intros Hv Hread Hpf.
  destruct (prune_traces_run v traces id_list junk Hv Hread Hpf)
    as (p' & Hres & Hinv & Hframe & Hwp & Htake).
  exists (changed_region p'). rewrite Hres. do 2 f_equal.
  rewrite <- (take_drop (write_strm p') (buffer p')) at 1.
  rewrite Htake, (frame_above _ _ Hframe), Hwp. reflexivity.
Qed.

(** When [prune] makes the serialized prunable data of no trace named in the
    id list longer, [prune_traces] changes the buffer only inside the region
    it returns: the bytes before the region and the bytes from its end on are
    those of the buffer before the call, and the buffer keeps its length. *)
Theorem prune_traces_changes_only_region (v : N)
    (traces : list augmented_transaction_trace)
    (id_list : list transaction_id_type) (junk : bytes) :
  v <> 0%N -> entry_readable v traces -> listed_fit id_list traces ->
  exists buf ids' first last,
    prune_traces (entry_payload v traces ++ junk) v id_list = (buf, ids', Ok (first, last)) /\
    length buf = length (entry_payload v traces ++ junk) /\
    first <= last <= length buf /\
    take first buf = take first (entry_payload v traces ++ junk) /\
    drop last buf = drop last (entry_payload v traces ++ junk).
Proof.
  intros Hv Hread Hpf.
  destruct (prune_traces_run v traces id_list junk Hv Hread Hpf)
    as (p' & Hres & Hinv & Hframe & _ & _).
  pose proof (inv_length _ _ Hinv) as Hlen. pose proof (inv_behind _ _ Hinv).
  pose proof (inv_bound _ _ Hinv).
  unfold changed_region in Hres.
  destruct (Nat.eqb_spec (change_position p') 0) as [Hz | Hnz].
  - destruct (inv_unchanged _ _ Hinv Hz) as [_ Hb].
    exists (buffer p'), (snd (prune_plan id_list traces)), 0, 0.
    split; [exact Hres |]. split; [exact Hlen |]. split; [lia |].
    rewrite Hb. split; reflexivity.
  - pose proof (inv_region _ _ Hinv Hnz).
    exists (buffer p'), (snd (prune_plan id_list traces)),
      (change_position p'), (write_strm p').
    split; [exact Hres |]. split; [exact Hlen |]. split; [lia |].
    split; [apply (frame_below _ _ Hframe) | apply (frame_above _ _ Hframe)].
Qed.

(** Decoding the buffer after [prune_traces]: the traces come back with the
    signatures and the context-free data of the pruned ones gone, and those of
    the others as they were. This holds when [prune] makes the serialized
    prunable data of no trace named in the id list longer. *)
Theorem decode_after_prune (v : N) (traces : list augmented_transaction_trace)
    (id_list : list transaction_id_type) (junk : bytes) :
  v <> 0%N -> entry_readable v traces -> listed_fit id_list traces ->
  existsb carries_partial traces = false ->
  to_traces_bin_v0 (fst (fst (prune_traces (entry_payload v traces ++ junk) v id_list))) v
  = Ok (raw_pack (store_view {| context_version := 0;
                                wrapped_traces := fst (prune_plan id_list traces) |})).
Proof.
  intros Hv Hread Hpf Hnp.
  destruct (prune_traces_run v traces id_list junk Hv Hread Hpf)
    as (p' & Hres & Hinv & Hframe & Hwp & Htake).
  rewrite Hres. cbn [fst].
  rewrite <- (take_drop (write_strm p') (buffer p')), Htake.
  apply decode_readable.
  - exact Hv.
  - apply entry_readable_plan; assumption.
  - apply carries_partial_plan, Hnp.
Qed.

(** Pruning is stable: when [prune] makes the serialized prunable data of no
    trace named in the id list longer, [prune_traces] run again on the buffer
    it left, with the id list it left, leaves the buffer as it is. *)
Theorem prune_traces_again (v : N) (traces : list augmented_transaction_trace)
    (id_list : list transaction_id_type) (junk : bytes) :
  v <> 0%N -> entry_readable v traces -> listed_fit id_list traces ->
  let first_run := prune_traces (entry_payload v traces ++ junk) v id_list in
  exists ids' region,
    prune_traces (fst (fst first_run)) v (snd (fst first_run))
    = (fst (fst first_run), ids', Ok region).
Proof.
  intros Hv Hread Hpf first_run. subst first_run.
  destruct (prune_traces_run v traces id_list junk Hv Hread Hpf)
    as (p' & Hres & Hinv & Hframe & Hwp & Htake).
  rewrite Hres. cbn [fst snd].
  set (plan := prune_plan id_list traces) in *.
  assert (Hbuf : buffer p' = entry_payload v (fst plan) ++ drop (write_strm p') (buffer p')).
  { rewrite <- Htake. symmetry. apply take_drop. }
  set (rest := drop (write_strm p') (buffer p')) in *.
  assert (Hread' : entry_readable v (fst plan)) by (apply entry_readable_plan; assumption).
  destruct (prune_traces_run v (fst plan) (snd plan) rest Hv Hread'
              (listed_fit_plan traces id_list Hpf))
    as (q & Hres2 & _ & Hframe2 & Hwq & Htakeq).
  pose proof (prune_plan_stable traces id_list (snd plan) (fun j Hj => Hj)) as Hst.
  fold plan in Hst. cbv zeta in Hres2, Hwq, Htakeq.
  rewrite Hst in Hwq, Htakeq. rewrite <- Hbuf in Hres2.
  exists (snd (prune_plan (snd plan) (fst plan))), (changed_region q).
  rewrite Hres2. do 2 f_equal.
  rewrite <- (take_drop (write_strm q) (buffer q)), Htakeq, (frame_above _ _ Hframe2).
  rewrite Hwq, drop_app_length. symmetry. exact Hbuf.
Qed.

End PrunedEntryFacts.

Lemma pruner_within_refl p : pruner_within p p.
Proof. split; reflexivity. Qed.

Lemma pruner_within_trans p q r : pruner_within p q -> pruner_within q r -> pruner_within p r.
Proof. intros [L1 S1] [L2 S2]. split; [congruence | etransitivity; eassumption]. Qed.

Lemma keeps_within_ret {A} (a : A) : keeps_within (ret a).
Proof. intros p. apply pruner_within_refl. Qed.

Lemma keeps_within_bind {A B} (m : M trace_pruner A) (k : A -> M trace_pruner B) :
  keeps_within m -> (forall a, keeps_within (k a)) -> keeps_within (bind m k).
Proof.
  intros Hm Hk p. unfold bind. specialize (Hm p).
  destruct (m p) as [p1 [a | e]]; cbn [fst] in *; [| exact Hm].
  eapply pruner_within_trans; [exact Hm | apply Hk].
Qed.

Lemma keeps_within_read {A} (m : M datastream A) : keeps_within (on_read_strm m).
Proof.
  intros p. unfold on_read_strm.
  destruct (m _) as [ds r]. split; reflexivity.
Qed.

Lemma keeps_within_write {A} (m : M datastream A) :
  keeps_length m -> keeps_within (on_write_strm m).
Proof.
  intros Hm p. unfold on_write_strm.
  specialize (Hm {| ds_buf := buffer p; ds_pos := write_strm p |}).
  destruct (m _) as [ds r]. split; [exact Hm | reflexivity].
Qed.

Lemma keeps_length_ret {A} (a : A) : keeps_length (ret a).
Proof. intros ds. reflexivity. Qed.

Lemma keeps_length_bind {A B} (m : M datastream A) (k : A -> M datastream B) :
  keeps_length m -> (forall a, keeps_length (k a)) -> keeps_length (bind m k).
Proof.
  intros Hm Hk ds. unfold bind. specialize (Hm ds).
  destruct (m ds) as [ds1 [a | e]]; cbn [fst] in *; [| exact Hm].
  rewrite Hk. exact Hm.
Qed.

Lemma keeps_length_scoped {A} (body : M datastream A) release :
  keeps_length body -> keeps_length release -> keeps_length (scoped body release).
Proof.
  intros Hb Hr ds. unfold scoped. specialize (Hb ds).
  destruct (body ds) as [ds1 [a | e]]; cbn [fst] in *.
  - specialize (Hr ds1). destruct (release ds1) as [ds2 [[] | e]]; cbn [fst] in *; congruence.
  - rewrite Hr. exact Hb.
Qed.

Lemma keeps_length_write data : keeps_length (write (S := datastream) data).
Proof.
  intros ds. change (write (S := datastream)) with ds_write. unfold ds_write.
  destruct (decide _) as [Hle | Hgt]; cbn [fst ds_buf]; [| reflexivity].
  apply length_overwrite. exact Hle.
Qed.

Lemma keeps_length_skip n : keeps_length (ds_skip n).
Proof. intros ds. reflexivity. Qed.

Lemma keeps_length_close start_pos :
  keeps_length (length_writer_close (S := datastream) start_pos).
Proof.
  unfold length_writer_close.
  apply keeps_length_bind; [intros ds; reflexivity |]. intros end_pos.
  apply keeps_length_bind; [intros ds; reflexivity |]. intros _.
  apply keeps_length_bind; [apply keeps_length_write |]. intros _.
  intros ds. reflexivity.
Qed.

Section SafetyFacts.

Context `{Zlib} `{VariantIndex}.
Context `{RawPack (list signature_type)} `{RawUnpack (list signature_type)}.
Context `{RawPack (list bytes)} `{RawUnpack (list bytes)}.
Context `{RawPack (list transaction_trace)} `{RawUnpack (list transaction_trace)}.
Context `{chain.PruneAll} `{RawPack chain.none_type} `{RawUnpack chain.none_type}.

Lemma keeps_length_zlib_pack (segs : list bytes) :
  keeps_length (zlib_pack (S := datastream) segs).
Proof.
  unfold zlib_pack. destruct (is_empty segs); [apply keeps_length_write |].
  apply keeps_length_bind.
  - unfold length_writer_open. apply keeps_length_bind; [apply keeps_length_write |].
    intros _ ds. reflexivity.
  - intros start_pos.
    apply keeps_length_scoped; [apply keeps_length_write | apply keeps_length_close].
Qed.

Lemma keeps_length_pack obj : keeps_length (pack (S := datastream) obj).
Proof.
  unfold pack. apply keeps_length_bind; [apply keeps_length_write |]. intros _.
  destruct obj as [sigs segs | data | sigs segs | sigs segs];
    try apply keeps_length_write;
    (apply keeps_length_bind; [apply keeps_length_write |]; intros _;
     apply keeps_length_zlib_pack).
Qed.

Lemma sublist_erase_first i id_list : sublist (erase_first i id_list) id_list.
Proof.
  induction id_list as [| j l IH]; cbn [erase_first]; [constructor |].
  destruct (i =? j)%N; [apply sublist_cons, reflexivity | apply sublist_skip, IH].
Qed.

Lemma keeps_within_call trace prunable : keeps_within (trace_pruner_call trace prunable).
Proof.
  unfold trace_pruner_call.
  apply keeps_within_bind; [intros p; apply pruner_within_refl |]. intros p0.
  apply keeps_within_bind.
  2:{ intros _. apply keeps_within_bind; [| intros _; apply keeps_within_ret].
      intros p. split; reflexivity. }
  destruct (contains (ids p0) (trace_id trace)).
  - apply keeps_within_bind.
    { destruct (change_position p0 =? 0); [| apply keeps_within_ret].
      intros p. split; reflexivity. }
    intros _. apply keeps_within_bind.
    { apply keeps_within_write, keeps_length_pack. }
    intros _ p. split; [reflexivity |]. cbn [fst modify ids]. apply sublist_erase_first.
  - destruct (change_position p0 =? 0).
    + apply keeps_within_write, keeps_length_skip.
    + apply keeps_within_write, keeps_length_write.
Qed.

Lemma keeps_within_visit trace :
  keeps_within (visit_deserialized_trace (@on_read_strm) trace_pruner_call trace).
Proof.
  induction trace as [i rc part | i rc inner part IH] using trace_nested_ind;
    cbn [visit_deserialized_trace].
  - apply keeps_within_bind; [apply keeps_within_ret |]. intros failed'.
    destruct part; [| apply keeps_within_ret].
    apply keeps_within_bind; [apply keeps_within_read | intros d; apply keeps_within_call].
  - apply keeps_within_bind.
    { apply keeps_within_bind; [exact IH | intros x; apply keeps_within_ret]. }
    intros failed'.
    destruct part; [| apply keeps_within_ret].
    apply keeps_within_bind; [apply keeps_within_read | intros d; apply keeps_within_call].
Qed.

Lemma keeps_within_for_each traces :
  keeps_within (for_each_mut (visit_deserialized_trace (@on_read_strm) trace_pruner_call)
                  traces).
Proof.
  induction traces as [| t traces IH]; cbn [for_each_mut]; [apply keeps_within_ret |].
  apply keeps_within_bind; [apply keeps_within_visit |]. intros t'.
  apply keeps_within_bind; [exact IH | intros l; apply keeps_within_ret].
Qed.

(** Whatever the buffer holds and whether it returns or throws, [prune_traces]
    leaves a buffer of the length it was given, and an id list that is the
    given one with some ids taken out. *)
Theorem prune_traces_never_resizes (entry : bytes) (version : N)
    (id_list : list transaction_id_type) :
  length (fst (fst (prune_traces entry version id_list))) = length entry /\
  sublist (snd (fst (prune_traces entry version id_list))) id_list.
Proof.
  unfold prune_traces. destruct (negb (0 <? version)%N); [split; reflexivity |].
  destruct (zlib_unpack_buffer [] _) as [rds [traces | e]]; [| split; reflexivity].
  pose proof (keeps_within_for_each traces (trace_pruner_new entry rds id_list)) as [Hl Hs].
  destruct (for_each_mut _ traces _) as [p [r | e]]; cbn [fst snd] in *; split; assumption.
Qed.

End SafetyFacts.

(* ===================================================================== *)
(** * The theorems at the sample traces *)
(* ===================================================================== *)

Import Sample SampleFacts.

Ltac sample_fits :=
  split; [vm_compute; reflexivity | repeat constructor; vm_compute; reflexivity].

Ltac sample_listed :=
  repeat constructor; intros Hc;
  first [ (vm_compute in Hc; discriminate)
        | (apply Nat.leb_le; vm_compute; reflexivity) ].

Lemma block_traces_fit : lengths_fit 1 block_traces.
Proof. sample_fits. Qed.

Lemma partial_traces_fit : lengths_fit 1 partial_traces.
Proof. sample_fits. Qed.

Lemma prune_write_cursor_behind_read_cursor_witness :
  length (prune_traces_steps (entry_payload 1 block_traces) [2; 3]%N) = 3 /\
  Forall (fun p => write_strm p <= read_strm p /\
                   drop (read_strm p) (buffer p)
                     = drop (read_strm p) (entry_payload 1 block_traces))
         (prune_traces_steps (entry_payload 1 block_traces) [2; 3]%N) /\
  exists p_end,
    last (prune_traces_steps (entry_payload 1 block_traces) [2; 3]%N) = Some p_end /\
    prune_traces (entry_payload 1 block_traces) 1 [2; 3]%N
      = (buffer p_end, ids p_end, Ok (changed_region p_end)).
Proof.
  apply (prune_write_cursor_behind_read_cursor 1 block_traces [2; 3]%N);
    [discriminate | sample_fits | sample_listed].
Defined.

(** C1, counterexample: the first transaction of this entry has a
    context-free segment and no signature, so its section is shorter than
    the section of a None record. Pruning it moves the write position to 101
    while the read position is at 47: the next section is overwritten before
    it is read. *)
Lemma write_cursor_passes_read_cursor :
  lengths_fit 1 unsigned_traces /\
  map (fun p => (write_strm p, read_strm p))
    (prune_traces_steps (entry_payload 1 unsigned_traces) [2]%N)
  = [(35, 35); (101, 47); (143, 89)].
Proof. split; [sample_fits | vm_compute; reflexivity]. Qed.

Lemma prune_never_grows_witness :
  length (packed_bytes (prune (chain.full [sig1] [[x01; x02; x03]])))
  <= length (packed_bytes (chain.full [sig1] [[x01; x02; x03]])).
Proof.
  apply (prune_never_grows sample_zlib sample_index sample_prune_all pack_none
           pack_signatures pack_segments (chain.full [sig1] [[x01; x02; x03]]));
    [intros _; discriminate | intros _; apply Nat.leb_le; vm_compute; reflexivity].
Defined.

(** C2, counterexample: a value with a context-free segment and no signature
    is packed to 12 bytes, and what [prune] makes of it to 66. *)
Lemma prune_grows_without_signature :
  length (packed_bytes (chain.full_legacy [] [[x01]])) = 12 /\
  length (packed_bytes (prune (chain.full_legacy [] [[x01]]))) = 66.
Proof. split; vm_compute; reflexivity. Qed.

Lemma decode_encode_round_trip_witness :
  to_traces_bin_v0 (entry_payload 1 block_traces) 1
  = Ok (raw_pack (store_view {| context_version := 0; wrapped_traces := block_traces |})).
Proof.
  apply (decode_encode_round_trip 1 block_traces).
  right. split; [sample_fits | reflexivity].
Defined.

(** C3, counterexample: a sequence with one trace whose packed transaction
    carries the Partial case is written at version 1, and decoding the entry
    fails. *)
Lemma round_trip_fails_on_partial :
  to_traces_bin_v0 (entry_payload 1 partial_traces) 1 = Err not_implemented.
Proof. vm_compute. reflexivity. Qed.

Lemma decode_partial_not_implemented_witness :
  to_traces_bin_v0 (entry_payload 1 partial_traces) 1 = Err not_implemented.
Proof.
  apply (decode_partial_not_implemented 1 partial_traces);
    [discriminate | sample_fits | reflexivity].
Defined.

(** C5, counterexample: the second prunable section of this entry is of the
    Partial case, and decoding does not succeed. *)
Lemma decode_of_partial_section_fails :
  existsb carries_partial partial_signed_traces = true /\
  to_traces_bin_v0 (entry_payload 1 partial_signed_traces) 1 = Err not_implemented.
Proof. split; vm_compute; reflexivity. Qed.

Lemma prune_traces_partial_is_pruned_witness :
  exists region,
    prune_traces (entry_payload 1 partial_traces) 1 [7]%N
      = (entry_payload 1 partial_traces, snd (prune_plan [7]%N partial_traces), Ok region) /\
    (Exists (fun a => carries_partial a = true /\
                      contains [7]%N (leaf_id (trace a)) = true) partial_traces ->
     0 < fst region < snd region /\ snd region = length (entry_payload 1 partial_traces)).
Proof.
  apply (prune_traces_partial_is_pruned 1 partial_traces [7]%N);
    [discriminate | sample_fits | repeat constructor].
Defined.

(** C6, counterexample: the only trace of this entry carries the Partial case
    and its id is the one to prune; [prune_traces] returns a region, with the
    entry as it was and the id gone from the list. *)
Lemma prune_of_partial_returns :
  existsb carries_partial partial_traces = true /\
  prune_traces (entry_payload 1 partial_traces) 1 [7]%N
  = (entry_payload 1 partial_traces, [], Ok (25, 31)).
Proof. split; vm_compute; reflexivity. Qed.

Lemma prune_traces_no_match_witness :
  prune_traces (entry_payload 1 block_traces) 1 [5]%N
  = (entry_payload 1 block_traces, [5]%N, Ok (0, 0)).
Proof.
  apply (prune_traces_no_match 1 block_traces [5]%N);
    [discriminate | sample_fits | repeat constructor].
Defined.

Lemma zlib_empty_section_witness :
  zlib_unpack (@nil bytes) {| ds_buf := [x00; x00; x00; x00; x07]; ds_pos := 0 |}
  = ({| ds_buf := [x00; x00; x00; x00; x07]; ds_pos := 4 |}, Ok []).
Proof.
  apply (proj1 (proj1 (proj2 (proj2 (zlib_empty_section (A := bytes) sample_zlib
                                       pack_segments unpack_segments)))
                 [x00; x00; x00; x00; x07] 0 [] eq_refl)).
Defined.

(* ===================================================================== *)
(** * The further properties at the sample traces *)
(* ===================================================================== *)

Ltac sample_readable :=
  split; [vm_compute; reflexivity
         | repeat constructor; try (intros _; vm_compute; reflexivity)].

Lemma prepare_traces_in_block_order_witness :
  prepare_traces [chain.trx_id 2%N] stale_converter
  = ({| cached_traces := ∅; onblock_trace := None |},
     Ok (match onblock_trace stale_converter with Some t => [t] | None => [] end
         ++ [augmented 2 (chain.none sample_none)])).
Proof.
  apply (proj1 (prepare_traces_in_block_order [chain.trx_id 2%N] stale_converter)).
  repeat constructor.
Defined.

Lemma add_transaction_slots_witness :
  onblock_trace (fst (add_transaction 0 0 0 (plain_trace 2) None stale_converter))
    = onblock_trace stale_converter /\
  cached_traces (fst (add_transaction 0 0 0 (plain_trace 2) None stale_converter))
    !! cache_key (plain_trace 2)
    = Some {| trace := plain_trace 2; packed_trx := None |} /\
  forall k, k <> cache_key (plain_trace 2) ->
    cached_traces (fst (add_transaction 0 0 0 (plain_trace 2) None stale_converter)) !! k
    = cached_traces stale_converter !! k.
Proof.
  apply (proj2 (proj2 (proj2
           (add_transaction_slots 0 0 0 (plain_trace 2) None stale_converter))));
    [eexists; reflexivity | reflexivity].
Defined.

Lemma add_transaction_all_receipted_witness :
  all_receipted
    (fst (add_transaction 0 0 0 (plain_trace 2) None
            {| cached_traces := ∅; onblock_trace := None |})).
Proof.
  apply (add_transaction_all_receipted 0 0 0 (plain_trace 2) None
           {| cached_traces := ∅; onblock_trace := None |}).
  split; [intros k a Hk; cbn [cached_traces] in Hk; rewrite lookup_empty in Hk | intros a Hk];
    discriminate.
Defined.

Lemma add_then_prepare_witness :
  prepare_traces [chain.trx_id (cache_key (plain_trace 2))]
    (fst (add_transaction 0 0 0 (plain_trace 2) None stale_converter))
  = ({| cached_traces := ∅; onblock_trace := None |},
     Ok (match onblock_trace stale_converter with Some t => [t] | None => [] end
         ++ [{| trace := plain_trace 2; packed_trx := None |}])).
Proof.
  apply (add_then_prepare 0 0 0 (plain_trace 2) None stale_converter);
    [eexists; reflexivity | reflexivity].
Defined.

Lemma prepare_traces_fails_iff_missing_witness :
  (snd (prepare_traces [chain.trx_id 5%N] {| cached_traces := ∅; onblock_trace := None |})
     = Err missing_trace <->
   Exists (fun r => (∅ : gmap N augmented_transaction_trace) !! receipt_id r = None)
     [chain.trx_id 5%N]) /\
  ((exists traces,
      snd (prepare_traces [chain.trx_id 5%N] {| cached_traces := ∅; onblock_trace := None |})
      = Ok traces) <->
   Forall (fun r => is_Some ((∅ : gmap N augmented_transaction_trace) !! receipt_id r))
     [chain.trx_id 5%N]).
Proof.
  apply (prepare_traces_fails_iff_missing [chain.trx_id 5%N]
           {| cached_traces := ∅; onblock_trace := None |}).
  split; [intros k a Hk; cbn [cached_traces] in Hk; rewrite lookup_empty in Hk | intros a Hk];
    discriminate.
Defined.

Lemma length_writer_patches_file_witness :
  (start_pos <- length_writer_open ;;
   scoped (cfile_write [x01; x02]) (length_writer_close start_pos))
    {| file_data := []; file_pos := 0 |}
  = (append (le32 (uint32 (N.of_nat (length [x01; x02]))) ++ [x01; x02])
       {| file_data := []; file_pos := 0 |}, Ok tt).
Proof.
  apply (length_writer_patches_file (cfile_write [x01; x02]) [x01; x02]
           {| file_data := []; file_pos := 0 |});
    [reflexivity | intros g Hg; apply cfile_write_at_end; exact Hg].
Defined.

Lemma length_writer_patches_buffer_witness :
  (start_pos <- length_writer_open ;;
   scoped (write [x01; x02]) (length_writer_close start_pos))
    {| ds_buf := replicate 8 x00; ds_pos := 1 |}
  = ({| ds_buf := overwrite 1 (le32 (uint32 (N.of_nat (length [x01; x02]))) ++ [x01; x02])
                    (replicate 8 x00);
        ds_pos := 1 + 4 + length [x01; x02] |}, Ok tt).
Proof.
  apply (length_writer_patches_buffer [x01; x02] (replicate 8 x00) 1). cbn. lia.
Defined.

Lemma zlib_pack_unpack_round_trip_witness :
  zlib_unpack_buffer []
    {| ds_buf := file_data (fst (zlib_pack [[x01; x02]] {| file_data := []; file_pos := 0 |}));
       ds_pos := 0 |}
  = ({| ds_buf := file_data (fst (zlib_pack [[x01; x02]] {| file_data := []; file_pos := 0 |}));
        ds_pos := file_pos (fst (zlib_pack [[x01; x02]] {| file_data := []; file_pos := 0 |})) |},
     Ok [[x01; x02]]).
Proof.
  apply (zlib_pack_unpack_round_trip [[x01; x02]] [] {| file_data := []; file_pos := 0 |});
    [reflexivity | reflexivity | vm_compute; reflexivity].
Defined.

Lemma zlib_unpack_beyond_buffer_witness :
  zlib_unpack_buffer (@nil bytes) {| ds_buf := le32 5 ++ [x01]; ds_pos := 0 |}
  = ({| ds_buf := le32 5 ++ [x01]; ds_pos := 0 + 4 |}, Err out_of_range_exception).
Proof.
  apply (zlib_unpack_beyond_buffer sample_zlib unpack_segments [] (le32 5 ++ [x01]) [x01] 0 5);
    [reflexivity | reflexivity | cbn; lia].
Defined.

Lemma restricted_reads_budget_witness :
  exists e,
    snd (restricted_reads [2; 3]
           (make_restricted_source ([x01; x02; x03; x04; x05; x06] : bytes) 4)) = Err e.
Proof.
  apply (proj2 (restricted_reads_budget [2; 3]
                  (make_restricted_source ([x01; x02; x03; x04; x05; x06] : bytes) 4))).
  cbn. lia.
Defined.

Lemma prune_strips_witness :
  prune (chain.full [sig1] [])
  = chain.none (chain.prune_all_none (chain.full [sig1] [])).
Proof.
  apply (proj1 (proj2 (proj2 (proj2 (prune_strips sample_prune_all
                                       (chain.full [sig1] [])))))).
  left. discriminate.
Defined.

Lemma pack_unpack_round_trip_witness :
  unpack {| ds_buf := file_data (fst (pack (chain.full [sig1] [[x01; x02]])
                                        {| file_data := []; file_pos := 0 |}));
            ds_pos := 0 |}
  = ({| ds_buf := file_data (fst (pack (chain.full [sig1] [[x01; x02]])
                                    {| file_data := []; file_pos := 0 |}));
        ds_pos := file_pos (fst (pack (chain.full [sig1] [[x01; x02]])
                                   {| file_data := []; file_pos := 0 |})) |},
     Ok (chain.full [sig1] [[x01; x02]])).
Proof.
  apply (pack_unpack_round_trip (chain.full [sig1] [[x01; x02]])
           {| file_data := []; file_pos := 0 |});
    [reflexivity | vm_compute; reflexivity].
Defined.

Lemma encode_layout_witness :
  encode 1 block_traces
  = le32 (uint32 (N.of_nat (length
       (zlib_section (raw_pack (store_view {| context_version := 1;
                                              wrapped_traces := block_traces |}))
        ++ sections block_traces))))
    ++ zlib_section (raw_pack (store_view {| context_version := 1;
                                             wrapped_traces := block_traces |}))
    ++ sections block_traces.
Proof.
  apply (proj2 (encode_layout 1 block_traces)). discriminate.
Defined.

Lemma prune_traces_layout_witness :
  exists region,
    prune_traces (entry_payload 1 block_traces ++ [x07]) 1 [3]%N
    = (entry_payload 1 (fst (prune_plan [3]%N block_traces))
         ++ drop (length (entry_payload 1 (fst (prune_plan [3]%N block_traces))))
              (entry_payload 1 block_traces ++ [x07]),
       snd (prune_plan [3]%N block_traces), Ok region).
Proof.
  apply (prune_traces_layout 1 block_traces [3]%N [x07]);
    [discriminate | sample_readable | sample_listed].
Defined.

Lemma prune_traces_changes_only_region_witness :
  exists buf ids' first last,
    prune_traces (entry_payload 1 block_traces ++ [x07]) 1 [3]%N
      = (buf, ids', Ok (first, last)) /\
    length buf = length (entry_payload 1 block_traces ++ [x07]) /\
    first <= last <= length buf /\
    take first buf = take first (entry_payload 1 block_traces ++ [x07]) /\
    drop last buf = drop last (entry_payload 1 block_traces ++ [x07]).
Proof.
  apply (prune_traces_changes_only_region 1 block_traces [3]%N [x07]);
    [discriminate | sample_readable | sample_listed].
Defined.

Lemma decode_after_prune_witness :
  to_traces_bin_v0
    (fst (fst (prune_traces (entry_payload 1 block_traces ++ [x07]) 1 [3]%N))) 1
  = Ok (raw_pack (store_view {| context_version := 0;
                                wrapped_traces := fst (prune_plan [3]%N block_traces) |})).
Proof.
  apply (decode_after_prune 1 block_traces [3]%N [x07]);
    [discriminate | sample_readable | sample_listed | reflexivity].
Defined.

Lemma prune_traces_again_witness :
  exists ids' region,
    prune_traces
      (fst (fst (prune_traces (entry_payload 1 block_traces ++ [x07]) 1 [3; 3]%N))) 1
      (snd (fst (prune_traces (entry_payload 1 block_traces ++ [x07]) 1 [3; 3]%N)))
    = (fst (fst (prune_traces (entry_payload 1 block_traces ++ [x07]) 1 [3; 3]%N)),
       ids', Ok region).
Proof.
  apply (prune_traces_again 1 block_traces [3; 3]%N [x07]);
    [discriminate | sample_readable | sample_listed].
Defined.

Lemma trace_converter_pack_appends_witness :
  trace_converter_pack [chain.trx_id 2%N] 1
    (stale_converter, {| file_data := []; file_pos := 0 |})
  = match resolve_all stale_converter [chain.trx_id 2%N] with
    | Some found =>
        (({| cached_traces := ∅; onblock_trace := None |},
          append (encode 1 (match onblock_trace stale_converter with
                            | Some t => [t]
                            | None => []
                            end ++ found))
            {| file_data := []; file_pos := 0 |}),
         Ok tt)
    | None => ((stale_converter, {| file_data := []; file_pos := 0 |}), Err missing_trace)
    end.
Proof.
  apply (trace_converter_pack_appends [chain.trx_id 2%N] 1 stale_converter
           {| file_data := []; file_pos := 0 |}).
  reflexivity.
Defined.
